(** * add_labels.py: a shallow embedding of the accessibility-label patcher

    The script patches three Swift sources.  Two of them are rewritten with
    [re.sub] rules applied to the whole text, the third by inserting literal
    lines at fixed line numbers.  This file embeds those operations and
    proves the properties the specification states about them.

    Conventions.
    - A Python [str] is a sequence of Unicode code points: [str := list N].
    - A Python [int] is a [Z].
    - An exception is a value of [exn]; code that can raise returns a
      [result].
    - The script calls [re.sub] with patterns and templates from a small
      fragment of [re].  That fragment is embedded in full; what [re] does
      outside it is a parameter of the development ([Re]), not a guess.
    - The files hold text; reading translates line ends as Python's text
      mode does, writing stores the text as it is (a system whose
      [os.linesep] is the newline: the script is a [#!/usr/bin/env python3]
      script over the sources of a macOS application). *)

From Stdlib Require Import ZArith NArith Lia Sorted Permutation.
From stdpp Require Import gmap strings list sorting.

Local Open Scope Z_scope.

(** ** Python values *)

Abbreviation str := (list N).

(** An ASCII literal of the script, read as code points. *)
Definition u (s : string) : str :=
  map Ascii.N_of_ascii (String.list_ascii_of_string s).

Definition nl : str := [10%N].
Definition dq : str := [34%N].

(** [len(l)] *)
Definition len {A} (l : list A) : Z := Z.of_nat (length l).

(** [list.insert(i, x)]: a negative index counts from the end, and an index
    beyond either end is clamped (CPython [ins1]).  The index is one that
    fits a machine word, as an index of a list does: for an [int] beyond
    that range, which no line number comes near, [list.insert] raises
    [OverflowError] before it reaches [ins1]. *)
Definition list_insert {A} (i : Z) (x : A) (l : list A) : list A :=
  let n := len l in
  let w := if i <? 0 then i + n else i in
  let w := if w <? 0 then 0 else w in
  let w := if n <? w then n else w in
  take (Z.to_nat w) l ++ x :: drop (Z.to_nat w) l.

(** ** Ordering of [(int, str)] tuples

    Strings compare by code point, tuples lexicographically. *)

Fixpoint str_compare (s t : str) : comparison :=
  match s, t with
  | [], [] => Eq
  | [], _ :: _ => Lt
  | _ :: _, [] => Gt
  | a :: s', b :: t' =>
      match N.compare a b with
      | Eq => str_compare s' t'
      | c => c
      end
  end.

Definition tuple_compare (a b : Z * str) : comparison :=
  match Z.compare a.1 b.1 with
  | Eq => str_compare a.2 b.2
  | c => c
  end.

(** [a < b] on tuples *)
Definition tuple_ltb (a b : Z * str) : bool :=
  match tuple_compare a b with Lt => true | _ => false end.

(** [a >= b] on tuples, the order of a list sorted with [reverse=True] *)
Definition tuple_ge (a b : Z * str) : Prop := tuple_compare a b <> Lt.

(** ** [sorted(inserts, reverse=True)]

    A stable sort into descending order: an element is placed in front of
    the elements it is not smaller than, so equal elements keep their
    original order. *)

Fixpoint insert_desc (x : Z * str) (l : list (Z * str)) : list (Z * str) :=
  match l with
  | [] => [x]
  | y :: l' => if tuple_ltb x y then y :: insert_desc x l' else x :: y :: l'
  end.

Fixpoint sorted_reverse (l : list (Z * str)) : list (Z * str) :=
  match l with
  | [] => []
  | x :: l' => insert_desc x (sorted_reverse l')
  end.

(** ** The positional rules (SettingsView.swift) *)

(** The body of the loop:
    [if line_no < len(lines): lines.insert(line_no, text)] *)
Definition insert_step (lines : list str) (it : Z * str) : list str :=
  let '(line_no, text) := it in
  if line_no <? len lines then list_insert line_no text lines else lines.

(** [for line_no, text in todo: ...] over an already ordered list *)
Fixpoint insert_loop (lines : list str) (todo : list (Z * str)) : list str :=
  match todo with
  | [] => lines
  | it :: todo' => insert_loop (insert_step lines it) todo'
  end.

(** [for line_no, text in sorted(inserts, reverse=True): ...] *)
Definition apply_positional_rules (lines : list str) (inserts : list (Z * str))
  : list str :=
  insert_loop lines (sorted_reverse inserts).

(** The inserts whose guard [line_no < len(lines)] held when their turn came,
    in processing order (ghost state: the script keeps no such log). *)
Fixpoint applied_loop (lines : list str) (todo : list (Z * str))
  : list (Z * str) :=
  match todo with
  | [] => []
  | it :: todo' =>
      if it.1 <? len lines
      then it :: applied_loop (insert_step lines it) todo'
      else applied_loop (insert_step lines it) todo'
  end.

Definition applied_inserts (lines : list str) (inserts : list (Z * str))
  : list (Z * str) :=
  applied_loop lines (sorted_reverse inserts).

(** The static insert list of the script. *)
Definition inserts : list (Z * str) :=
  [ (254, u "          .accessibilityLabel(" ++ dq ++ u "Appearance theme picker" ++ dq ++ u ")" ++ nl);
    (274, u "          .accessibilityLabel(" ++ dq ++ u "Text output method picker" ++ dq ++ u ")" ++ nl);
    (353, u "          .accessibilityLabel(" ++ dq ++ u "Audio input device picker" ++ dq ++ u ")" ++ nl);
    (655, u "          .accessibilityLabel(" ++ dq ++ u "Transcription mode picker" ++ dq ++ u ")" ++ nl);
    (670, u "          .accessibilityLabel(" ++ dq ++ u "Preferred locale picker" ++ dq ++ u ")" ++ nl) ].

(** ** Exceptions *)

Inductive exn : Type :=
| re_error                 (* [re.error]: malformed pattern or template *)
| OSError (path : string)  (* the file cannot be opened for reading *)
| PyError (name : string). (* any other exception, by the name of its class *)

Inductive result (A : Type) : Type :=
| Ok (a : A)
| Raise (e : exn).
Arguments Ok {A} a.
Arguments Raise {A} e.

#[global] Instance result_ret : MRet result := fun A a => Ok a.
#[global] Instance result_bind : MBind result := fun A B k r =>
  match r with
  | Ok a => k a
  | Raise e => Raise e
  end.

(** ** The fragment of [re] the script uses

    Patterns are compiled to a sequence of operations in the manner of
    [sre_compile]: single-character items, group marks and greedy repeats of
    a single-character item.  The fragment has literals, [\s], escaped
    punctuation and control escapes, capture groups, and the quantifiers
    [*] and [+] on a single-character item.  A pattern or template with any
    other construct is [Outside] the fragment: the parser says so and what
    [re] does with it is left to the parameter [Re] below. *)

(** What the parser of the fragment finds. *)
Inductive parsed (A : Type) : Type :=
| Parsed (a : A)   (* well formed, within the fragment *)
| Invalid          (* [re] raises [re.error] *)
| Outside.         (* a construct outside the fragment *)
Arguments Parsed {A} a.
Arguments Invalid {A}.
Arguments Outside {A}.

Inductive atom : Type :=
| LITERAL (c : N)
| CATEGORY_SPACE.

Inductive op : Type :=
| AT (a : atom)                      (* one character *)
| MARK (n : nat)                     (* group [n/2 + 1] opens (even) or closes (odd) *)
| MAX_REPEAT (min : nat) (a : atom). (* greedy, at least [min], no upper bound *)

Record Pattern : Type := { groups : nat; code : list op }.

(** [\s] on [str] patterns: the code points for which [str.isspace] holds. *)
Definition is_space (c : N) : bool :=
  ((9 <=? c) && (c <=? 13) || (28 <=? c) && (c <=? 32)
   || (c =? 133) || (c =? 160) || (c =? 5760)
   || (8192 <=? c) && (c <=? 8202)
   || (c =? 8232) || (c =? 8233) || (c =? 8239) || (c =? 8287)
   || (c =? 12288))%N.

Definition is_digit (c : N) : bool := ((48 <=? c) && (c <=? 57))%N.
Definition is_octdigit (c : N) : bool := ((48 <=? c) && (c <=? 55))%N.
Definition is_ascii_letter (c : N) : bool :=
  ((65 <=? c) && (c <=? 90) || (97 <=? c) && (c <=? 122))%N.
Definition digit_value (c : N) : nat := N.to_nat (c - 48).

(** The control escapes shared by patterns and templates:
    [\a \f \n \r \t \v \\]; [\b] is a backspace in a template only. *)
Definition control_escape (c : N) : option N :=
  if (c =? 97)%N then Some 7%N          (* \a *)
  else if (c =? 102)%N then Some 12%N   (* \f *)
  else if (c =? 110)%N then Some 10%N   (* \n *)
  else if (c =? 114)%N then Some 13%N   (* \r *)
  else if (c =? 116)%N then Some 9%N    (* \t *)
  else if (c =? 118)%N then Some 11%N   (* \v *)
  else if (c =? 92)%N then Some 92%N    (* \\ *)
  else None.

(** The item a pattern escape [\c] stands for. *)
Definition pattern_escape (c : N) : parsed atom :=
  if (c =? 115)%N then Parsed CATEGORY_SPACE                       (* \s *)
  else match control_escape c with
  | Some v => Parsed (LITERAL v)
  | None =>
      if is_digit c then Outside                     (* back-reference, octal *)
      else if is_ascii_letter c then
        (* \A \b \B \d \D \S \w \W \Z and \x \u \U \N exist in [re],
           \z in its later versions *)
        if existsb (N.eqb c) [65; 98; 66; 100; 68; 83; 119; 87; 90;
                              120; 117; 85; 78; 122]%N
        then Outside
        else Invalid                                    (* bad escape *)
      else Parsed (LITERAL c)
  end.

(** Metacharacters of [re] that the fragment leaves out: [. [ { ? ^ $ |]. *)
Definition other_special (c : N) : bool :=
  existsb (N.eqb c) [46; 91; 123; 63; 94; 36; 124]%N.

(** [acc] holds the operations emitted so far, last first; [opened] is the
    stack of groups not yet closed. *)
Fixpoint parse (s : str) (acc : list op) (ngroups : nat) (opened : list nat)
  : parsed Pattern :=
  match s with
  | [] =>
      match opened with
      | [] => Parsed {| groups := ngroups; code := rev acc |}
      | _ :: _ => Invalid                               (* missing ) *)
      end
  | c :: s' =>
      if (c =? 92)%N then
        match s' with
        | [] => Invalid                                 (* bad escape (end of pattern) *)
        | e :: s'' =>
            match pattern_escape e with
            | Parsed a => parse s'' (AT a :: acc) ngroups opened
            | Invalid => Invalid
            | Outside => Outside
            end
        end
      else if (c =? 40)%N then                                 (* ( *)
        match s' with
        | 63%N :: _ => Outside                       (* (?...) *)
        | _ => parse s' (MARK (2 * ngroups) :: acc) (S ngroups)
                 (S ngroups :: opened)
        end
      else if (c =? 41)%N then                                 (* ) *)
        match opened with
        | [] => Invalid                                 (* unbalanced parenthesis *)
        | g :: opened' =>
            parse s' (MARK (2 * (g - 1) + 1) :: acc) ngroups opened'
        end
      else if (c =? 42)%N || (c =? 43)%N then                  (* * and + *)
        match acc with
        | [] => Invalid                                 (* nothing to repeat *)
        | MAX_REPEAT _ _ :: _ => Invalid                (* multiple repeat *)
        | MARK n :: _ =>
            if Nat.even n then Invalid                  (* nothing to repeat *)
            else Outside                             (* repeated group *)
        | AT a :: acc' =>
            match s' with
            | 63%N :: _ | 43%N :: _ => Outside       (* lazy, possessive *)
            | _ => parse s' (MAX_REPEAT (if (c =? 43)%N then 1 else 0) a :: acc')
                     ngroups opened
            end
        end
      else if other_special c then Outside
      else parse s' (AT (LITERAL c) :: acc) ngroups opened
  end.

(** [re.compile(pattern)], as far as the fragment goes. *)
Definition compile (pattern : str) : parsed Pattern := parse pattern [] 0 [].

(** *** Matching

    [sre_match code ma start pos s marks] runs [code] on the text [s] that
    begins at offset [pos] of the subject, the attempt having begun at
    offset [start].  It returns the end of the match and the marks set on
    the way, exploring the alternatives of a greedy repeat longest first.
    With [ma] ([must_advance]) an attempt may not succeed without moving. *)

Definition atom_matches (a : atom) (c : N) : bool :=
  match a with
  | LITERAL x => (c =? x)%N
  | CATEGORY_SPACE => is_space c
  end.

(** How many leading characters of [s] the item accepts. *)
Fixpoint count_run (a : atom) (s : str) : nat :=
  match s with
  | c :: s' => if atom_matches a c then S (count_run a s') else 0%nat
  | [] => 0%nat
  end.

Abbreviation marks_t := (list (option nat)).

Fixpoint sre_match (code : list op) (ma : bool) (start pos : nat) (s : str)
  (marks : marks_t) : option (nat * marks_t) :=
  match code with
  | [] =>
      if ma && (pos =? start)%nat then None else Some (pos, marks)
  | AT a :: k =>
      match s with
      | c :: s' =>
          if atom_matches a c then sre_match k ma start (S pos) s' marks
          else None
      | [] => None
      end
  | MARK n :: k => sre_match k ma start pos s (<[n := Some pos]> marks)
  | MAX_REPEAT min a :: k =>
      let n := count_run a s in
      if (n <? min)%nat then None
      else
        (fix try (j : nat) : option (nat * marks_t) :=
           match sre_match k ma start (pos + j) (drop j s) marks with
           | Some r => Some r
           | None =>
               match j with
               | O => None
               | S j' => if (j' <? min)%nat then None else try j'
               end
           end) n
  end.

(** A found match: where it begins, where it ends, and its marks. *)
Record Match : Type := { m_start : nat; m_end : nat; m_marks : marks_t }.

(** [sre_search]: the first offset at or after [pos] where the pattern
    matches; [must_advance] only constrains the attempt at [pos] itself. *)
Fixpoint sre_search (p : Pattern) (ma : bool) (pos : nat) (s : str)
  : option Match :=
  match sre_match (code p) ma pos pos s (replicate (2 * groups p) None) with
  | Some (e, marks) => Some {| m_start := pos; m_end := e; m_marks := marks |}
  | None =>
      match s with
      | [] => None
      | _ :: s' => sre_search p false (S pos) s'
      end
  end.

(** *** Replacement templates *)

Inductive tpart : Type :=
| TLiteral (c : N)
| TGroup (g : nat).

(** A group reference must name a group of the pattern. *)
Definition addgroup (index ngroups : nat) (rest : parsed (list tpart))
  : parsed (list tpart) :=
  if (ngroups <? index)%nat then Invalid                (* invalid group reference *)
  else match rest with
       | Parsed l => Parsed (TGroup index :: l)
       | Invalid => Invalid
       | Outside => Outside
       end.

Definition addliteral (cs : list N) (rest : parsed (list tpart))
  : parsed (list tpart) :=
  match rest with
  | Parsed l => Parsed (map TLiteral cs ++ l)
  | Invalid => Invalid
  | Outside => Outside
  end.

(** [parse_template]: [\1]..[\99] are group references, three octal digits
    a character, [\a \b \f \n \r \t \v \\] control characters; a backslash
    before another ASCII letter is an error and before any other character
    is kept as it is.  [\g<...>] and [\0...] are outside the fragment. *)
Fixpoint parse_template (s : str) (ngroups : nat) : parsed (list tpart) :=
  match s with
  | [] => Parsed []
  | c :: s' =>
      if (c =? 92)%N then
        match s' with
        | [] => Invalid                                 (* bad escape (end of pattern) *)
        | e :: s1 =>
            if (e =? 103)%N || (e =? 48)%N then Outside
            else if is_digit e then
              match s1 with
              | d2 :: s2 =>
                  if is_digit d2 then
                    match s2 with
                    | d3 :: s3 =>
                        if is_octdigit e && is_octdigit d2 && is_octdigit d3
                        then
                          let v := (64 * digit_value e + 8 * digit_value d2
                                    + digit_value d3)%nat in
                          if (255 <? v)%nat then Invalid
                          else addliteral [N.of_nat v] (parse_template s3 ngroups)
                        else
                          addgroup (10 * digit_value e + digit_value d2) ngroups
                            (parse_template s2 ngroups)
                    | [] =>
                        addgroup (10 * digit_value e + digit_value d2) ngroups
                          (parse_template s2 ngroups)
                    end
                  else addgroup (digit_value e) ngroups (parse_template s1 ngroups)
              | [] => addgroup (digit_value e) ngroups (parse_template s1 ngroups)
              end
            else if (e =? 98)%N then
              addliteral [8%N] (parse_template s1 ngroups)     (* \b *)
            else
              match control_escape e with
              | Some v => addliteral [v] (parse_template s1 ngroups)
              | None =>
                  if is_ascii_letter e then Invalid     (* bad escape *)
                  else addliteral [c; e] (parse_template s1 ngroups)
              end
        end
      else addliteral [c] (parse_template s' ngroups)
  end.

(** [m.group(g)] for [g >= 1]; a group that took no part is empty. *)
Definition group_text (content : str) (marks : marks_t) (g : nat) : str :=
  match marks !! (2 * (g - 1))%nat, marks !! (2 * (g - 1) + 1)%nat with
  | Some (Some b), Some (Some e) => take (e - b) (drop b content)
  | _, _ => []
  end.

(** [m.expand(template)] *)
Fixpoint expand (content : str) (marks : marks_t) (tpl : list tpart) : str :=
  match tpl with
  | [] => []
  | TLiteral c :: tpl' => c :: expand content marks tpl'
  | TGroup g :: tpl' => group_text content marks g ++ expand content marks tpl'
  end.

(** *** [pattern.sub]

    The loop of [pattern.sub], over the search of a compiled pattern:
    [search ma pos s] looks for the first match at or after offset [pos],
    [s] being the subject from [pos] on.  What lies before [pos] has been
    copied or replaced already.  After an empty match the next search must
    advance.  Every second round at the latest moves [pos] forward, so
    [2 * len + 2] rounds always suffice ([sub_loop_total] below); [fuel]
    only makes the recursion structural. *)
Fixpoint sub_loop (fuel : nat) (search : bool -> nat -> str -> option Match)
  (tpl : list tpart) (content : str) (ma : bool) (pos : nat) (s : str)
  : option str :=
  match fuel with
  | O => None
  | S fuel' =>
      match search ma pos s with
      | None => Some s
      | Some m =>
          match sub_loop fuel' search tpl content (m_end m =? m_start m)%nat
                  (m_end m) (drop (m_end m - pos) s) with
          | Some rest =>
              Some (take (m_start m - pos) s
                    ++ expand content (m_marks m) tpl ++ rest)
          | None => None
          end
      end
  end.

Definition sub_fuel (content : str) : nat := (2 * length content + 2)%nat.

(** [pattern.sub(repl, content)] for a pattern of the fragment and a parsed
    template.  The budget never runs out ([pattern_sub_total]), so the last
    branch is never taken. *)
Definition pattern_sub (p : Pattern) (tpl : list tpart) (content : str)
  : result str :=
  match sub_loop (sub_fuel content) (sre_search p) tpl content false 0
          content with
  | Some out => Ok out
  | None => Raise (PyError "RecursionError")
  end.

(** [list(pattern.finditer(content))]: the scanner behind it advances
    exactly as [pattern.sub] does. *)
Fixpoint finditer_loop (fuel : nat)
  (search : bool -> nat -> str -> option Match) (ma : bool) (pos : nat)
  (s : str) : option (list Match) :=
  match fuel with
  | O => None
  | S fuel' =>
      match search ma pos s with
      | None => Some []
      | Some m =>
          match finditer_loop fuel' search (m_end m =? m_start m)%nat
                  (m_end m) (drop (m_end m - pos) s) with
          | Some ms => Some (m :: ms)
          | None => None
          end
      end
  end.

Definition pattern_finditer (p : Pattern) (content : str) : list Match :=
  default [] (finditer_loop (sub_fuel content) (sre_search p) false 0 content).

(** ** The rest of [re]

    What [re] does with a pattern or a template outside the fragment is
    not modelled, and not guessed either: it is a parameter.  [re] has
    compiled pattern objects for such patterns, with a number of groups and
    a search that returns a match inside the text, at or after the offset
    it starts from, and not an empty one where the search must advance. *)
Class Re : Type := {
  other_pattern : Type;
  (** [re.compile] of a pattern outside the fragment *)
  other_compile : str -> result other_pattern;
  other_groups : other_pattern -> nat;
  (** the parsing of a template outside the fragment, for a pattern outside
      the fragment or for one of the fragment with so many groups *)
  other_template :
    option other_pattern -> nat -> str -> result (list tpart);
  (** the first match in [content] at or after an offset *)
  other_search : other_pattern -> str -> bool -> nat -> option Match;
  other_search_bounds :
    forall x content ma pos m,
      (pos <= length content)%nat ->
      other_search x content ma pos = Some m ->
      (pos <= m_start m <= m_end m)%nat
      /\ (m_end m <= length content)%nat
      /\ (ma = true -> (pos < m_end m)%nat)
}.

(** The least [Re], for running examples: it has nothing but the fragment.
    The examples use patterns and templates of the fragment only, so none
    of them depends on what this instance says about the others. *)
Definition fragment_only : Re :=
  {| other_pattern := Empty_set;
     other_compile := fun _ => Raise re_error;
     other_groups := fun _ => 0%nat;
     other_template := fun _ _ _ => Raise re_error;
     other_search := fun _ _ _ _ => None;
     other_search_bounds := fun x => match x with end |}.

Section re_defs.
Context {re_rest : Re}.

(** ** [re]: compiled patterns, [re.sub], [re.search] *)

(** A compiled pattern object. *)
Inductive compiled : Type :=
| Frag (p : Pattern)
| Other (x : other_pattern).

Definition compiled_groups (c : compiled) : nat :=
  match c with
  | Frag p => groups p
  | Other x => other_groups x
  end.

(** [re.compile(pattern)] *)
Definition re_compile (pattern : str) : result compiled :=
  match compile pattern with
  | Parsed p => Ok (Frag p)
  | Invalid => Raise re_error
  | Outside => x ← other_compile pattern; Ok (Other x)
  end.

(** The template, parsed against the compiled pattern. *)
Definition re_template (c : compiled) (repl : str) : result (list tpart) :=
  match parse_template repl (compiled_groups c) with
  | Parsed tpl => Ok tpl
  | Invalid => Raise re_error
  | Outside =>
      other_template (match c with Frag _ => None | Other x => Some x end)
        (compiled_groups c) repl
  end.

(** The search of a compiled pattern in [content]. *)
Definition compiled_search (c : compiled) (content : str)
  : bool -> nat -> str -> option Match :=
  match c with
  | Frag p => sre_search p
  | Other x => fun ma pos _ => other_search x content ma pos
  end.

(** [pattern.sub(repl, content)] for any compiled pattern; the last branch
    is never taken ([compiled_sub_total]). *)
Definition compiled_sub (c : compiled) (tpl : list tpart) (content : str)
  : result str :=
  match sub_loop (sub_fuel content) (compiled_search c content) tpl content
          false 0 content with
  | Some out => Ok out
  | None => Raise (PyError "RecursionError")
  end.

(** [list(pattern.finditer(content))] *)
Definition compiled_finditer (c : compiled) (content : str) : list Match :=
  default []
    (finditer_loop (sub_fuel content) (compiled_search c content) false 0
       content).

(** [re.sub(pattern, repl, content)]: the pattern is compiled, then the
    template is parsed against it, and only then is the subject searched. *)
Definition re_sub (pattern repl content : str) : result str :=
  c ← re_compile pattern;
  tpl ← re_template c repl;
  compiled_sub c tpl content.

(** [re.search(pattern, content)] *)
Definition re_search (pattern content : str) : result (option Match) :=
  c ← re_compile pattern;
  Ok (compiled_search c content false 0 content).

(** ** The pattern rules (HUDView.swift)

    [for pattern, replacement in replacements:
         content = re.sub(pattern, replacement, content)] *)
Fixpoint apply_pattern_rules (rules : list (str * str)) (content : str)
  : result str :=
  match rules with
  | [] => Ok content
  | (pattern, replacement) :: rules' =>
      content' ← re_sub pattern replacement content;
      apply_pattern_rules rules' content'
  end.

(** ** The rules of the script *)

(** HUDView.swift *)
Definition replacements : list (str * str) :=
  [ (u "(\.foregroundStyle\(headlineColor\))",
     u "\1\n          .accessibilityLabel(" ++ dq
     ++ u "Status: \\(manager.snapshot.headline)" ++ dq ++ u ")");
    (u "(Text\(sub\)\s+\.font\(\.subheadline\)\s+\.foregroundStyle\(\.secondary\))",
     u "\1\n            .accessibilityLabel(sub)");
    (u "(\.padding\(\.top, 4\))(\s+\})",
     u "\1\n            .accessibilityHint(" ++ dq
     ++ u "Press Command-R to retry the operation" ++ dq ++ u ")\2");
    (u "(AudioLevelMeterView\(level: manager\.audioLevel, width: 100, height: 4\)\s+\.padding\(\.top, 2\))",
     u "\1\n          .accessibilityLabel(" ++ dq ++ u "Audio level meter"
     ++ dq ++ u ")\n          .accessibilityValue(" ++ dq
     ++ u "\\(Int(manager.audioLevel * 100)) percent" ++ dq ++ u ")");
    (u "(Text\(elapsedText\)\s+\.font\(\.caption\.monospacedDigit\(\)\)\s+\.foregroundStyle\(\.secondary\))",
     u "\1\n          .accessibilityLabel(" ++ dq
     ++ u "Elapsed time: \\(elapsedText)" ++ dq ++ u ")");
    (u "(\.animation\(\.easeInOut\(duration: 0\.2\), value: isFinal\))",
     u "\1\n        .accessibilityLabel(isFinal ? " ++ dq
     ++ u "Transcript: \\(text)" ++ dq ++ u " : " ++ dq
     ++ u "Partial transcript: \\(text)" ++ dq ++ u ")");
    (u "(Capsule\(\)\s+\.fill\(\.quaternary\)\s+\))",
     u "\1\n          .accessibilityLabel(" ++ dq
     ++ u "Confidence: \\(Int(confidence * 100)) percent" ++ dq ++ u ")");
    (u "(Image\(systemName: " ++ dq ++ u "exclamationmark\.triangle\.fill"
     ++ dq
     ++ u "\)\s+\.font\(\.system\(size: 32, weight: \.bold\)\)\s+\.foregroundStyle\(phaseColor\.gradient\)\s+\.scaleEffect\(scale\)\s+\.shadow\(color: phaseColor\.opacity\(0\.45\), radius: 10, x: 0, y: 6\))",
     u "\1\n          .accessibilityLabel(" ++ dq ++ u "Error indicator"
     ++ dq ++ u ")");
    (u "(Image\(systemName: " ++ dq ++ u "checkmark\.circle\.fill" ++ dq
     ++ u "\)\s+\.font\(\.system\(size: 28, weight: \.semibold\)\)\s+\.foregroundStyle\(phaseColor\)\s+\.shadow\(color: phaseColor\.opacity\(0\.3\), radius: 6, x: 0, y: 4\))",
     u "\1\n        .accessibilityLabel(" ++ dq ++ u "Success indicator"
     ++ dq ++ u ")");
    (u "(Circle\(\)\s+\.fill\(phaseColor\.gradient\)\s+\.frame\(width: 18, height: 18\)\s+\.scaleEffect\(scale\)\s+\.shadow\(color: phaseColor\.opacity\(0\.4\), radius: 6, x: 0, y: 4\))",
     u "\1\n          .accessibilityLabel(" ++ dq
     ++ u "Recording status indicator" ++ dq ++ u ")") ].

(** MainView.swift *)
Definition main_pattern_1 : str :=
  u "(\.speakTooltip\(" ++ dq
  ++ u "Start or stop a recording from anywhere in Speak\. We\'ll let you know when we\'re listening\."
  ++ dq ++ u "\))".

Definition main_replacement_1 : str :=
  u "\1\n      .accessibilityLabel(accessibilityLabelForRecordButton)".

Definition main_pattern_2 : str :=
  u "(\.strokeBorder\(\.secondary\.opacity\(0\.3\), lineWidth: 0\.5\)\s+\))".

Definition main_replacement_2 : str :=
  u "\1\n      .accessibilityLabel(" ++ dq
  ++ u "Current mode: \\(environment.settings.transcriptionMode.displayName)"
  ++ dq ++ u ")".

Definition helper : str :=
  nl
  ++ u "  " ++ nl
  ++ u "  private var accessibilityLabelForRecordButton: String {" ++ nl
  ++ u "    switch environment.main.state {" ++ nl
  ++ u "    case .idle, .completed(_), .failed(_):" ++ nl
  ++ u "      return " ++ dq ++ u "Start recording" ++ dq ++ nl
  ++ u "    case .recording:" ++ nl
  ++ u "      return " ++ dq ++ u "Stop recording" ++ dq ++ nl
  ++ u "    case .processing:" ++ nl
  ++ u "      return " ++ dq ++ u "Processing recording" ++ dq ++ nl
  ++ u "    case .delivering:" ++ nl
  ++ u "      return " ++ dq ++ u "Delivering transcription" ++ dq ++ nl
  ++ u "    }" ++ nl
  ++ u "  }" ++ nl
  ++ u "}" ++ nl
  ++ nl
  ++ u "// @Implement This is the main app container".

Definition main_pattern_3 : str :=
  u "\}\s*\n\s*// @Implement This is the main app container".

(** ** Files and standard output

    The file system maps the paths that can be opened for reading to the
    characters of the file; a path outside the map cannot be opened.
    Reading in text mode translates the line ends; writing creates or
    replaces the whole file with the text as it is.  [stdout] keeps the
    printed messages. *)

Record World : Type := { files : gmap string str; stdout : list str }.

(** A script step runs in a world and leaves a world behind, also when it
    raises: nothing is rolled back. *)
Definition Script (A : Type) : Type := World -> result A * World.

#[global] Instance script_ret : MRet Script := fun A a w => (Ok a, w).
#[global] Instance script_bind : MBind Script := fun A B k m w =>
  match m w with
  | (Ok a, w') => k a w'
  | (Raise e, w') => (Raise e, w')
  end.

(** Text mode, [open(path, 'r')]: every line end of the file, [\r\n],
    [\r] or [\n], is read as [\n]. *)
Fixpoint universal_newlines (s : str) : str :=
  match s with
  | [] => []
  | c :: s' =>
      if (c =? 13)%N then
        10%N :: match s' with
                | d :: s'' =>
                    if (d =? 10)%N then universal_newlines s''
                    else universal_newlines s'
                | [] => []
                end
      else c :: universal_newlines s'
  end.

(** [with open(path, 'r') as f: content = f.read()] *)
Definition open_read (path : string) : Script str := fun w =>
  match files w !! path with
  | Some raw => (Ok (universal_newlines raw), w)
  | None => (Raise (OSError path), w)
  end.

(** [with open(path, 'w') as f: f.write(content)] *)
Definition open_write (path : string) (content : str) : Script unit := fun w =>
  (Ok tt, {| files := <[path := content]> (files w); stdout := stdout w |}).

(** [print(message)] *)
Definition print (message : str) : Script unit := fun w =>
  (Ok tt, {| files := files w; stdout := stdout w ++ [message] |}).

(** A computation that returns or raises without touching the world. *)
Definition eval {A} (r : result A) : Script A := fun w => (r, w).

(** The lines of a text as it is in memory, its line ends being newlines:
    the text cut after each newline, newlines kept. *)
Fixpoint lines_of (s : str) : list str :=
  match s with
  | [] => []
  | c :: s' =>
      if (c =? 10)%N then [c] :: lines_of s'
      else match lines_of s' with
           | [] => [[c]]
           | l :: ls => (c :: l) :: ls
           end
  end.

(** [f.readlines()] for a file of characters [raw] opened in text mode:
    the lines of the text with its line ends translated. *)
Definition readlines (raw : str) : list str :=
  lines_of (universal_newlines raw).

(** [with open(path, 'r') as f: lines = f.readlines()] *)
Definition open_readlines (path : string) : Script (list str) := fun w =>
  match files w !! path with
  | Some raw => (Ok (readlines raw), w)
  | None => (Raise (OSError path), w)
  end.

(** [f.writelines(lines)] writes the lines one after the other. *)
Definition writelines (lines : list str) : str := concat lines.

Definition hud_path : string := "Sources/SpeakApp/HUDView.swift".
Definition main_path : string := "Sources/SpeakApp/MainView.swift".
Definition settings_path : string := "Sources/SpeakApp/SettingsView.swift".

Definition check_mark : str := [9989%N].

Definition patch_hud : Script unit :=
  content ← open_read hud_path;
  content ← eval (apply_pattern_rules replacements content);
  _ ← open_write hud_path content;
  print (check_mark ++ u " HUDView.swift updated").

Definition patch_main : Script unit :=
  content ← open_read main_path;
  content ← eval (re_sub main_pattern_1 main_replacement_1 content);
  content ← eval (re_sub main_pattern_2 main_replacement_2 content);
  content ← eval (re_sub main_pattern_3 helper content);
  _ ← open_write main_path content;
  print (check_mark ++ u " MainView.swift updated").

Definition patch_settings : Script unit :=
  lines ← open_readlines settings_path;
  _ ← open_write settings_path
        (writelines (apply_positional_rules lines inserts));
  print (check_mark ++ u " SettingsView.swift updated").

(** The whole script, top to bottom. *)
Definition run : Script unit :=
  _ ← patch_hud;
  _ ← patch_main;
  _ ← patch_settings;
  print (nl ++ check_mark ++ u " All files updated with accessibility labels!").

(** The three rules of MainView.swift as a list, for statements that range
    over a file's rules. *)
Definition main_rules : list (str * str) :=
  [ (main_pattern_1, main_replacement_1);
    (main_pattern_2, main_replacement_2);
    (main_pattern_3, helper) ].

(** ** The loops as relations

    The same loops, written as the steps an interpreter takes, so that
    "two runs agree" is a statement about runs and not about a function. *)

(** A run of the rule loop: the rules it applied, in the order it applied
    them, and how it ended. *)
Inductive rules_exec :
  list (str * str) -> str -> list (str * str) -> result str -> Prop :=
| exec_done content :
    rules_exec [] content [] (Ok content)
| exec_rule pattern replacement rules content content' trace out :
    re_sub pattern replacement content = Ok content' ->
    rules_exec rules content' trace out ->
    rules_exec ((pattern, replacement) :: rules) content
      ((pattern, replacement) :: trace) out
| exec_raise pattern replacement rules content e :
    re_sub pattern replacement content = Raise e ->
    rules_exec ((pattern, replacement) :: rules) content
      [(pattern, replacement)] (Raise e).

(** What [sorted(..., reverse=True)] promises whatever algorithm sorts: the
    same elements, none smaller than its successor. *)
Definition is_sorted_reverse (l l' : list (Z * str)) : Prop :=
  Permutation l l' /\ Sorted tuple_ge l'.

(** A run of the insert loop over an ordered list. *)
Inductive inserts_exec : list str -> list (Z * str) -> list str -> Prop :=
| ins_done lines :
    inserts_exec lines [] lines
| ins_apply lines line_no text todo out :
    line_no < len lines ->
    inserts_exec (list_insert line_no text lines) todo out ->
    inserts_exec lines ((line_no, text) :: todo) out
| ins_skip lines line_no text todo out :
    len lines <= line_no ->
    inserts_exec lines todo out ->
    inserts_exec lines ((line_no, text) :: todo) out.

Definition positional_exec (lines : list str) (ins : list (Z * str))
  (out : list str) : Prop :=
  exists order, is_sorted_reverse ins order /\ inserts_exec lines order out.

(** ** The specification's reading of a rule

    Every match found, left to right and without overlap, is cut out of
    the content and the expanded template put in its place. *)
Fixpoint splice (content : str) (tpl : list tpart) (pos : nat)
  (ms : list Match) : str :=
  match ms with
  | [] => drop pos content
  | m :: ms' =>
      take (m_start m - pos) (drop pos content)
      ++ expand content (m_marks m) tpl
      ++ splice content tpl (m_end m) ms'
  end.

(** Matches that follow one another without overlap, from [pos] on. *)
Fixpoint non_overlapping (pos : nat) (ms : list Match) : Prop :=
  match ms with
  | [] => True
  | m :: ms' =>
      (pos <= m_start m <= m_end m)%nat /\ non_overlapping (m_end m) ms'
  end.

(** The number of lines of a text in memory. *)
Definition line_count (s : str) : nat := length (lines_of s).

(** ** Auxiliary notions for the statements *)

(** One attempt to match at offset [q] of [content]. *)
Definition attempt (p : Pattern) (content : str) (ma : bool) (q : nat)
  : option Match :=
  match sre_match (code p) ma q q (drop q content)
          (replicate (2 * groups p) None) with
  | Some (e, marks) => Some {| m_start := q; m_end := e; m_marks := marks |}
  | None => None
  end.

(** [ms] are all the matches from [pos] on: each is the first match at or
    after the end of the one before, an empty match forcing the next
    attempt at the same offset to advance, and after the last one nothing
    matches any more. *)
Fixpoint all_matches (p : Pattern) (content : str) (ma : bool) (pos : nat)
  (ms : list Match) : Prop :=
  match ms with
  | [] =>
      forall q, (pos <= q <= length content)%nat ->
                attempt p content (ma && (q =? pos)%nat) q = None
  | m :: ms' =>
      (pos <= m_start m <= length content)%nat
      /\ attempt p content (ma && (m_start m =? pos)%nat) (m_start m) = Some m
      /\ (forall q, (pos <= q < m_start m)%nat ->
                    attempt p content (ma && (q =? pos)%nat) q = None)
      /\ all_matches p content (m_end m =? m_start m)%nat (m_end m) ms'
  end.

(** ** What a pattern of the fragment means

    The meaning of the patterns, stated without the matcher: which texts a
    pattern takes, which of several ways to take a text is the match, and
    which matches a global replacement replaces. *)

(** [takes code s js n]: the operations [code] take the first [n]
    characters of [s], the repeats taking [js] characters each, in the
    order of the pattern.  A group mark takes nothing. *)
Inductive takes : list op -> str -> list nat -> nat -> Prop :=
| takes_end (s : str) : takes [] s [] 0
| takes_at (a : atom) (k : list op) (c : N) (s : str) (js : list nat)
    (n : nat) :
    atom_matches a c = true -> takes k s js n ->
    takes (AT a :: k) (c :: s) js (S n)
| takes_mark (g : nat) (k : list op) (s : str) (js : list nat) (n : nat) :
    takes k s js n -> takes (MARK g :: k) s js n
| takes_repeat (min : nat) (a : atom) (k : list op) (s : str) (j : nat)
    (js : list nat) (n : nat) :
    (min <= j <= length s)%nat ->
    Forall (fun c => atom_matches a c = true) (take j s) ->
    takes k (drop j s) js n ->
    takes (MAX_REPEAT min a :: k) s (j :: js) (j + n).

(** Repeats are greedy: of two ways to take a text the one whose first
    differing repeat takes more is the preferred one. *)
Fixpoint greedy_le (js js' : list nat) : Prop :=
  match js, js' with
  | j :: js1, j' :: js1' => (j < j')%nat \/ (j = j' /\ greedy_le js1 js1')
  | _, _ => True
  end.

(** The offsets at which the groups open and close when [code] runs from
    offset [pos] with the repeats taking [js]. *)
Fixpoint set_marks (code : list op) (pos : nat) (js : list nat)
  (marks : marks_t) : marks_t :=
  match code with
  | [] => marks
  | AT _ :: k => set_marks k (S pos) js marks
  | MARK g :: k => set_marks k pos js (<[g := Some pos]> marks)
  | MAX_REPEAT _ _ :: k =>
      match js with
      | j :: js' => set_marks k (pos + j) js' marks
      | [] => marks
      end
  end.

(** [m] is the match of [p] at offset [q] of [content]: the pattern takes
    the text from [q] to the end of [m], in the preferred one of the ways
    it can take a text from [q] on, and the marks of [m] are the offsets
    of the groups on that way.  Where the search must advance ([ma]), ways
    that take nothing do not count. *)
Definition match_at (p : Pattern) (content : str) (ma : bool) (q : nat)
  (m : Match) : Prop :=
  m_start m = q /\ (q <= m_end m)%nat
  /\ exists js,
       takes (code p) (drop q content) js (m_end m - q)
       /\ (ma = true -> m_end m <> q)
       /\ (forall js' n',
              takes (code p) (drop q content) js' n' ->
              (ma = true -> n' <> 0%nat) -> greedy_le js' js)
       /\ m_marks m
          = set_marks (code p) q js (replicate (2 * groups p) None).

(** The pattern takes no text at offset [q], an empty one apart where the
    search must advance. *)
Definition no_match_at (p : Pattern) (content : str) (ma : bool) (q : nat)
  : Prop :=
  forall js n, takes (code p) (drop q content) js n -> ma = true /\ n = 0%nat.

(** The matches a global replacement replaces, from [pos] on: the match at
    the first offset that has one, then the matches from its end on, an
    empty match being followed by a search that must advance; when no
    offset has a match, none. *)
Inductive leftmost_matches (p : Pattern) (content : str)
  : bool -> nat -> list Match -> Prop :=
| leftmost_none (ma : bool) (pos : nat) :
    (forall q, (pos <= q <= length content)%nat ->
               no_match_at p content (ma && (q =? pos)%nat) q) ->
    leftmost_matches p content ma pos []
| leftmost_next (ma : bool) (pos : nat) (m : Match) (ms : list Match) :
    (pos <= m_start m <= length content)%nat ->
    match_at p content (ma && (m_start m =? pos)%nat) (m_start m) m ->
    (forall q, (pos <= q < m_start m)%nat ->
               no_match_at p content (ma && (q =? pos)%nat) q) ->
    leftmost_matches p content (m_end m =? m_start m)%nat (m_end m) ms ->
    leftmost_matches p content ma pos (m :: ms).

(** A rule [re.sub] accepts: the pattern compiles and the template is well
    formed for it. *)
Definition rule_compiles (pattern repl : str) : Prop :=
  exists c tpl, re_compile pattern = Ok c /\ re_template c repl = Ok tpl.

(** A rule of the fragment that compiles. *)
Definition rule_compilesb (rule : str * str) : bool :=
  match compile rule.1 with
  | Parsed p => match parse_template rule.2 (groups p) with
                | Parsed _ => true
                | _ => false
                end
  | _ => false
  end.

(** How many rules of the list matched the content they were applied to
    (ghost: the script does not count). *)
Fixpoint rules_matched (rules : list (str * str)) (content : str)
  : result nat :=
  match rules with
  | [] => Ok 0%nat
  | (pattern, replacement) :: rules' =>
      m ← re_search pattern content;
      content' ← re_sub pattern replacement content;
      n ← rules_matched rules' content';
      Ok ((if m is Some _ then 1 else 0) + n)%nat
  end.

(** Five-line stubs of HUDView.swift, each with the marker of one rule. *)
Definition headline_stub : str :=
  u "VStack {" ++ nl
  ++ u "        Text(manager.snapshot.headline)" ++ nl
  ++ u "          .font(.headline)" ++ nl
  ++ u "          .foregroundStyle(headlineColor)" ++ nl
  ++ u "}" ++ nl.

Definition headline_patched : str :=
  u "VStack {" ++ nl
  ++ u "        Text(manager.snapshot.headline)" ++ nl
  ++ u "          .font(.headline)" ++ nl
  ++ u "          .foregroundStyle(headlineColor)" ++ nl
  ++ u "          .accessibilityLabel(" ++ dq
  ++ u "Status: \(manager.snapshot.headline)" ++ dq ++ u ")" ++ nl
  ++ u "}" ++ nl.

Definition meter_stub : str :=
  u "VStack {" ++ nl
  ++ u "        AudioLevelMeterView(level: manager.audioLevel, width: 100, height: 4)" ++ nl
  ++ u "          .padding(.top, 2)" ++ nl
  ++ u "        Spacer()" ++ nl
  ++ u "}" ++ nl.

Definition meter_patched : str :=
  u "VStack {" ++ nl
  ++ u "        AudioLevelMeterView(level: manager.audioLevel, width: 100, height: 4)" ++ nl
  ++ u "          .padding(.top, 2)" ++ nl
  ++ u "          .accessibilityLabel(" ++ dq ++ u "Audio level meter" ++ dq ++ u ")" ++ nl
  ++ u "          .accessibilityValue(" ++ dq
  ++ u "\(Int(manager.audioLevel * 100)) percent" ++ dq ++ u ")" ++ nl
  ++ u "        Spacer()" ++ nl
  ++ u "}" ++ nl.

Definition retry_stub : str :=
  u "Button(action: retry) {" ++ nl
  ++ u "          Label(title, systemImage: icon)" ++ nl
  ++ u "            .font(.caption)" ++ nl
  ++ u "            .padding(.top, 4)" ++ nl
  ++ u "        }" ++ nl.

Definition retry_patched : str :=
  u "Button(action: retry) {" ++ nl
  ++ u "          Label(title, systemImage: icon)" ++ nl
  ++ u "            .font(.caption)" ++ nl
  ++ u "            .padding(.top, 4)" ++ nl
  ++ u "            .accessibilityHint(" ++ dq
  ++ u "Press Command-R to retry the operation" ++ dq ++ u ")" ++ nl
  ++ u "        }" ++ nl.

(** ** Examples of the specification *)

(** Ten lines and the three inserts of the specification's example. *)
Definition ten_lines : list str :=
  [u "L0" ++ nl; u "L1" ++ nl; u "L2" ++ nl; u "L3" ++ nl; u "L4" ++ nl;
   u "L5" ++ nl; u "L6" ++ nl; u "L7" ++ nl; u "L8" ++ nl; u "L9" ++ nl].

Definition example_inserts : list (Z * str) :=
  [(7, u "T7" ++ nl); (3, u "T3" ++ nl); (0, u "T0" ++ nl)].

(** The number of newline characters of a text. *)
Definition count_nl (s : str) : nat := length (filter (fun c => c = 10%N) s).

(** The newlines a template writes itself, and the groups it refers to, in
    order. *)
Fixpoint template_newlines (tpl : list tpart) : nat :=
  match tpl with
  | [] => 0
  | TLiteral c :: tpl' =>
      ((if (c =? 10)%N then 1 else 0) + template_newlines tpl')%nat
  | TGroup _ :: tpl' => template_newlines tpl'
  end.

Fixpoint template_groups (tpl : list tpart) : list nat :=
  match tpl with
  | [] => []
  | TLiteral _ :: tpl' => template_groups tpl'
  | TGroup g :: tpl' => g :: template_groups tpl'
  end.

(** A pattern made of groups that follow one another, [(..)(..)..], numbered
    from [g + 1], with nothing outside a group and no group inside
    another; [inside] says whether a group is open. *)
Fixpoint tiled (code : list op) (g : nat) (inside : bool) : bool :=
  match code with
  | [] => negb inside
  | MARK n :: k =>
      if inside then (n =? 2 * g + 1)%nat && tiled k (S g) false
      else (n =? 2 * g)%nat && tiled k g true
  | _ :: k => inside && tiled k g inside
  end.

(** The groups that close in [code]. *)
Fixpoint count_closes (code : list op) : nat :=
  match code with
  | [] => 0
  | MARK n :: k => ((if Nat.odd n then 1 else 0) + count_closes k)%nat
  | _ :: k => count_closes k
  end.

(** A rule that only inserts: its groups tile the whole match and its
    template writes every group back, in order, between its own text. *)
Definition inserts_only (p : Pattern) (tpl : list tpart) : bool :=
  tiled (code p) 0 false
  && bool_decide (count_closes (code p) = groups p)
  && bool_decide (template_groups tpl = seq 1 (groups p)).

Definition rule_inserts_only (rule : str * str) : bool :=
  match compile rule.1 with
  | Parsed p => match parse_template rule.2 (groups p) with
                | Parsed tpl => inserts_only p tpl
                | _ => false
                end
  | _ => false
  end.

(** The newlines the rules of a list insert into a content: for each rule,
    in turn, one template's worth per match (ghost: the script does not
    count). *)
Fixpoint inserted_newlines (rules : list (str * str)) (content : str)
  : result nat :=
  match rules with
  | [] => Ok 0%nat
  | (pattern, replacement) :: rules' =>
      c ← re_compile pattern;
      tpl ← re_template c replacement;
      content' ← re_sub pattern replacement content;
      n ← inserted_newlines rules' content';
      Ok (length (compiled_finditer c content) * template_newlines tpl + n)%nat
  end.

(** Whether the last consuming operation of [code] is a literal other than
    a newline: such a pattern cannot match up to the end of a text that
    ends in a newline. *)
Fixpoint ends_in_visible (code : list op) : bool :=
  match code with
  | [] => false
  | AT (LITERAL c) :: k =>
      ends_in_visible k
      || (negb (c =? 10)%N
          && forallb (fun o => if o is MARK _ then true else false) k)
  | _ :: k => ends_in_visible k
  end.

Definition rule_ends_in_visible (rule : str * str) : bool :=
  match compile rule.1 with
  | Parsed p => ends_in_visible (code p)
  | _ => false
  end.

(** A world with HUDView.swift only. *)
Definition hud_only_world : World :=
  {| files := {[ hud_path := headline_stub ]}; stdout := [] |}.

(** The confirmations the script prints, in order. *)
Definition confirmations : list str :=
  [ check_mark ++ u " HUDView.swift updated";
    check_mark ++ u " MainView.swift updated";
    check_mark ++ u " SettingsView.swift updated";
    nl ++ check_mark ++ u " All files updated with accessibility labels!" ].

(** The three files the script opens. *)
Definition script_paths : list string := [hud_path; main_path; settings_path].

(** A world with the three files. *)
Definition full_world : World :=
  {| files := {[ hud_path := headline_stub;
                 main_path := u "struct MainView {" ++ nl ++ u "}" ++ nl;
                 settings_path := writelines ten_lines ]};
     stdout := [] |}.

(** A world whose SettingsView.swift has ten lines only. *)
Definition short_settings_world : World :=
  {| files := {[ settings_path := writelines ten_lines ]}; stdout := [] |}.

(** ** What the positional rules amount to *)

(** The texts of the inserts with index [k], in the order of the list. *)
Definition texts_at (k : nat) (ins : list (Z * str)) : list str :=
  (filter (fun it => it.1 = Z.of_nat k) ins).*2.

(** Every line of a file, numbered from [k], with the texts for its number
    in front of it. *)
Fixpoint interleave (k : nat) (lines : list str) (ins : list (Z * str))
  : list str :=
  match lines with
  | [] => []
  | l :: ls => texts_at k ins ++ l :: interleave (S k) ls ins
  end.

(** The line a label of SettingsView.swift is written as. *)
Definition label_line (name : string) : str :=
  u "          .accessibilityLabel(" ++ dq ++ u name ++ dq ++ u ")" ++ nl.

(** ** Lines as [readlines] returns them *)

(** [Some true] for a text that ends in its only newline, [Some false] for
    a text that is not empty and has no newline, [None] otherwise; a text
    with a carriage return is no line that is read: it is [None] too. *)
Fixpoint line_shape (l : str) : option bool :=
  match l with
  | [] => None
  | c :: l' =>
      if (c =? 13)%N then None
      else if (c =? 10)%N then
        match l' with [] => Some true | _ :: _ => None end
      else match l' with [] => Some false | _ :: _ => line_shape l' end
  end.

(** Lines of which each ends in its only newline, except that the last
    one may lack it. *)
Fixpoint lines_wf (ls : list str) : bool :=
  match ls with
  | [] => true
  | l :: ls' =>
      match line_shape l with
      | Some true => lines_wf ls'
      | Some false => match ls' with [] => true | _ :: _ => false end
      | None => false
      end
  end.

(** SettingsView.swift with 700 lines. *)
Definition long_settings : list str :=
  replicate 700 (u "    // line" ++ nl).

Definition long_settings_world : World :=
  {| files := {[ settings_path := writelines long_settings ]}; stdout := [] |}.

(** ** Rules that fire again on their own output *)

(** No character is accepted by both items. *)
Definition atoms_disjoint (a b : atom) : bool :=
  match a, b with
  | LITERAL x, LITERAL y => negb (x =? y)%N
  | CATEGORY_SPACE, LITERAL y => negb (is_space y)
  | LITERAL x, CATEGORY_SPACE => negb (is_space x)
  | CATEGORY_SPACE, CATEGORY_SPACE => false
  end.

(** The item with which [code] takes its first character, when that is a
    single item. *)
Fixpoint next_atom (code : list op) : option atom :=
  match code with
  | MARK _ :: k => next_atom k
  | AT a :: _ => Some a
  | _ => None
  end.

(** Every repeat is followed by a single item that accepts none of the
    repeated characters: the repeat then takes its whole run and never
    gives a character back. *)
Fixpoint repeats_delimited (code : list op) : bool :=
  match code with
  | [] => true
  | MAX_REPEAT _ a :: k =>
      match next_atom k with
      | Some b => atoms_disjoint a b
      | None => false
      end && repeats_delimited k
  | _ :: k => repeats_delimited k
  end.

(** A rule that puts text around its match: one group, which is the whole
    pattern, written back once by the template together with at least one
    new line, and a pattern with delimited repeats. *)
Definition reinserts (p : Pattern) (tpl : list tpart) : bool :=
  inserts_only p tpl && (groups p =? 1)%nat && repeats_delimited (code p)
  && (0 <? template_newlines tpl)%nat.

Definition rule_reinserts (rule : str * str) : bool :=
  match compile rule.1 with
  | Parsed p => match parse_template rule.2 (groups p) with
                | Parsed tpl => reinserts p tpl
                | _ => false
                end
  | _ => false
  end.

(** The end of the helper: the brace and the marker comment the third rule
    of MainView.swift looks for. *)
Definition helper_tail : str :=
  u "}" ++ nl ++ nl ++ u "// @Implement This is the main app container".

(** A MainView.swift with the marker comment after the closing brace. *)
Definition main_stub : str :=
  u "struct MainView: View {" ++ nl
  ++ u "}" ++ nl
  ++ u "// @Implement This is the main app container" ++ nl.

(** The stub after the third rule of MainView.swift. *)
Definition main_stub_out : str :=
  u "struct MainView: View {" ++ nl ++ helper ++ nl.

(** ** Where a label rule puts its text *)

(** [content] from offset [pos] on, with [text] put in at each of the
    rising [offsets]. *)
Fixpoint insert_at (content text : str) (pos : nat) (offsets : list nat)
  : str :=
  match offsets with
  | [] => drop pos content
  | o :: os =>
      take (o - pos) (drop pos content) ++ text ++ insert_at content text o os
  end.

(** The text of a template without group references. *)
Fixpoint literal_text (tpl : list tpart) : option str :=
  match tpl with
  | [] => Some []
  | TLiteral c :: tpl' => cons c <$> literal_text tpl'
  | TGroup _ :: _ => None
  end.

(** The text a rule of the form [(pattern)], [\1text] puts after its
    match. *)
Definition rule_appends (rule : str * str) : option str :=
  match compile rule.1 with
  | Parsed p =>
      match parse_template rule.2 (groups p) with
      | Parsed (TGroup 1 :: tpl') =>
          if inserts_only p (TGroup 1 :: tpl') && (groups p =? 1)%nat
          then literal_text tpl'
          else None
      | _ => None
      end
  | _ => None
  end.

(** The offsets at which the matches of a pattern end:
    [[m.end() for m in re.finditer(pattern, content)]]. *)
Definition match_ends (pattern content : str) : list nat :=
  match re_compile pattern with
  | Ok c => m_end <$> compiled_finditer c content
  | Raise _ => []
  end.

(** A world with the three files, each ending in a newline. *)
Definition stub_world : World :=
  {| files := {[ hud_path := headline_stub;
                 main_path := main_stub;
                 settings_path := writelines ten_lines ]};
     stdout := [] |}.

End re_defs.

(** * Lists and [list.insert] *)

Section with_re.
Context {re_rest : Re}.

Lemma len_nonneg {A} (l : list A) : 0 <= len l.
Proof. unfold len. lia. Qed.

(** [list.insert] always splits the list at some offset within it. *)
Lemma list_insert_split {A} (i : Z) (x : A) (l : list A) :
  exists k : nat, (k <= length l)%nat
    /\ list_insert i x l = take k l ++ x :: drop k l.
Proof.
  unfold list_insert, len. cbv zeta.
  eexists. split; [| reflexivity].
  repeat match goal with |- context [if ?b then _ else _] => destruct b eqn:? end; lia.
Qed.

(** At an offset inside the list the split is at that offset. *)
Lemma list_insert_in_range {A} (i : Z) (x : A) (l : list A) :
  0 <= i <= len l ->
  list_insert i x l = take (Z.to_nat i) l ++ x :: drop (Z.to_nat i) l.
Proof.
  intros Hi. unfold list_insert.
  destruct (i <? 0) eqn:E1; [lia |].
  rewrite E1.
  destruct (len l <? i) eqn:E2; [lia | reflexivity].
Qed.

Lemma list_insert_length {A} (i : Z) (x : A) (l : list A) :
  length (list_insert i x l) = S (length l).
Proof.
  destruct (list_insert_split i x l) as (k & Hk & ->).
  rewrite length_app, length_take. simpl. rewrite length_drop. lia.
Qed.

Lemma list_insert_sublist {A} (i : Z) (x : A) (l : list A) :
  l `sublist_of` list_insert i x l.
Proof.
  destruct (list_insert_split i x l) as (k & Hk & ->).
  rewrite <- (take_drop k l) at 1.
  apply sublist_app; [reflexivity |]. by apply sublist_cons.
Qed.

Lemma drop_cons_inv {A} (n : nat) (l l' : list A) (x : A) :
  drop n l = x :: l' -> l' = drop (S n) l.
Proof.
  intros H. replace (S n) with (n + 1)%nat by lia.
  rewrite <- drop_drop, H. reflexivity.
Qed.

Lemma last_drop_lt {A} (pos : nat) (l : list A) :
  (pos < length l)%nat -> last (drop pos l) = last l.
Proof.
  intros H. rewrite <- (take_drop pos l) at 2. rewrite last_app.
  destruct (last (drop pos l)) eqn:E; [reflexivity |].
  apply last_None in E. apply (f_equal length) in E.
  rewrite length_drop in E. simpl in E. lia.
Qed.

(** The text between two offsets. *)
Lemma slice_app (content : str) (a b c : nat) :
  (a <= b <= c)%nat ->
  take (c - a) (drop a content)
  = take (b - a) (drop a content) ++ take (c - b) (drop b content).
Proof.
  intros H.
  replace (c - a)%nat with ((b - a) + (c - b))%nat by lia.
  rewrite <- take_take_drop, drop_drop.
  now replace (a + (b - a))%nat with b by lia.
Qed.

(** * The order on tuples *)

Lemma str_compare_antisym (s t : str) :
  str_compare t s = CompOpp (str_compare s t).
Proof.
  revert t. induction s as [| a s IH]; intros [| b t]; simpl; try reflexivity.
  rewrite (N.compare_antisym a b).
  destruct (a ?= b)%N; simpl; auto.
Qed.

Lemma str_compare_eq (s t : str) : str_compare s t = Eq -> s = t.
Proof.
  revert t. induction s as [| a s IH]; intros [| b t]; simpl; try discriminate; auto.
  destruct (a ?= b)%N eqn:E; try discriminate.
  apply N.compare_eq in E. intros H. f_equal; auto.
Qed.

Lemma str_compare_refl (s : str) : str_compare s s = Eq.
Proof. induction s as [| a s IH]; simpl; [| rewrite N.compare_refl]; auto. Qed.

Lemma str_compare_lt_trans (a b c : str) :
  str_compare a b = Lt -> str_compare b c = Lt -> str_compare a c = Lt.
Proof.
  revert b c. induction a as [| x a IH]; intros [| y b] [| z c]; simpl;
    try discriminate; auto.
  destruct (N.compare_spec x y) as [-> | Hxy | Hxy]; try discriminate;
    destruct (N.compare_spec y z) as [-> | Hyz | Hyz]; try discriminate.
  - apply IH.
  - reflexivity.
  - intros _ _. apply N.compare_lt_iff in Hxy. now rewrite Hxy.
  - intros _ _. assert (H : (x < z)%N) by lia.
    apply N.compare_lt_iff in H. now rewrite H.
Qed.

Lemma tuple_compare_antisym (a b : Z * str) :
  tuple_compare b a = CompOpp (tuple_compare a b).
Proof.
  unfold tuple_compare. rewrite (Z.compare_antisym a.1 b.1).
  destruct (a.1 ?= b.1); simpl; auto using str_compare_antisym.
Qed.

Lemma tuple_compare_eq (a b : Z * str) : tuple_compare a b = Eq -> a = b.
Proof.
  destruct a as [i s], b as [j t]. unfold tuple_compare. simpl.
  destruct (i ?= j) eqn:E; try discriminate.
  apply Z.compare_eq in E. intros H%str_compare_eq. congruence.
Qed.

Lemma tuple_compare_refl (a : Z * str) : tuple_compare a a = Eq.
Proof.
  unfold tuple_compare. now rewrite Z.compare_refl, str_compare_refl.
Qed.

Lemma tuple_compare_lt_trans (a b c : Z * str) :
  tuple_compare a b = Lt -> tuple_compare b c = Lt -> tuple_compare a c = Lt.
Proof.
  destruct a as [i s], b as [j t], c as [k v]. unfold tuple_compare. simpl.
  destruct (Z.compare_spec i j) as [-> | Hij | Hij]; try discriminate;
    destruct (Z.compare_spec j k) as [-> | Hjk | Hjk]; try discriminate.
  - apply str_compare_lt_trans.
  - reflexivity.
  - intros _ _. apply Z.compare_lt_iff in Hij. now rewrite Hij.
  - intros _ _. assert (H : i < k) by lia.
    apply Z.compare_lt_iff in H. now rewrite H.
Qed.

(** A tuple that is not smaller has an index that is not smaller. *)
Lemma tuple_ge_index (a b : Z * str) : tuple_ge a b -> b.1 <= a.1.
Proof.
  unfold tuple_ge, tuple_compare. destruct (a.1 ?= b.1) eqn:E.
  - apply Z.compare_eq in E. lia.
  - congruence.
  - apply Z.compare_gt_iff in E. lia.
Qed.

#[local] Instance tuple_ge_trans : Transitive tuple_ge.
Proof.
  intros a b c Hab Hbc. unfold tuple_ge in *.
  rewrite tuple_compare_antisym in Hab, Hbc |- *.
  destruct (tuple_compare b a) eqn:E1; simpl in Hab; try congruence;
    destruct (tuple_compare c b) eqn:E2; simpl in Hbc; try congruence.
  - apply tuple_compare_eq in E1, E2. subst. now rewrite tuple_compare_refl.
  - apply tuple_compare_eq in E1. subst. now rewrite E2.
  - apply tuple_compare_eq in E2. subst. now rewrite E1.
  - now rewrite (tuple_compare_lt_trans c b a E2 E1).
Qed.

#[local] Instance tuple_ge_antisym : AntiSymm (=) tuple_ge.
Proof.
  intros a b Hab Hba. unfold tuple_ge in *.
  rewrite tuple_compare_antisym in Hba.
  destruct (tuple_compare a b) eqn:E; simpl in *; try congruence.
  now apply tuple_compare_eq.
Qed.

(** * [sorted(..., reverse=True)] sorts *)

Lemma insert_desc_perm (x : Z * str) (l : list (Z * str)) :
  Permutation (x :: l) (insert_desc x l).
Proof.
  induction l as [| y l IH]; simpl; [reflexivity |].
  destruct (tuple_ltb x y); [| reflexivity].
  rewrite perm_swap. now apply perm_skip.
Qed.

Lemma sorted_reverse_perm (l : list (Z * str)) :
  Permutation l (sorted_reverse l).
Proof.
  induction l as [| x l IH]; simpl; [reflexivity |].
  rewrite <- insert_desc_perm. now apply perm_skip.
Qed.

Lemma insert_desc_sorted (x : Z * str) (l : list (Z * str)) :
  Sorted tuple_ge l -> Sorted tuple_ge (insert_desc x l).
Proof.
  induction 1 as [| y l Hl IH Hhd]; simpl.
  - repeat constructor.
  - unfold tuple_ltb. destruct (tuple_compare x y) eqn:E.
    + constructor; [now constructor |]. constructor. unfold tuple_ge. congruence.
    + constructor; [exact IH |].
      assert (Hyx : tuple_ge y x).
      { unfold tuple_ge. rewrite tuple_compare_antisym, E. discriminate. }
      destruct Hhd as [| z l' Hyz]; simpl.
      * now constructor.
      * destruct (tuple_ltb x z); now constructor.
    + constructor; [now constructor |]. constructor. unfold tuple_ge. congruence.
Qed.

Lemma sorted_reverse_sorted (l : list (Z * str)) :
  Sorted tuple_ge (sorted_reverse l).
Proof.
  induction l as [| x l IH]; simpl; [constructor |].
  now apply insert_desc_sorted.
Qed.

Lemma sorted_reverse_is_sorted_reverse (l : list (Z * str)) :
  is_sorted_reverse l (sorted_reverse l).
Proof. split; [apply sorted_reverse_perm | apply sorted_reverse_sorted]. Qed.

(** Any two descending arrangements of the same tuples are the same list. *)
Lemma is_sorted_reverse_unique (l l1 l2 : list (Z * str)) :
  is_sorted_reverse l l1 -> is_sorted_reverse l l2 -> l1 = l2.
Proof.
  intros [P1 S1] [P2 S2].
  apply (Sorted_unique tuple_ge); auto.
  now rewrite <- P1, <- P2.
Qed.

(** In a descending list every later index is at most an earlier one. *)
Lemma sorted_indices (x : Z * str) (l : list (Z * str)) :
  Sorted tuple_ge (x :: l) -> Forall (fun y => y.1 <= x.1) l.
Proof.
  intros H%Sorted_StronglySorted; [| apply _].
  apply StronglySorted_inv in H as [_ H].
  eapply Forall_impl; [exact H |]. intros y. apply tuple_ge_index.
Qed.

(** * The insert loop *)

Lemma insert_step_skip (lines : list str) (line_no : Z) (text : str) :
  len lines <= line_no -> insert_step lines (line_no, text) = lines.
Proof.
  intros H. unfold insert_step.
  destruct (line_no <? len lines) eqn:E; [lia | reflexivity].
Qed.

Lemma insert_step_apply (lines : list str) (line_no : Z) (text : str) :
  line_no < len lines ->
  insert_step lines (line_no, text) = list_insert line_no text lines.
Proof.
  intros H. unfold insert_step.
  destruct (line_no <? len lines) eqn:E; [reflexivity | lia].
Qed.

Lemma insert_step_len (lines : list str) (it : Z * str) :
  len (insert_step lines it)
  = if it.1 <? len lines then len lines + 1 else len lines.
Proof.
  destruct it as [i t]. unfold insert_step. simpl.
  destruct (i <? len lines); [| reflexivity].
  unfold len. rewrite list_insert_length. lia.
Qed.

Lemma insert_step_sublist (lines : list str) (it : Z * str) :
  lines `sublist_of` insert_step lines it.
Proof.
  destruct it as [i t]. unfold insert_step.
  destruct (i <? len lines); [apply list_insert_sublist | reflexivity].
Qed.

Lemma insert_loop_sublist (todo : list (Z * str)) (lines : list str) :
  lines `sublist_of` insert_loop lines todo.
Proof.
  revert lines. induction todo as [| it todo IH]; intros lines; simpl.
  - reflexivity.
  - etransitivity; [apply insert_step_sublist | apply IH].
Qed.

(** The ghost log counts exactly the lines the loop adds. *)
Lemma insert_loop_length (todo : list (Z * str)) (lines : list str) :
  length (insert_loop lines todo)
  = (length lines + length (applied_loop lines todo))%nat.
Proof.
  revert lines. induction todo as [| it todo IH]; intros lines; simpl.
  - lia.
  - rewrite IH. pose proof (insert_step_len lines it) as H.
    destruct (it.1 <? len lines); unfold len in H; simpl; lia.
Qed.

(** The output is what inserting the logged inserts, unguarded, gives. *)
Lemma insert_loop_applied (todo : list (Z * str)) (lines : list str) :
  insert_loop lines todo
  = foldl (fun l it => list_insert it.1 it.2 l) lines (applied_loop lines todo).
Proof.
  revert lines. induction todo as [| [i t] todo IH]; intros lines; simpl.
  - reflexivity.
  - rewrite IH. unfold insert_step.
    destruct (i <? len lines); reflexivity.
Qed.

(** Once the list has grown, the inserts still to come lie below the
    original length [n]; so the guard against the current length decides
    as a comparison with [n] would. *)
Lemma applied_loop_filter (n : Z) (todo : list (Z * str)) (lines : list str) :
  n <= len lines ->
  (n < len lines -> Forall (fun it => it.1 < n) todo) ->
  Sorted tuple_ge todo ->
  applied_loop lines todo = filter (fun it => it.1 < n) todo.
Proof.
  revert lines. induction todo as [| it todo IH]; intros lines Hn Hgrown Hs.
  - reflexivity.
  - pose proof (sorted_indices _ _ Hs) as Hle.
    apply Sorted_inv in Hs as [Hs _].
    simpl. rewrite filter_cons.
    pose proof (insert_step_len lines it) as Hlen.
    destruct (it.1 <? len lines) eqn:E.
    + assert (Hit : it.1 < n).
      { destruct (decide (n < len lines)) as [Hlt | Hge].
        - specialize (Hgrown Hlt). now inversion Hgrown.
        - lia. }
      rewrite decide_True by exact Hit. f_equal.
      apply IH; [lia | | exact Hs].
      intros _. eapply Forall_impl; [exact Hle |]. simpl. intros y Hy. lia.
    + rewrite decide_False by lia.
      apply IH; [lia | | exact Hs].
      intros Hlt. rewrite Hlen in Hlt. specialize (Hgrown Hlt).
      now inversion Hgrown.
Qed.

(** The applied inserts are those below the original length. *)
Lemma applied_inserts_filter (lines : list str) (ins : list (Z * str)) :
  applied_inserts lines ins
  = filter (fun it => it.1 < len lines) (sorted_reverse ins).
Proof.
  apply applied_loop_filter; [lia | lia | apply sorted_reverse_sorted].
Qed.

(** * The lines and the texts in front of them *)

Lemma texts_at_app (k : nat) (a b : list (Z * str)) :
  texts_at k (a ++ b) = texts_at k a ++ texts_at k b.
Proof. unfold texts_at. now rewrite filter_app, fmap_app. Qed.

Lemma texts_at_other (k : nat) (i : Z) (t : str) :
  i <> Z.of_nat k -> texts_at k [(i, t)] = [].
Proof.
  intros H. unfold texts_at. rewrite filter_cons, decide_False by exact H.
  reflexivity.
Qed.

Lemma texts_at_same (k : nat) (t : str) : texts_at k [(Z.of_nat k, t)] = [t].
Proof.
  unfold texts_at. rewrite filter_cons, decide_True by reflexivity.
  reflexivity.
Qed.

Lemma texts_at_none (k : nat) (ins : list (Z * str)) :
  Forall (fun it => it.1 <> Z.of_nat k) ins -> texts_at k ins = [].
Proof.
  induction 1 as [| [i t] ins Hi _ IH]; [reflexivity |].
  change ((i, t) :: ins) with ([(i, t)] ++ ins).
  rewrite texts_at_app, IH, texts_at_other by exact Hi.
  reflexivity.
Qed.

Lemma texts_at_below (k : nat) (ins : list (Z * str)) :
  Forall (fun it => it.1 < Z.of_nat k) ins -> texts_at k ins = [].
Proof.
  intros H. apply texts_at_none.
  eapply Forall_impl; [exact H |]. simpl. intros. lia.
Qed.

Lemma interleave_app (k : nat) (a b : list str) (ins : list (Z * str)) :
  interleave k (a ++ b) ins
  = interleave k a ins ++ interleave (k + length a) b ins.
Proof.
  revert k. induction a as [| l a IH]; intros k; cbn [interleave app length].
  - now rewrite Nat.add_0_r.
  - rewrite IH, <- app_assoc. cbn [app].
    now replace (S k + length a)%nat with (k + S (length a))%nat by lia.
Qed.

(** Inserts for earlier lines leave the later lines alone. *)
Lemma interleave_below (k : nat) (lines : list str) (ins : list (Z * str)) :
  Forall (fun it => it.1 < Z.of_nat k) ins -> interleave k lines ins = lines.
Proof.
  revert k. induction lines as [| l ls IH]; intros k H; cbn [interleave].
  - reflexivity.
  - rewrite texts_at_below by exact H. cbn [app]. f_equal.
    apply IH. eapply Forall_impl; [exact H |]. simpl. intros. lia.
Qed.

(** An insert whose index is not the number of one of the lines is not
    seen. *)
Lemma interleave_outside (k : nat) (lines : list str) (ins : list (Z * str))
  (i : Z) (t : str) :
  i < Z.of_nat k \/ Z.of_nat (k + length lines) <= i ->
  interleave k lines (ins ++ [(i, t)]) = interleave k lines ins.
Proof.
  revert k. induction lines as [| l ls IH]; intros k H; cbn [interleave].
  - reflexivity.
  - cbn [length] in H.
    rewrite texts_at_app, texts_at_other, app_nil_r by lia.
    f_equal. f_equal. apply IH. lia.
Qed.

Lemma insert_loop_interleave (todo : list (Z * str)) :
  Sorted tuple_ge todo -> Forall (fun it => 0 <= it.1) todo ->
  forall lines, insert_loop lines todo = interleave 0 lines (reverse todo).
Proof.
  induction todo as [| [i t] todo IH]; intros Hs Hall lines;
    cbn [insert_loop].
  - symmetry. apply interleave_below. constructor.
  - pose proof (sorted_indices _ _ Hs) as Hle. simpl in Hle.
    apply Sorted_inv in Hs as [Hs _].
    apply Forall_cons in Hall as [Hi Hall]. simpl in Hi.
    rewrite (IH Hs Hall), reverse_cons.
    destruct (Z.lt_ge_cases i (len lines)) as [Hin | Hout].
    + rewrite insert_step_apply by exact Hin.
      rewrite list_insert_in_range by lia.
      unfold len in Hin.
      assert (Hk : Z.of_nat (Z.to_nat i) = i) by lia.
      set (k := Z.to_nat i) in *.
      assert (Hlen : length (take k lines) = k)
        by (rewrite length_take; lia).
      assert (Hrev : Forall (fun it => it.1 < Z.of_nat (S k)) (reverse todo)).
      { rewrite Forall_forall in Hle |- *. intros y Hy.
        rewrite elem_of_reverse in Hy. specialize (Hle y Hy). lia. }
      assert (Hsplit : interleave 0 lines (reverse todo ++ [(i, t)])
                       = interleave 0 (take k lines) (reverse todo ++ [(i, t)])
                         ++ interleave k (drop k lines)
                              (reverse todo ++ [(i, t)])).
      { rewrite <- (take_drop k lines) at 1.
        now rewrite interleave_app, Hlen. }
      rewrite Hsplit, interleave_app, Hlen. cbn [Nat.add].
      rewrite (interleave_outside 0 (take k lines)) by (rewrite Hlen; lia).
      f_equal.
      destruct (drop k lines) as [| l ls] eqn:Hd.
      { apply (f_equal length) in Hd. rewrite length_drop in Hd.
        simpl in Hd. lia. }
      change (interleave k (t :: l :: ls) (reverse todo))
        with (texts_at k (reverse todo)
              ++ t :: interleave (S k) (l :: ls) (reverse todo)).
      change (interleave k (l :: ls) (reverse todo ++ [(i, t)]))
        with (texts_at k (reverse todo ++ [(i, t)])
              ++ l :: interleave (S k) ls (reverse todo ++ [(i, t)])).
      rewrite (interleave_below (S k) (l :: ls)) by exact Hrev.
      rewrite (interleave_below (S k) ls); first last.
      { apply Forall_app. split; [exact Hrev |].
        repeat constructor. simpl. lia. }
      rewrite texts_at_app, <- Hk, texts_at_same, <- app_assoc.
      reflexivity.
    + rewrite insert_step_skip by exact Hout.
      symmetry. apply interleave_outside. unfold len in Hout. lia.
Qed.

Lemma interleave_sublist (k : nat) (lines : list str) (ins : list (Z * str)) :
  lines `sublist_of` interleave k lines ins.
Proof.
  revert k. induction lines as [| l ls IH]; intros k; cbn [interleave].
  - reflexivity.
  - apply sublist_inserts_l, sublist_skip, IH.
Qed.

(** The one insert with a given index stays the one with it when the list
    is put in order. *)
Lemma texts_at_only (k : nat) (t : str) (ins ins' : list (Z * str)) :
  ins ≡ₚ ins' ->
  filter (fun it => it.1 = Z.of_nat k) ins = [(Z.of_nat k, t)] ->
  texts_at k ins' = [t].
Proof.
  intros Hp Hf. unfold texts_at.
  assert (H : filter (fun it => it.1 = Z.of_nat k) ins' = [(Z.of_nat k, t)]).
  { apply Permutation_singleton_r. rewrite <- Hf.
    apply filter_Permutation. now symmetry. }
  now rewrite H.
Qed.

Lemma list_insert_perm {A} (i : Z) (x : A) (l : list A) :
  list_insert i x l ≡ₚ x :: l.
Proof.
  destruct (list_insert_split i x l) as (k & _ & ->).
  rewrite <- Permutation_middle. now rewrite take_drop.
Qed.

(** The loop adds the texts of the logged inserts, and nothing else. *)
Lemma insert_loop_perm (todo : list (Z * str)) (lines : list str) :
  insert_loop lines todo ≡ₚ lines ++ (applied_loop lines todo).*2.
Proof.
  revert lines. induction todo as [| [i t] todo IH]; intros lines;
    cbn [insert_loop applied_loop].
  - now rewrite app_nil_r.
  - rewrite IH. cbn [fst].
    set (a := applied_loop (insert_step lines (i, t)) todo).
    unfold insert_step. destruct (i <? len lines).
    + rewrite fmap_cons. cbn [snd]. rewrite list_insert_perm.
      apply Permutation_middle.
    + reflexivity.
Qed.

(** * The insert loop as a relation *)

Lemma inserts_exec_loop (todo : list (Z * str)) (lines : list str) :
  inserts_exec lines todo (insert_loop lines todo).
Proof.
  revert lines. induction todo as [| [i t] todo IH]; intros lines;
    cbn [insert_loop].
  - constructor.
  - destruct (Z.lt_ge_cases i (len lines)) as [H | H].
    + rewrite insert_step_apply by exact H. apply ins_apply; auto.
    + rewrite insert_step_skip by exact H. apply ins_skip; auto.
Qed.

Lemma inserts_exec_det (todo : list (Z * str)) (lines out1 out2 : list str) :
  inserts_exec lines todo out1 -> inserts_exec lines todo out2 -> out1 = out2.
Proof.
  intros H1. revert out2.
  induction H1 as [| ? ? ? ? ? Hlt _ IH | ? ? ? ? ? Hge _ IH];
    intros out2 H2; inversion H2; subst; auto; lia.
Qed.

Lemma positional_exec_apply (lines : list str) (ins : list (Z * str)) :
  positional_exec lines ins (apply_positional_rules lines ins).
Proof.
  exists (sorted_reverse ins).
  split; [apply sorted_reverse_is_sorted_reverse | apply inserts_exec_loop].
Qed.

Lemma positional_exec_det (lines : list str) (ins : list (Z * str))
  (out1 out2 : list str) :
  positional_exec lines ins out1 -> positional_exec lines ins out2 ->
  out1 = out2.
Proof.
  intros (o1 & Ho1 & H1) (o2 & Ho2 & H2).
  rewrite (is_sorted_reverse_unique _ _ _ Ho1 Ho2) in H1.
  eapply inserts_exec_det; eauto.
Qed.

(** * Positional rules: the stated properties *)

(** C1, as stated, fails: [lines.insert(i, text)] puts the text in front of
    line [i], so the example does not yield L0, T0, L1, ... *)
Lemma positional_after_counterexample :
  apply_positional_rules ten_lines example_inserts
  <> [u "L0" ++ nl; u "T0" ++ nl; u "L1" ++ nl; u "L2" ++ nl; u "L3" ++ nl;
      u "T3" ++ nl; u "L4" ++ nl; u "L5" ++ nl; u "L6" ++ nl; u "L7" ++ nl;
      u "T7" ++ nl; u "L8" ++ nl; u "L9" ++ nl].
Proof. vm_compute. discriminate. Qed.

(** Each of the conditions of the amended statement is needed: texts with
    the same index follow one another in front of the line, and a negative
    index counts from the end of the list as it is at that moment, which
    may be the place in front of the line. *)
Example positional_before_shared_index :
  apply_positional_rules ten_lines [(3, u "A" ++ nl); (3, u "B" ++ nl)]
  = take 3 ten_lines ++ (u "A" ++ nl) :: (u "B" ++ nl) :: drop 3 ten_lines.
Proof. vm_compute. reflexivity. Qed.

Example positional_before_negative_index :
  apply_positional_rules ten_lines [(9, u "T9" ++ nl); (-1, u "X" ++ nl)]
  = take 9 ten_lines ++ (u "T9" ++ nl) :: (u "X" ++ nl) :: drop 9 ten_lines.
Proof. vm_compute. reflexivity. Qed.

(** C1 (amended): when no index is negative, an insert [(index, text)]
    whose index is in range and is the index of no other insert places
    [text] as a new line immediately before the line that was at position
    [index]: what stands in front of [text] is the outcome for the lines
    before that line, and what follows the line holds the lines after it.
    The other inserts may be out of range.  For lines L0..L9 and inserts at
    7, 3 and 0 the output is T0, L0, L1, L2, T3, L3, L4, L5, L6, T7, L7, L8,
    L9. *)
Theorem positional_insert_before :
  (forall (lines : list str) (ins : list (Z * str)) (i : Z) (t : str),
      Forall (fun it => 0 <= it.1) ins ->
      filter (fun it => it.1 = i) ins = [(i, t)] ->
      i < len lines ->
      exists pre line post,
        lines !! Z.to_nat i = Some line
        /\ apply_positional_rules lines ins = pre ++ t :: line :: post
        /\ pre = apply_positional_rules (take (Z.to_nat i) lines) ins
        /\ drop (S (Z.to_nat i)) lines `sublist_of` post)
  /\ (forall L0 L1 L2 L3 L4 L5 L6 L7 L8 L9 T7 T3 T0 : str,
      apply_positional_rules [L0; L1; L2; L3; L4; L5; L6; L7; L8; L9]
        [(7, T7); (3, T3); (0, T0)]
      = [T0; L0; L1; L2; T3; L3; L4; L5; L6; T7; L7; L8; L9]).
Proof.
  split; [| reflexivity].
  intros lines ins i t Hall Hone Hlt.
  assert (Hi : 0 <= i).
  { assert (Hin : (i, t) ∈ filter (fun it => it.1 = i) ins)
      by (rewrite Hone; apply list_elem_of_singleton; reflexivity).
    apply list_elem_of_filter in Hin as [_ Hin].
    rewrite Forall_forall in Hall. exact (Hall _ Hin). }
  set (k := Z.to_nat i).
  assert (Hk : Z.of_nat k = i) by (unfold k; lia).
  destruct (lookup_lt_is_Some_2 lines k) as [line Hline];
    [unfold len in Hlt; lia |].
  pose proof (sorted_reverse_perm ins) as Hp.
  set (asc := reverse (sorted_reverse ins)).
  assert (Hpa : ins ≡ₚ asc)
    by (unfold asc; now rewrite reverse_Permutation).
  assert (Hgen : forall ls, apply_positional_rules ls ins
                            = interleave 0 ls asc).
  { intros ls. unfold apply_positional_rules.
    apply insert_loop_interleave; [apply sorted_reverse_sorted |].
    now rewrite <- Hp. }
  exists (interleave 0 (take k lines) asc), line,
    (interleave (S k) (drop (S k) lines) asc).
  split; [exact Hline |]. split; [| split].
  - rewrite Hgen.
    rewrite <- (take_drop_middle lines k line Hline) at 1.
    rewrite interleave_app, length_take_le
      by (apply lookup_lt_Some in Hline; lia).
    cbn [Nat.add interleave].
    rewrite (texts_at_only k t ins asc Hpa) by (rewrite Hk; exact Hone).
    reflexivity.
  - symmetry. apply Hgen.
  - apply interleave_sublist.
Qed.

Lemma positional_insert_before_witness :
  exists pre line post,
    ten_lines !! Z.to_nat 3 = Some line
    /\ apply_positional_rules ten_lines
         ((50, u "T50" ++ nl) :: example_inserts)
       = pre ++ (u "T3" ++ nl) :: line :: post
    /\ pre = apply_positional_rules (take (Z.to_nat 3) ten_lines)
               ((50, u "T50" ++ nl) :: example_inserts)
    /\ drop (S (Z.to_nat 3)) ten_lines `sublist_of` post.
Proof.
  apply (proj1 positional_insert_before ten_lines
           ((50, u "T50" ++ nl) :: example_inserts)).
  - repeat (constructor; [simpl; lia |]). constructor.
  - vm_compute. reflexivity.
  - vm_compute. reflexivity.
Defined.

(** C5: an insert whose index is not below the current length is skipped
    and nothing is raised; a file none of whose inserts is in range comes
    out unchanged, as does a ten-line file given an insert at 50. *)
Theorem out_of_range_insert_skipped :
  (forall (lines : list str) (line_no : Z) (text : str),
      len lines <= line_no -> insert_step lines (line_no, text) = lines)
  /\ (forall (lines : list str) (ins : list (Z * str)),
      Forall (fun it => len lines <= it.1) ins ->
      apply_positional_rules lines ins = lines)
  /\ (forall (lines : list str) (text : str),
      length lines = 10%nat ->
      apply_positional_rules lines [(50, text)] = lines).
Proof.
  split; [exact insert_step_skip |].
  assert (Hall : forall (lines : list str) (todo : list (Z * str)),
             Forall (fun it => len lines <= it.1) todo ->
             insert_loop lines todo = lines).
  { intros lines todo. induction 1 as [| [i t] todo Hi _ IH]; cbn [insert_loop].
    - reflexivity.
    - now rewrite insert_step_skip. }
  split.
  - intros lines ins H. apply Hall. now rewrite <- sorted_reverse_perm.
  - intros lines text H. apply Hall. cbn [sorted_reverse insert_desc].
    constructor; [| constructor]. unfold len. simpl. lia.
Qed.

Lemma out_of_range_insert_skipped_witness :
  apply_positional_rules ten_lines [(50, u "T50" ++ nl)] = ten_lines.
Proof.
  apply (proj2 (proj2 out_of_range_insert_skipped)). reflexivity.
Defined.

(** C9: an insert is applied exactly when its index is below the number of
    lines of the original file, although the guard compares with the
    current length.  The applied inserts are what the loop puts into the
    list: the output consists of the original lines and the texts of the
    applied inserts, each as often as it was applied, and of nothing else;
    so it is longer than the input by their number, and it is the result
    of inserting them without a guard. *)
Theorem applied_iff_below_original_length (lines : list str)
  (ins : list (Z * str)) :
  applied_inserts lines ins
  = filter (fun it => it.1 < len lines) (sorted_reverse ins)
  /\ (forall it, it ∈ applied_inserts lines ins
                 <-> it ∈ ins /\ it.1 < len lines)
  /\ apply_positional_rules lines ins
     ≡ₚ lines ++ (applied_inserts lines ins).*2
  /\ apply_positional_rules lines ins
     ≡ₚ lines ++ (filter (fun it => it.1 < len lines) ins).*2
  /\ length (apply_positional_rules lines ins)
     = (length lines + length (applied_inserts lines ins))%nat
  /\ apply_positional_rules lines ins
     = foldl (fun l it => list_insert it.1 it.2 l) lines
         (applied_inserts lines ins).
Proof.
  pose proof (applied_inserts_filter lines ins) as Heq.
  split; [exact Heq |]. split; [| split; [| split; [| split]]].
  - intros it. rewrite Heq, list_elem_of_filter.
    rewrite <- (sorted_reverse_perm ins). tauto.
  - apply insert_loop_perm.
  - unfold apply_positional_rules. rewrite insert_loop_perm.
    fold (applied_inserts lines ins). rewrite Heq.
    apply Permutation_app_head, fmap_Permutation, filter_Permutation.
    symmetry. apply sorted_reverse_perm.
  - apply insert_loop_length.
  - apply insert_loop_applied.
Qed.

(** C10: the positional rules only add lines: the original lines all
    appear in the output, unmodified and in their order, and the output is
    longer by the number of applied inserts, which are those in range. *)
Theorem positional_rules_only_add (lines : list str) (ins : list (Z * str)) :
  lines `sublist_of` apply_positional_rules lines ins
  /\ length (apply_positional_rules lines ins)
     = (length lines + length (applied_inserts lines ins))%nat
  /\ length (apply_positional_rules lines ins)
     = (length lines
        + length (filter (fun it => (it.1 < len lines)%Z) ins))%nat.
Proof.
  split; [apply insert_loop_sublist |].
  assert (H : length (apply_positional_rules lines ins)
              = (length lines + length (applied_inserts lines ins))%nat)
    by apply insert_loop_length.
  split; [exact H |].
  rewrite H. f_equal.
  rewrite applied_inserts_filter.
  apply Permutation_length.
  apply filter_Permutation. symmetry. apply sorted_reverse_perm.
Qed.

(** * The matcher stays inside the text *)

Lemma count_run_le (a : atom) (s : str) : (count_run a s <= length s)%nat.
Proof.
  induction s as [| c s IH]; simpl; [lia |].
  destruct (atom_matches a c); simpl; lia.
Qed.

(** A match ends between where it was tried and the end of the text, and
    with [must_advance] it does not end where the attempt began. *)
Lemma sre_match_bounds (code : list op) (ma : bool) (start pos : nat)
  (s : str) (marks : marks_t) (e : nat) (marks' : marks_t) :
  sre_match code ma start pos s marks = Some (e, marks') ->
  (pos <= e <= pos + length s)%nat /\ (ma = true -> e <> start).
Proof.
  revert pos s marks.
  induction code as [| o k IH]; intros pos s marks H; simpl in H.
  - destruct ma; simpl in H.
    + destruct (pos =? start)%nat eqn:E; [discriminate |].
      apply Nat.eqb_neq in E. injection H as <- <-. split; [lia | auto].
    + injection H as <- <-. split; [lia | discriminate].
  - destruct o as [a | n | min a].
    + destruct s as [| c s']; [discriminate |].
      destruct (atom_matches a c); [| discriminate].
      apply IH in H. simpl. split; [lia | tauto].
    + apply IH in H. exact H.
    + destruct (count_run a s <? min)%nat; [discriminate |].
      pose proof (count_run_le a s) as Hle. revert H Hle.
      generalize (count_run a s) as j.
      induction j as [| j IHj]; intros H Hle.
      * destruct (sre_match k ma start (pos + 0) (drop 0 s) marks) eqn:E;
          [| discriminate].
        injection H as ->. apply IH in E. rewrite drop_0 in E.
        split; [lia | tauto].
      * destruct (sre_match k ma start (pos + S j) (drop (S j) s) marks) eqn:E.
        -- injection H as ->. apply IH in E. rewrite length_drop in E.
           split; [lia | tauto].
        -- destruct (j <? min)%nat; [discriminate |]. apply IHj; [exact H | lia].
Qed.

Lemma sre_search_bounds (p : Pattern) (s : str) (ma : bool) (pos : nat)
  (m : Match) :
  sre_search p ma pos s = Some m ->
  (pos <= m_start m <= m_end m)%nat /\ (m_end m <= pos + length s)%nat
  /\ (ma = true -> pos < m_end m)%nat.
Proof.
  revert ma pos. induction s as [| c s IH]; intros ma pos H; simpl in H.
  - destruct (sre_match _ _ _ _ _ _) as [[e marks] |] eqn:E; [| discriminate].
    injection H as <-. simpl. apply sre_match_bounds in E as [E1 E2].
    simpl in E1. repeat split; try lia. intros Hma. specialize (E2 Hma). lia.
  - destruct (sre_match _ _ _ _ _ _) as [[e marks] |] eqn:E.
    + injection H as <-. simpl. apply sre_match_bounds in E as [E1 E2].
      simpl in E1. repeat split; try lia. intros Hma. specialize (E2 Hma). lia.
    + apply IH in H. simpl. lia.
Qed.

Lemma attempt_inv (p : Pattern) (content : str) (ma : bool) (q : nat)
  (m : Match) :
  attempt p content ma q = Some m ->
  m_start m = q
  /\ sre_match (code p) ma q q (drop q content)
       (replicate (2 * groups p) None) = Some (m_end m, m_marks m).
Proof.
  unfold attempt. destruct (sre_match _ _ _ _ _ _) as [[e mk] |];
    [| discriminate].
  intros [= <-]. auto.
Qed.

(** * [pattern.sub] terminates within its budget *)

Lemma sub_loop_total (p : Pattern) (tpl : list tpart) (content : str)
  (fuel : nat) (ma : bool) (pos : nat) (s : str) :
  (2 * length s + (if ma then 1 else 2) <= fuel)%nat ->
  is_Some (sub_loop fuel (sre_search p) tpl content ma pos s).
Proof.
  revert ma pos s. induction fuel as [| fuel IH]; intros ma pos s Hfuel.
  - destruct ma; lia.
  - simpl. destruct (sre_search p ma pos s) as [m |] eqn:E; [| eauto].
    apply sre_search_bounds in E as (Hs & He & Hma).
    destruct (IH (m_end m =? m_start m)%nat (m_end m)
                (drop (m_end m - pos) s)) as [rest ->]; [| eauto].
    rewrite length_drop.
    destruct (m_end m =? m_start m)%nat eqn:Eq.
    + apply Nat.eqb_eq in Eq. destruct ma; [specialize (Hma eq_refl) |]; lia.
    + apply Nat.eqb_neq in Eq. destruct ma; lia.
Qed.

Lemma finditer_loop_total (p : Pattern) (fuel : nat) (ma : bool) (pos : nat)
  (s : str) :
  (2 * length s + (if ma then 1 else 2) <= fuel)%nat ->
  is_Some (finditer_loop fuel (sre_search p) ma pos s).
Proof.
  revert ma pos s. induction fuel as [| fuel IH]; intros ma pos s Hfuel.
  - destruct ma; lia.
  - simpl. destruct (sre_search p ma pos s) as [m |] eqn:E; [| eauto].
    apply sre_search_bounds in E as (Hs & He & Hma).
    destruct (IH (m_end m =? m_start m)%nat (m_end m)
                (drop (m_end m - pos) s)) as [rest ->]; [| eauto].
    rewrite length_drop.
    destruct (m_end m =? m_start m)%nat eqn:Eq.
    + apply Nat.eqb_eq in Eq. destruct ma; [specialize (Hma eq_refl) |]; lia.
    + apply Nat.eqb_neq in Eq. destruct ma; lia.
Qed.

(** [pattern.sub] never raises: it returns a text. *)
Lemma pattern_sub_total (p : Pattern) (tpl : list tpart) (content : str) :
  exists out, pattern_sub p tpl content = Ok out.
Proof.
  unfold pattern_sub.
  destruct (sub_loop_total p tpl content (sub_fuel content) false 0 content)
    as [out ->]; [unfold sub_fuel; lia | eauto].
Qed.

(** * [sre_search] finds the first match *)

Section first_match.
Context (p : Pattern) (content : str).

Lemma sre_search_unfold (ma : bool) (pos : nat) :
  sre_search p ma pos (drop pos content)
  = match attempt p content ma pos with
    | Some m => Some m
    | None =>
        if (pos <? length content)%nat
        then sre_search p false (S pos) (drop (S pos) content)
        else None
    end.
Proof.
  unfold attempt.
  destruct (drop pos content) as [| c s] eqn:E; cbn [sre_search];
    destruct (sre_match _ _ _ _ _ _) as [[e marks] |]; try reflexivity.
  - apply (f_equal length) in E. rewrite length_drop in E. simpl in E.
    destruct (Nat.ltb_spec pos (length content)); [lia | reflexivity].
  - pose proof (drop_cons_inv _ _ _ _ E) as ->.
    apply (f_equal length) in E. rewrite length_drop in E. simpl in E.
    destruct (Nat.ltb_spec pos (length content)); [reflexivity | lia].
Qed.

(** Searching from [pos] finds the first offset at which an attempt
    succeeds, or shows that none does. *)
Lemma sre_search_leftmost (n : nat) :
  forall (ma : bool) (pos : nat),
  (length content - pos = n)%nat -> (pos <= length content)%nat ->
  match sre_search p ma pos (drop pos content) with
  | Some m =>
      (pos <= m_start m <= length content)%nat
      /\ attempt p content (ma && (m_start m =? pos)%nat) (m_start m) = Some m
      /\ (forall q, (pos <= q < m_start m)%nat ->
                    attempt p content (ma && (q =? pos)%nat) q = None)
  | None =>
      forall q, (pos <= q <= length content)%nat ->
                attempt p content (ma && (q =? pos)%nat) q = None
  end.
Proof.
  induction n as [| n IH]; intros ma pos Hn Hpos; rewrite sre_search_unfold.
  - destruct (attempt p content ma pos) as [m |] eqn:E.
    + assert (m_start m = pos) as Hm.
      { unfold attempt in E. destruct (sre_match _ _ _ _ _ _) as [[e mk] |];
          [injection E as <-; reflexivity | discriminate]. }
      rewrite Hm, Nat.eqb_refl, andb_true_r.
      repeat split; [lia | lia | exact E | intros q Hq; lia].
    + destruct (pos <? length content)%nat eqn:E'; [apply Nat.ltb_lt in E'; lia |].
      intros q Hq. assert (q = pos) as -> by lia.
      now rewrite Nat.eqb_refl, andb_true_r.
  - destruct (attempt p content ma pos) as [m |] eqn:E.
    + assert (m_start m = pos) as Hm.
      { unfold attempt in E. destruct (sre_match _ _ _ _ _ _) as [[e mk] |];
          [injection E as <-; reflexivity | discriminate]. }
      rewrite Hm, Nat.eqb_refl, andb_true_r.
      repeat split; [lia | lia | exact E | intros q Hq; lia].
    + assert ((pos <? length content)%nat = true) as -> by (apply Nat.ltb_lt; lia).
      specialize (IH false (S pos) ltac:(lia) ltac:(lia)).
      destruct (sre_search p false (S pos) (drop (S pos) content)) as [m |].
      * destruct IH as (Hb & Hm & Hgap). simpl in Hm.
        assert ((m_start m =? pos)%nat = false) as -> by (apply Nat.eqb_neq; lia).
        rewrite andb_false_r.
        repeat split; [lia | lia | exact Hm |].
        intros q Hq. destruct (decide (q = pos)) as [-> | Hne].
        -- now rewrite Nat.eqb_refl, andb_true_r.
        -- assert ((q =? pos)%nat = false) as -> by (apply Nat.eqb_neq; lia).
           rewrite andb_false_r. apply (Hgap q). lia.
      * intros q Hq. destruct (decide (q = pos)) as [-> | Hne].
        -- now rewrite Nat.eqb_refl, andb_true_r.
        -- assert ((q =? pos)%nat = false) as -> by (apply Nat.eqb_neq; lia).
           rewrite andb_false_r. apply (IH q). lia.
Qed.

Lemma finditer_loop_all_matches (fuel : nat) :
  forall (ma : bool) (pos : nat) (ms : list Match),
  (pos <= length content)%nat ->
  finditer_loop fuel (sre_search p) ma pos (drop pos content) = Some ms ->
  all_matches p content ma pos ms.
Proof.
  induction fuel as [| fuel IH]; intros ma pos ms Hpos H; simpl in H;
    [discriminate |].
  pose proof (sre_search_leftmost _ ma pos eq_refl Hpos) as Hl.
  destruct (sre_search p ma pos (drop pos content)) as [m |] eqn:E.
  - apply sre_search_bounds in E as (Hs & He & _).
    rewrite length_drop in He.
    rewrite drop_drop in H.
    replace (pos + (m_end m - pos))%nat with (m_end m) in H by lia.
    destruct (finditer_loop fuel (sre_search p) _ _ _) as [ms' |] eqn:E'; [| discriminate].
    injection H as <-. destruct Hl as (Hb & Hm & Hgap).
    simpl. repeat split; try assumption; try lia.
    apply IH; [lia | exact E'].
  - injection H as <-. exact Hl.
Qed.

(** [finditer] returns all the matches. *)
Lemma pattern_finditer_all_matches :
  all_matches p content false 0 (pattern_finditer p content).
Proof.
  unfold pattern_finditer.
  destruct (finditer_loop_total p (sub_fuel content) false 0 content)
    as [ms Hms]; [unfold sub_fuel; lia |].
  rewrite Hms. simpl.
  apply (finditer_loop_all_matches (sub_fuel content));
    [lia | now rewrite drop_0].
Qed.

End first_match.

(** * The matcher finds the match

    The backtracking matcher returns the preferred way to take a text,
    and nothing where there is none. *)

Lemma count_run_ge (a : atom) (s : str) (j : nat) :
  (j <= length s)%nat ->
  Forall (fun c => atom_matches a c = true) (take j s) ->
  (j <= count_run a s)%nat.
Proof.
  revert j. induction s as [| c s IH]; intros j Hj HF; simpl in Hj.
  - lia.
  - destruct j as [| j]; [lia |]. cbn [take] in HF.
    apply Forall_cons in HF as [Hc HF]. cbn [count_run]. rewrite Hc.
    specialize (IH j ltac:(lia) HF). lia.
Qed.

Lemma count_run_forall (a : atom) (s : str) (j : nat) :
  (j <= count_run a s)%nat ->
  Forall (fun c => atom_matches a c = true) (take j s).
Proof.
  revert j. induction s as [| c s IH]; intros j Hj.
  - rewrite take_nil. constructor.
  - destruct j as [| j]; [constructor |]. cbn [count_run] in Hj.
    destruct (atom_matches a c) eqn:E; [| lia].
    cbn [take]. constructor; [exact E | apply IH; lia].
Qed.

(** The loop of a greedy repeat returns what the longest run that can be
    continued gives. *)
Lemma repeat_loop_spec {R} (f : nat -> option R) (min n : nat) :
  (min <= n)%nat ->
  match (fix try (j : nat) : option R :=
           match f j with
           | Some r => Some r
           | None =>
               match j with
               | O => None
               | S j' => if (j' <? min)%nat then None else try j'
               end
           end) n with
  | Some r =>
      exists j, (min <= j <= n)%nat /\ f j = Some r
                /\ forall j', (j < j' <= n)%nat -> f j' = None
  | None => forall j, (min <= j <= n)%nat -> f j = None
  end.
Proof.
  induction n as [| n IH]; intros Hmin.
  - destruct (f 0%nat) as [r |] eqn:E.
    + exists 0%nat. repeat split; [lia | lia | exact E | intros; lia].
    + intros j Hj. now replace j with 0%nat by lia.
  - destruct (f (S n)) as [r |] eqn:E.
    + exists (S n). repeat split; [lia | lia | exact E | intros; lia].
    + destruct (Nat.ltb_spec n min) as [Hlt | Hge].
      * intros j Hj. now replace j with (S n) by lia.
      * specialize (IH Hge).
        match goal with
        | |- match ?t with _ => _ end => destruct t as [r |]
        end.
        -- destruct IH as (j & Hj & Hf & Hnone).
           exists j. repeat split; [lia | lia | exact Hf |].
           intros j' Hj'. destruct (decide (j' = S n)) as [-> | Hne];
             [exact E | apply Hnone; lia].
        -- intros j Hj. destruct (decide (j = S n)) as [-> | Hne];
             [exact E | apply IH; lia].
Qed.

(** What the matcher returns is the preferred way for the pattern to take
    the text, with the marks of that way; and it returns nothing only
    where the pattern takes no text that counts. *)
Lemma sre_match_takes (code : list op) (ma : bool) (start : nat) :
  forall (pos : nat) (s : str) (marks : marks_t),
  match sre_match code ma start pos s marks with
  | Some (e, mk) =>
      exists js,
        takes code s js (e - pos) /\ (pos <= e)%nat
        /\ (ma = true -> e <> start)
        /\ mk = set_marks code pos js marks
        /\ forall js' n',
             takes code s js' n' -> (ma = true -> (pos + n')%nat <> start) ->
             greedy_le js' js
  | None =>
      forall js n, takes code s js n -> ma = true /\ (pos + n)%nat = start
  end.
Proof.
  induction code as [| o k IH]; intros pos s marks.
  - cbn [sre_match]. destruct (ma && (pos =? start)%nat) eqn:E.
    + intros js n H. inversion H; subst.
      apply andb_prop in E as [-> E]. apply Nat.eqb_eq in E.
      split; [reflexivity | lia].
    + exists []. rewrite Nat.sub_diag.
      split; [constructor |]. split; [lia |]. split; [| split].
      * intros ->. cbn [andb] in E. apply Nat.eqb_neq in E. exact E.
      * reflexivity.
      * intros js' n' H _. inversion H; subst. exact I.
  - destruct o as [a | g | min a]; cbn [sre_match].
    + (* one character *)
      destruct s as [| c s'].
      { intros js n H. inversion H. }
      destruct (atom_matches a c) eqn:Ea.
      2: { intros js n H. inversion H; subst. congruence. }
      specialize (IH (S pos) s' marks).
      destruct (sre_match k ma start (S pos) s' marks) as [[e mk] |].
      * destruct IH as (js & Ht & Hle & Hma & Hmk & Hbest).
        exists js. replace (e - pos)%nat with (S (e - S pos)) by lia.
        split; [now constructor |]. split; [lia |].
        split; [exact Hma |]. split; [exact Hmk |].
        intros js' n' H Hadv. inversion H; subst.
        eapply Hbest; [eassumption |].
        intros Hm. specialize (Hadv Hm). lia.
      * intros js n H. inversion H; subst.
        match goal with
        | Hk : takes k s' _ _ |- _ => destruct (IH _ _ Hk) as [Hm Hn]
        end.
        split; [exact Hm | lia].
    + (* a mark *)
      specialize (IH pos s (<[g := Some pos]> marks)).
      destruct (sre_match k ma start pos s (<[g := Some pos]> marks))
        as [[e mk] |].
      * destruct IH as (js & Ht & Hle & Hma & Hmk & Hbest).
        exists js. split; [now constructor |]. split; [exact Hle |].
        split; [exact Hma |]. split; [exact Hmk |].
        intros js' n' H Hadv. inversion H; subst. eauto.
      * intros js n H. inversion H; subst. eauto.
    + (* a greedy repeat *)
      pose proof (count_run_le a s) as Hrun.
      destruct (Nat.ltb_spec (count_run a s) min) as [Hlt | Hge].
      { intros js n H. inversion H; subst.
        match goal with
        | HF : Forall _ (take ?j s) |- _ =>
            pose proof (count_run_ge a s j ltac:(lia) HF)
        end.
        lia. }
      pose proof (repeat_loop_spec
                    (fun j => sre_match k ma start (pos + j) (drop j s) marks)
                    min (count_run a s) Hge) as Hloop.
      cbv beta in Hloop.
      match goal with
      | |- match ?t with _ => _ end => destruct t as [[e mk] |]
      end.
      * destruct Hloop as (j & Hj & Hf & Hnone).
        pose proof (IH (pos + j)%nat (drop j s) marks) as Hk.
        rewrite Hf in Hk.
        destruct Hk as (js & Ht & Hle & Hma & Hmk & Hbest).
        exists (j :: js).
        replace (e - pos)%nat with (j + (e - (pos + j)))%nat by lia.
        split; [constructor; [lia | now apply count_run_forall | exact Ht] |].
        split; [lia |]. split; [exact Hma |]. split; [exact Hmk |].
        intros js' n' H Hadv. inversion H; subst.
        match goal with
        | HF : Forall _ (take ?j' s), Hk' : takes k (drop ?j' s) ?js1 ?n1
          |- _ =>
            pose proof (count_run_ge a s j' ltac:(lia) HF) as Hj';
            destruct (lt_eq_lt_dec j' j) as [[Hc | Hc] | Hc]
        end.
        -- left. exact Hc.
        -- right. split; [exact Hc |]. subst.
           eapply Hbest; [eassumption |].
           intros Hm. specialize (Hadv Hm). lia.
        -- match goal with
           | Hk' : takes k (drop ?j' s) ?js1 ?n1 |- _ =>
               pose proof (IH (pos + j')%nat (drop j' s) marks) as Hk2;
               rewrite (Hnone j' ltac:(lia)) in Hk2;
               destruct (Hk2 _ _ Hk') as [Hm Hn]
           end.
           specialize (Hadv Hm). lia.
      * intros js n H. inversion H; subst.
        match goal with
        | HF : Forall _ (take ?j' s), Hk' : takes k (drop ?j' s) ?js1 ?n1
          |- _ =>
            pose proof (count_run_ge a s j' ltac:(lia) HF) as Hj';
            pose proof (IH (pos + j')%nat (drop j' s) marks) as Hk2;
            rewrite (Hloop j' ltac:(lia)) in Hk2;
            destruct (Hk2 _ _ Hk') as [Hm Hn]
        end.
        split; [exact Hm | lia].
Qed.

(** Two preferred ways to take a text are the same way. *)
Lemma takes_greedy_antisym (code : list op) (s : str) (js js' : list nat)
  (n n' : nat) :
  takes code s js n -> takes code s js' n' ->
  greedy_le js js' -> greedy_le js' js -> js = js' /\ n = n'.
Proof.
  intros H. revert js' n'.
  induction H as [s | a k c s js n Ha _ IH | g k s js n _ IH
                 | min a k s j js n Hj HF _ IH];
    intros js' n' H' H1 H2; inversion H'; subst.
  - auto.
  - destruct (IH _ _ ltac:(eassumption) H1 H2) as [-> ->]. auto.
  - destruct (IH _ _ ltac:(eassumption) H1 H2) as [-> ->]. auto.
  - cbn [greedy_le] in H1, H2.
    destruct H1 as [H1 | [-> H1]]; destruct H2 as [H2 | [E2 H2]]; try lia.
    destruct (IH _ _ ltac:(eassumption) H1 H2) as [-> ->]. auto.
Qed.

Section meaning.
Context (p : Pattern) (content : str).

Lemma attempt_match_at (ma : bool) (q : nat) :
  match attempt p content ma q with
  | Some m => match_at p content ma q m
  | None => no_match_at p content ma q
  end.
Proof.
  unfold attempt.
  pose proof (sre_match_takes (code p) ma q q (drop q content)
                (replicate (2 * groups p) None)) as H.
  destruct (sre_match (code p) ma q q (drop q content) _) as [[e mk] |].
  - destruct H as (js & Ht & Hle & Hma & Hmk & Hbest).
    unfold match_at. cbn [m_start m_end m_marks].
    split; [reflexivity |]. split; [exact Hle |].
    exists js. split; [exact Ht |]. split; [exact Hma |].
    split; [| exact Hmk].
    intros js' n' H' Hadv. apply (Hbest js' n' H').
    intros Hm. specialize (Hadv Hm). lia.
  - intros js n H'. destruct (H js n H') as [Hm Hn].
    split; [exact Hm | lia].
Qed.

Lemma match_at_unique (ma : bool) (q : nat) (m m' : Match) :
  match_at p content ma q m -> match_at p content ma q m' -> m = m'.
Proof.
  intros (Hs & Hle & js & Ht & Hma & Hbest & Hmk)
         (Hs' & Hle' & js' & Ht' & Hma' & Hbest' & Hmk').
  assert (H1 : greedy_le js js').
  { apply (Hbest' js _ Ht). intros Hm. specialize (Hma Hm). lia. }
  assert (H2 : greedy_le js' js).
  { apply (Hbest js' _ Ht'). intros Hm. specialize (Hma' Hm). lia. }
  destruct (takes_greedy_antisym _ _ _ _ _ _ Ht Ht' H1 H2) as [-> Hn].
  destruct m as [s e mk], m' as [s' e' mk']. cbn in *.
  subst. f_equal. lia.
Qed.

Lemma match_at_not_none (ma : bool) (q : nat) (m : Match) :
  match_at p content ma q m -> no_match_at p content ma q -> False.
Proof.
  intros (Hs & Hle & js & Ht & Hma & _) Hno.
  destruct (Hno _ _ Ht) as [Hm Hn]. specialize (Hma Hm). lia.
Qed.

(** The matches of the matcher are the matches of the pattern. *)
Lemma all_matches_leftmost (ms : list Match) :
  forall (ma : bool) (pos : nat),
  all_matches p content ma pos ms -> leftmost_matches p content ma pos ms.
Proof.
  induction ms as [| m ms IH]; intros ma pos H; cbn [all_matches] in H.
  - constructor. intros q Hq.
    pose proof (attempt_match_at (ma && (q =? pos)%nat) q) as Ha.
    now rewrite (H q Hq) in Ha.
  - destruct H as (Hb & Ha & Hgap & Hrest).
    constructor; [exact Hb | | | now apply IH].
    + pose proof (attempt_match_at (ma && (m_start m =? pos)%nat)
                    (m_start m)) as H.
      now rewrite Ha in H.
    + intros q Hq.
      pose proof (attempt_match_at (ma && (q =? pos)%nat) q) as H.
      now rewrite (Hgap q Hq) in H.
Qed.

(** The pattern and the text determine the matches. *)
Lemma leftmost_matches_unique (ms ms' : list Match) (ma : bool) (pos : nat) :
  leftmost_matches p content ma pos ms ->
  leftmost_matches p content ma pos ms' -> ms = ms'.
Proof.
  intros H. revert ms'.
  induction H as [ma pos Hno | ma pos m ms Hb Hm Hgap _ IH];
    intros ms' H'; inversion H' as [? ? Hno' | ? ? m' ms1 Hb' Hm' Hgap' Hrest'];
    subst.
  - reflexivity.
  - exfalso. exact (match_at_not_none _ _ _ Hm' (Hno (m_start m') ltac:(lia))).
  - exfalso. exact (match_at_not_none _ _ _ Hm (Hno' (m_start m) ltac:(lia))).
  - assert (Hs : m_start m = m_start m').
    { destruct (lt_eq_lt_dec (m_start m) (m_start m')) as [[Hc | Hc] | Hc];
        [| exact Hc |].
      - exfalso.
        exact (match_at_not_none _ _ _ Hm (Hgap' (m_start m) ltac:(lia))).
      - exfalso.
        exact (match_at_not_none _ _ _ Hm' (Hgap (m_start m') ltac:(lia))). }
    rewrite <- Hs in Hm'.
    pose proof (match_at_unique _ _ _ _ Hm Hm') as <-.
    f_equal. now apply IH.
Qed.

(** No match anywhere: the search finds nothing exactly when the pattern
    takes no text at any offset. *)
Lemma sre_search_none_iff :
  sre_search p false 0 content = None
  <-> forall q js n, (q <= length content)%nat ->
                     ~ takes (code p) (drop q content) js n.
Proof.
  pose proof (sre_search_leftmost p content _ false 0 eq_refl ltac:(lia))
    as H.
  rewrite drop_0 in H. split.
  - intros E. rewrite E in H. intros q js n Hq Ht.
    specialize (H q ltac:(lia)). cbn [andb] in H.
    pose proof (attempt_match_at false q) as Ha. rewrite H in Ha.
    destruct (Ha _ _ Ht) as [Hf _]. discriminate.
  - intros Hno.
    destruct (sre_search p false 0 content) as [m |]; [| reflexivity].
    destruct H as (Hb & Ha & _). cbn [andb] in Ha.
    pose proof (attempt_match_at false (m_start m)) as Hm.
    rewrite Ha in Hm. destruct Hm as (_ & _ & js & Ht & _).
    exfalso. exact (Hno (m_start m) _ _ ltac:(lia) Ht).
Qed.

End meaning.

(** * [pattern.sub] replaces the matches [finditer] finds *)

Lemma sub_loop_splice (p : Pattern) (tpl : list tpart) (content : str)
  (fuel : nat) (ma : bool) (pos : nat) :
  sub_loop fuel (sre_search p) tpl content ma pos (drop pos content)
  = splice content tpl pos <$> finditer_loop fuel (sre_search p) ma pos (drop pos content).
Proof.
  revert ma pos. induction fuel as [| fuel IH]; intros ma pos; simpl.
  - reflexivity.
  - destruct (sre_search p ma pos (drop pos content)) as [m |] eqn:E;
      [| reflexivity].
    apply sre_search_bounds in E as (Hs & _).
    rewrite drop_drop.
    replace (pos + (m_end m - pos))%nat with (m_end m) by lia.
    rewrite IH.
    destruct (finditer_loop fuel (sre_search p) _ (m_end m) _); reflexivity.
Qed.

Lemma finditer_loop_non_overlapping (p : Pattern) (fuel : nat) (ma : bool)
  (pos : nat) (s : str) (ms : list Match) :
  finditer_loop fuel (sre_search p) ma pos s = Some ms -> non_overlapping pos ms.
Proof.
  revert ma pos s ms. induction fuel as [| fuel IH]; intros ma pos s ms H;
    simpl in H; [discriminate |].
  destruct (sre_search p ma pos s) as [m |] eqn:E.
  - destruct (finditer_loop fuel (sre_search p) _ _ _) as [ms' |] eqn:E'; [| discriminate].
    injection H as <-. simpl.
    apply sre_search_bounds in E as (Hs & _).
    split; [exact Hs | eapply IH; exact E'].
  - injection H as <-. exact I.
Qed.

(** [pattern.sub] is the specification's global replacement. *)
Lemma pattern_sub_splice (p : Pattern) (tpl : list tpart) (content : str) :
  pattern_sub p tpl content
  = Ok (splice content tpl 0 (pattern_finditer p content))
  /\ non_overlapping 0 (pattern_finditer p content).
Proof.
  unfold pattern_sub, pattern_finditer.
  pose proof (sub_loop_splice p tpl content (sub_fuel content) false 0) as H.
  rewrite drop_0 in H. rewrite H.
  destruct (finditer_loop_total p (sub_fuel content) false 0 content)
    as [ms Hms]; [unfold sub_fuel; lia |].
  rewrite Hms. simpl. split; [reflexivity |].
  eapply finditer_loop_non_overlapping; exact Hms.
Qed.

(** Without a match the text is returned as it is. *)
Lemma pattern_sub_no_match (p : Pattern) (tpl : list tpart) (content : str) :
  sre_search p false 0 content = None -> pattern_sub p tpl content = Ok content.
Proof.
  intros H. unfold pattern_sub, sub_fuel.
  replace (2 * length content + 2)%nat with (S (2 * length content + 1)) by lia.
  simpl. now rewrite H.
Qed.

(** * [pattern.sub] for any compiled pattern *)

Lemma compiled_search_bounds (c : compiled) (content : str) (ma : bool)
  (pos : nat) (m : Match) :
  (pos <= length content)%nat ->
  compiled_search c content ma pos (drop pos content) = Some m ->
  (pos <= m_start m <= m_end m)%nat /\ (m_end m <= length content)%nat
  /\ (ma = true -> (pos < m_end m)%nat).
Proof.
  intros Hpos Hm. destruct c as [p | x]; cbn [compiled_search] in Hm.
  - apply sre_search_bounds in Hm as (H1 & H2 & H3).
    rewrite length_drop in H2. repeat split; try lia. exact H3.
  - now apply (other_search_bounds x content ma pos m).
Qed.

Section any_search.
Context (search : bool -> nat -> str -> option Match) (content : str).
Hypothesis Hb :
  forall ma pos m,
    (pos <= length content)%nat ->
    search ma pos (drop pos content) = Some m ->
    (pos <= m_start m <= m_end m)%nat /\ (m_end m <= length content)%nat
    /\ (ma = true -> (pos < m_end m)%nat).

Lemma sub_loop_total_in (tpl : list tpart) (fuel : nat) :
  forall (ma : bool) (pos : nat),
  (pos <= length content)%nat ->
  (2 * (length content - pos) + (if ma then 1 else 2) <= fuel)%nat ->
  is_Some (sub_loop fuel search tpl content ma pos (drop pos content)).
Proof using Hb.
  induction fuel as [| fuel IH]; intros ma pos Hpos Hfuel.
  - destruct ma; lia.
  - cbn [sub_loop].
    destruct (search ma pos (drop pos content)) as [m |] eqn:E; [| eauto].
    destruct (Hb _ _ _ Hpos E) as (Hs & He & Hma).
    rewrite drop_drop.
    replace (pos + (m_end m - pos))%nat with (m_end m) by lia.
    destruct (IH (m_end m =? m_start m)%nat (m_end m)) as [rest ->];
      [lia | | eauto].
    destruct (m_end m =? m_start m)%nat eqn:Eq.
    + apply Nat.eqb_eq in Eq. destruct ma; [specialize (Hma eq_refl) |]; lia.
    + apply Nat.eqb_neq in Eq. destruct ma; lia.
Qed.

Lemma finditer_loop_total_in (fuel : nat) :
  forall (ma : bool) (pos : nat),
  (pos <= length content)%nat ->
  (2 * (length content - pos) + (if ma then 1 else 2) <= fuel)%nat ->
  is_Some (finditer_loop fuel search ma pos (drop pos content)).
Proof using Hb.
  induction fuel as [| fuel IH]; intros ma pos Hpos Hfuel.
  - destruct ma; lia.
  - cbn [finditer_loop].
    destruct (search ma pos (drop pos content)) as [m |] eqn:E; [| eauto].
    destruct (Hb _ _ _ Hpos E) as (Hs & He & Hma).
    rewrite drop_drop.
    replace (pos + (m_end m - pos))%nat with (m_end m) by lia.
    destruct (IH (m_end m =? m_start m)%nat (m_end m)) as [rest ->];
      [lia | | eauto].
    destruct (m_end m =? m_start m)%nat eqn:Eq.
    + apply Nat.eqb_eq in Eq. destruct ma; [specialize (Hma eq_refl) |]; lia.
    + apply Nat.eqb_neq in Eq. destruct ma; lia.
Qed.

(** [pattern.sub] replaces the matches [pattern.finditer] finds. *)
Lemma sub_loop_splice_in (tpl : list tpart) (fuel : nat) :
  forall (ma : bool) (pos : nat),
  (pos <= length content)%nat ->
  sub_loop fuel search tpl content ma pos (drop pos content)
  = splice content tpl pos
      <$> finditer_loop fuel search ma pos (drop pos content).
Proof using Hb.
  induction fuel as [| fuel IH]; intros ma pos Hpos;
    cbn [sub_loop finditer_loop]; [reflexivity |].
  destruct (search ma pos (drop pos content)) as [m |] eqn:E; [| reflexivity].
  destruct (Hb _ _ _ Hpos E) as (Hs & He & _).
  rewrite drop_drop.
  replace (pos + (m_end m - pos))%nat with (m_end m) by lia.
  rewrite IH by lia.
  destruct (finditer_loop fuel search _ (m_end m) _); reflexivity.
Qed.

Lemma finditer_loop_non_overlapping_in (fuel : nat) :
  forall (ma : bool) (pos : nat) (ms : list Match),
  (pos <= length content)%nat ->
  finditer_loop fuel search ma pos (drop pos content) = Some ms ->
  non_overlapping pos ms.
Proof using Hb.
  induction fuel as [| fuel IH]; intros ma pos ms Hpos H;
    cbn [finditer_loop] in H; [discriminate |].
  destruct (search ma pos (drop pos content)) as [m |] eqn:E.
  - destruct (Hb _ _ _ Hpos E) as (Hs & He & _).
    rewrite drop_drop in H.
    replace (pos + (m_end m - pos))%nat with (m_end m) in H by lia.
    destruct (finditer_loop fuel search _ _ _) as [ms' |] eqn:E';
      [| discriminate].
    injection H as <-. cbn [non_overlapping].
    split; [exact Hs | eapply IH; [| exact E']; lia].
  - injection H as <-. exact I.
Qed.

End any_search.

Lemma compiled_finditer_loop (c : compiled) (content : str) :
  finditer_loop (sub_fuel content) (compiled_search c content) false 0
    content
  = Some (compiled_finditer c content).
Proof.
  unfold compiled_finditer.
  destruct (finditer_loop_total_in (compiled_search c content) content
              (compiled_search_bounds c content) (sub_fuel content) false 0)
    as [ms Hms]; [lia | unfold sub_fuel; lia |].
  rewrite drop_0 in Hms. now rewrite Hms.
Qed.

(** [pattern.sub] is the specification's global replacement, for every
    compiled pattern. *)
Lemma compiled_sub_splice (c : compiled) (tpl : list tpart) (content : str) :
  compiled_sub c tpl content
  = Ok (splice content tpl 0 (compiled_finditer c content))
  /\ non_overlapping 0 (compiled_finditer c content).
Proof.
  pose proof (compiled_finditer_loop c content) as Hms.
  split.
  - unfold compiled_sub.
    pose proof (sub_loop_splice_in (compiled_search c content) content
                  (compiled_search_bounds c content) tpl (sub_fuel content)
                  false 0 ltac:(lia)) as H.
    rewrite drop_0 in H. rewrite H, Hms. reflexivity.
  - apply (finditer_loop_non_overlapping_in (compiled_search c content)
             content (compiled_search_bounds c content) (sub_fuel content)
             false 0); [lia |].
    now rewrite drop_0.
Qed.

(** [pattern.sub] never raises: it returns a text. *)
Lemma compiled_sub_total (c : compiled) (tpl : list tpart) (content : str) :
  exists out, compiled_sub c tpl content = Ok out.
Proof. destruct (compiled_sub_splice c tpl content) as [-> _]. eauto. Qed.

Lemma compiled_sub_no_match (c : compiled) (tpl : list tpart)
  (content : str) :
  compiled_search c content false 0 content = None ->
  compiled_sub c tpl content = Ok content.
Proof.
  intros H. unfold compiled_sub, sub_fuel.
  replace (2 * length content + 2)%nat with (S (2 * length content + 1)) by lia.
  cbn [sub_loop]. now rewrite H.
Qed.

(** * [re.sub] on a rule and on a list of rules *)

Lemma re_compile_fragment (pattern : str) (p : Pattern) :
  compile pattern = Parsed p -> re_compile pattern = Ok (Frag p).
Proof. intros Hp. unfold re_compile. now rewrite Hp. Qed.

Lemma re_template_fragment (p : Pattern) (repl : str) (tpl : list tpart) :
  parse_template repl (groups p) = Parsed tpl ->
  re_template (Frag p) repl = Ok tpl.
Proof. intros Ht. unfold re_template. cbn [compiled_groups]. now rewrite Ht. Qed.

Lemma re_sub_any (pattern repl content : str) (c : compiled)
  (tpl : list tpart) :
  re_compile pattern = Ok c -> re_template c repl = Ok tpl ->
  re_sub pattern repl content = compiled_sub c tpl content.
Proof. intros Hc Ht. unfold re_sub. rewrite Hc. simpl. now rewrite Ht. Qed.

(** A rule of the fragment is handled by the fragment's [pattern.sub]. *)
Lemma re_sub_compiled (pattern repl content : str) (p : Pattern)
  (tpl : list tpart) :
  compile pattern = Parsed p -> parse_template repl (groups p) = Parsed tpl ->
  re_sub pattern repl content = pattern_sub p tpl content.
Proof.
  intros Hp Ht.
  now rewrite (re_sub_any _ _ _ (Frag p) tpl (re_compile_fragment _ _ Hp)
                 (re_template_fragment _ _ _ Ht)).
Qed.

Lemma re_sub_fragment_inv (pattern repl content out : str) (p : Pattern) :
  compile pattern = Parsed p -> re_sub pattern repl content = Ok out ->
  exists tpl, re_template (Frag p) repl = Ok tpl
              /\ pattern_sub p tpl content = Ok out.
Proof.
  intros Hp H. unfold re_sub in H.
  rewrite (re_compile_fragment _ _ Hp) in H. simpl in H.
  destruct (re_template (Frag p) repl) as [tpl |]; [| discriminate].
  exists tpl. split; [reflexivity | exact H].
Qed.

(** [re.sub] returns exactly for the rules that compile. *)
Lemma re_sub_ok_compiles (pattern repl content out : str) :
  re_sub pattern repl content = Ok out -> rule_compiles pattern repl.
Proof.
  unfold re_sub, rule_compiles.
  destruct (re_compile pattern) as [c |]; simpl; [| discriminate].
  destruct (re_template c repl) as [tpl |] eqn:E; simpl; [| discriminate].
  intros _. exists c, tpl. split; [reflexivity | exact E].
Qed.

Lemma re_sub_total (pattern repl content : str) :
  rule_compiles pattern repl -> exists out, re_sub pattern repl content = Ok out.
Proof.
  intros (c & tpl & Hc & Ht). rewrite (re_sub_any _ _ _ _ _ Hc Ht).
  apply compiled_sub_total.
Qed.

Lemma re_sub_no_match (pattern repl content : str) :
  re_search pattern content = Ok None -> rule_compiles pattern repl ->
  re_sub pattern repl content = Ok content.
Proof.
  intros Hs (c & tpl & Hc & Ht).
  rewrite (re_sub_any _ _ _ _ _ Hc Ht).
  apply compiled_sub_no_match.
  unfold re_search in Hs. rewrite Hc in Hs. simpl in Hs. congruence.
Qed.

Lemma apply_pattern_rules_ok_compile (rules : list (str * str))
  (content out : str) :
  apply_pattern_rules rules content = Ok out ->
  Forall (fun rule => rule_compiles rule.1 rule.2) rules.
Proof.
  revert content. induction rules as [| [pat repl] rules IH]; intros content H.
  - constructor.
  - simpl in H.
    destruct (re_sub pat repl content) as [c' |] eqn:E; simpl in H;
      [| discriminate].
    constructor; [eapply re_sub_ok_compiles; exact E | eapply IH; exact H].
Qed.

Lemma apply_pattern_rules_total (rules : list (str * str)) (content : str) :
  Forall (fun rule => rule_compiles rule.1 rule.2) rules ->
  exists out, apply_pattern_rules rules content = Ok out.
Proof.
  intros H. revert content.
  induction H as [| [pat repl] rules Hr _ IH]; intros content; simpl.
  - eauto.
  - destruct (re_sub_total pat repl content Hr) as [c' ->]. simpl. apply IH.
Qed.

Lemma foldl_raise (rules : list (str * str)) (e : exn) :
  foldl (fun acc rule => acc ≫= re_sub rule.1 rule.2) (Raise e) rules
  = Raise e.
Proof. induction rules as [| r rules IH]; simpl; auto. Qed.

Lemma rule_compilesb_sound (rule : str * str) :
  rule_compilesb rule = true -> rule_compiles rule.1 rule.2.
Proof.
  unfold rule_compilesb, rule_compiles.
  destruct (compile rule.1) as [p | |] eqn:Hp; try discriminate.
  destruct (parse_template rule.2 (groups p)) as [tpl | |] eqn:E;
    try discriminate.
  intros _. exists (Frag p), tpl.
  split; [now apply re_compile_fragment | now apply re_template_fragment].
Qed.

(** Every rule of the script compiles. *)
Lemma replacements_compile :
  Forall (fun rule => rule_compiles rule.1 rule.2) replacements.
Proof.
  repeat (constructor; [apply rule_compilesb_sound; vm_compute; reflexivity |]).
  constructor.
Qed.

Lemma main_rules_compile :
  Forall (fun rule => rule_compiles rule.1 rule.2) main_rules.
Proof.
  repeat (constructor; [apply rule_compilesb_sound; vm_compute; reflexivity |]).
  constructor.
Qed.

(** * The rule loop as a relation *)

Lemma rules_exec_apply (rules : list (str * str)) (content : str) :
  exists trace, rules_exec rules content trace
                  (apply_pattern_rules rules content).
Proof.
  revert content. induction rules as [| [pat repl] rules IH]; intros content;
    simpl.
  - eexists. constructor.
  - destruct (re_sub pat repl content) as [c' | e] eqn:E; simpl.
    + destruct (IH c') as [tr Htr]. eexists. eapply exec_rule; eauto.
    + eexists. eapply exec_raise; eauto.
Qed.

Lemma rules_exec_det (rules : list (str * str)) (content : str)
  (tr1 tr2 : list (str * str)) (out1 out2 : result str) :
  rules_exec rules content tr1 out1 -> rules_exec rules content tr2 out2 ->
  tr1 = tr2 /\ out1 = out2.
Proof.
  intros H1. revert tr2 out2.
  induction H1 as [c | pat repl rules c c' tr out E _ IH | pat repl rules c e E];
    intros tr2 out2 H2; inversion H2; subst.
  - auto.
  - assert (c' = content') as <- by congruence.
    destruct (IH _ _ ltac:(eassumption)) as [-> ->]. auto.
  - congruence.
  - congruence.
  - split; [reflexivity | congruence].
Qed.

(** A run applies a prefix of the list, in list order, and all of it when
    it returns. *)
Lemma rules_exec_order (rules : list (str * str)) (content : str)
  (tr : list (str * str)) (out : result str) :
  rules_exec rules content tr out ->
  tr `prefix_of` rules /\ (forall c, out = Ok c -> tr = rules).
Proof.
  induction 1 as [| ? ? ? ? ? ? ? E _ [IHp IHo] | ? ? ? ? ? E].
  - split; [reflexivity | auto].
  - split; [now apply prefix_cons | intros c Hc; f_equal; eauto].
  - split; [apply prefix_cons, prefix_nil | discriminate].
Qed.

(** * The rules on the stubs *)

Example headline_stub_patched :
  apply_pattern_rules replacements headline_stub = Ok headline_patched.
Proof. vm_compute. reflexivity. Qed.

Example meter_stub_patched :
  apply_pattern_rules replacements meter_stub = Ok meter_patched.
Proof. vm_compute. reflexivity. Qed.

Example retry_stub_patched :
  apply_pattern_rules replacements retry_stub = Ok retry_patched.
Proof. vm_compute. reflexivity. Qed.

(** * Pattern rules: the stated properties *)

(** C2: the rules are applied one after the other in list order, each to
    the content the rules before it produced: the loop is the left fold of
    single-rule substitution, for every list of rules, and a later rule
    sees what an earlier one wrote.  A single rule replaces every match of
    its pattern, found left to right without overlap, by the template
    with the group references filled in: for every compiled pattern
    [re.sub] puts the expanded template in the place of the matches
    [finditer] yields, and for a pattern of the fragment these are the
    matches of the pattern as [leftmost_matches] defines them without the
    matcher, which the pattern and the content determine. *)
Theorem pattern_rules_sequential (rules : list (str * str)) (content : str) :
  apply_pattern_rules rules content
  = foldl (fun acc rule => acc ≫= re_sub rule.1 rule.2) (Ok content) rules
  /\ (forall (pattern repl c : str) (cp : compiled) (tpl : list tpart),
      re_compile pattern = Ok cp -> re_template cp repl = Ok tpl ->
      re_sub pattern repl c = Ok (splice c tpl 0 (compiled_finditer cp c))
      /\ non_overlapping 0 (compiled_finditer cp c))
  /\ (forall (pattern repl c : str) (p : Pattern) (tpl : list tpart),
      compile pattern = Parsed p ->
      parse_template repl (groups p) = Parsed tpl ->
      re_sub pattern repl c = Ok (splice c tpl 0 (pattern_finditer p c))
      /\ leftmost_matches p c false 0 (pattern_finditer p c)
      /\ (forall ms, leftmost_matches p c false 0 ms ->
                     ms = pattern_finditer p c)
      /\ all_matches p c false 0 (pattern_finditer p c)
      /\ non_overlapping 0 (pattern_finditer p c))
  /\ re_sub (u "(a)") (u "\1b") (u "xaya") = Ok (u "xabyab")
  /\ apply_pattern_rules [(u "a", u "b"); (u "b", u "c")] (u "a") = Ok (u "c")
  /\ apply_pattern_rules [(u "b", u "c"); (u "a", u "b")] (u "a") = Ok (u "b").
Proof.
  split; [| split; [| split; [| repeat split]]].
  - revert content. induction rules as [| [pat repl] rules IH]; intros content.
    + reflexivity.
    + change (foldl _ (Ok content) ((pat, repl) :: rules))
        with (foldl (fun acc rule => acc ≫= re_sub rule.1 rule.2)
                (re_sub pat repl content) rules).
      cbn [apply_pattern_rules].
      destruct (re_sub pat repl content) as [c' | e]; simpl.
      * apply IH.
      * symmetry. apply foldl_raise.
  - intros pattern repl c cp tpl Hc Ht.
    rewrite (re_sub_any _ _ _ _ _ Hc Ht). apply compiled_sub_splice.
  - intros pattern repl c p tpl Hp Ht.
    rewrite (re_sub_compiled _ _ _ _ _ Hp Ht).
    destruct (pattern_sub_splice p tpl c) as [H1 H2].
    pose proof (pattern_finditer_all_matches p c) as Hall.
    pose proof (all_matches_leftmost p c _ _ _ Hall) as Hl.
    split; [exact H1 |]. split; [exact Hl |].
    split; [| split; [exact Hall | exact H2]].
    intros ms Hms. exact (leftmost_matches_unique p c _ _ _ _ Hms Hl).
Qed.

Lemma re_search_none_iff (pattern content : str) (p : Pattern) :
  compile pattern = Parsed p ->
  re_search pattern content = Ok None
  <-> forall q js n, (q <= length content)%nat ->
                     ~ takes (code p) (drop q content) js n.
Proof.
  intros Hp. unfold re_search. rewrite (re_compile_fragment _ _ Hp). simpl.
  rewrite <- sre_search_none_iff. split; congruence.
Qed.

(** C4 (amended): for every content and every rule that compiles (a valid
    pattern and a template well formed for it) whose pattern has no match
    anywhere in the content, applying the rule raises nothing and returns
    the content unchanged.  This holds of every pattern [re] compiles; for
    a pattern of the fragment no match anywhere means that the pattern
    takes no text at any offset of the content. *)
Theorem no_match_rule_is_noop (pattern repl content : str) :
  rule_compiles pattern repl ->
  (re_search pattern content = Ok None ->
   re_sub pattern repl content = Ok content)
  /\ (forall p : Pattern,
      compile pattern = Parsed p ->
      (re_search pattern content = Ok None
       <-> forall q js n, (q <= length content)%nat ->
                          ~ takes (code p) (drop q content) js n)
      /\ ((forall q js n, (q <= length content)%nat ->
                          ~ takes (code p) (drop q content) js n) ->
          re_sub pattern repl content = Ok content)).
Proof.
  intros Hc. split.
  - intros Hs. now apply re_sub_no_match.
  - intros p Hp. pose proof (re_search_none_iff pattern content p Hp) as Hiff.
    split; [exact Hiff |].
    intros Hno. apply re_sub_no_match; [now apply Hiff | exact Hc].
Qed.

(** C6: if after a first pass none of the patterns matches the patched
    content, a second pass over the patched content returns it as it is. *)
Theorem second_pass_identical (rules : list (str * str))
  (content patched : str) :
  apply_pattern_rules rules content = Ok patched ->
  Forall (fun rule => re_search rule.1 patched = Ok None) rules ->
  apply_pattern_rules rules patched = Ok patched.
Proof.
  intros H1 Hno. apply apply_pattern_rules_ok_compile in H1.
  induction rules as [| [pat repl] rules IH]; [reflexivity |].
  apply Forall_cons in H1 as [Hc H1]. apply Forall_cons in Hno as [Hn Hno].
  simpl in Hc, Hn. cbn [apply_pattern_rules].
  rewrite (re_sub_no_match pat repl patched Hn Hc). simpl. auto.
Qed.

(** C8: two runs of either loop on the same input agree: the rule loop
    applies the same rules in the same order, a prefix of the list and all
    of it when it returns, with the same outcome; the insert loop yields
    the same lines whatever algorithm sorts the inserts.  The runs are
    those of the functions above. *)
Theorem operations_deterministic (rules : list (str * str)) (content : str)
  (tr1 tr2 : list (str * str)) (out1 out2 : result str)
  (lines : list str) (ins : list (Z * str)) (o1 o2 : list str) :
  rules_exec rules content tr1 out1 -> rules_exec rules content tr2 out2 ->
  positional_exec lines ins o1 -> positional_exec lines ins o2 ->
  (tr1 = tr2 /\ out1 = out2
   /\ tr1 `prefix_of` rules /\ (forall c, out1 = Ok c -> tr1 = rules)
   /\ out1 = apply_pattern_rules rules content)
  /\ (o1 = o2 /\ o1 = apply_positional_rules lines ins).
Proof.
  intros R1 R2 P1 P2. split.
  - destruct (rules_exec_det _ _ _ _ _ _ R1 R2) as [-> ->].
    destruct (rules_exec_order _ _ _ _ R2) as [Hp Ho].
    destruct (rules_exec_apply rules content) as [tr Htr].
    destruct (rules_exec_det _ _ _ _ _ _ R2 Htr) as [_ ->].
    auto.
  - split; [eapply positional_exec_det; eauto |].
    eapply positional_exec_det; [exact P1 | apply positional_exec_apply].
Qed.

(** * Newlines and line counts *)

Lemma count_nl_app (s t : str) : count_nl (s ++ t) = (count_nl s + count_nl t)%nat.
Proof. unfold count_nl. now rewrite filter_app, length_app. Qed.

Lemma count_nl_cons (c : N) (s : str) :
  count_nl (c :: s) = ((if (c =? 10)%N then 1 else 0) + count_nl s)%nat.
Proof.
  unfold count_nl. rewrite filter_cons.
  destruct (N.eqb_spec c 10) as [-> | Hne].
  - now rewrite decide_True.
  - now rewrite decide_False.
Qed.

Lemma count_nl_slices (content : str) (a b c : nat) :
  (a <= b <= c)%nat ->
  count_nl (drop a content)
  = (count_nl (take (b - a) (drop a content))
     + count_nl (take (c - b) (drop b content))
     + count_nl (drop c content))%nat.
Proof.
  intros H.
  rewrite <- (take_drop (c - a) (drop a content)) at 1.
  rewrite count_nl_app, (slice_app content a b c H), count_nl_app, drop_drop.
  now replace (a + (c - a))%nat with c by lia.
Qed.

Lemma lines_of_nonempty (c : N) (s : str) : lines_of (c :: s) <> [].
Proof.
  cbn [lines_of]. destruct (c =? 10)%N; [discriminate |].
  destruct (lines_of s); discriminate.
Qed.

Lemma line_count_nl (s : str) :
  line_count s
  = (count_nl s
     + match last s with
       | Some c => if (c =? 10)%N then 0 else 1
       | None => 0
       end)%nat.
Proof.
  unfold line_count.
  induction s as [| c s IH]; [reflexivity |].
  assert (Hlast : last (c :: s)
                  = match s with [] => Some c | _ :: _ => last s end)
    by (destruct s; reflexivity).
  rewrite count_nl_cons, Hlast. cbn [lines_of].
  destruct (c =? 10)%N eqn:E.
  - cbn [length]. rewrite IH. destruct s as [| d s]; [| lia].
    simpl. rewrite E. lia.
  - destruct s as [| d s].
    + simpl. rewrite E. reflexivity.
    + rewrite Nat.add_0_l, <- IH. pose proof (lines_of_nonempty d s) as Hne.
      destruct (lines_of (d :: s)) as [| l ls]; [congruence | reflexivity].
Qed.

(** The lines of a text, one after the other, are the text. *)
Lemma writelines_lines_of (s : str) : writelines (lines_of s) = s.
Proof.
  unfold writelines. induction s as [| c s IH]; [reflexivity |].
  cbn [lines_of]. destruct (c =? 10)%N.
  - cbn [concat]. now rewrite IH.
  - destruct (lines_of s) as [| l ls]; simpl in IH |- *; now rewrite <- IH.
Qed.

(** ** Text mode *)

Lemma universal_newlines_no_cr (s : str) : 13%N ∉ universal_newlines s.
Proof.
  induction s as [s IH] using (induction_ltof1 _ (@length N)).
  unfold ltof in IH. destruct s as [| c s]; [apply not_elem_of_nil |].
  cbn [universal_newlines]. destruct (N.eqb_spec c 13) as [-> | Hc].
  - apply not_elem_of_cons. split; [discriminate |].
    destruct s as [| d s]; [apply not_elem_of_nil |].
    destruct (d =? 10)%N; apply IH; simpl; lia.
  - apply not_elem_of_cons. split; [congruence | apply IH; simpl; lia].
Qed.

(** A text without carriage returns is read as it is. *)
Lemma universal_newlines_id (s : str) : 13%N ∉ s -> universal_newlines s = s.
Proof.
  induction s as [| c s IH]; intros H; [reflexivity |].
  apply not_elem_of_cons in H as [Hc Hs]. cbn [universal_newlines].
  destruct (N.eqb_spec c 13) as [-> | _]; [congruence |].
  now rewrite IH.
Qed.

Lemma universal_newlines_idemp (s : str) :
  universal_newlines (universal_newlines s) = universal_newlines s.
Proof. apply universal_newlines_id, universal_newlines_no_cr. Qed.

Lemma universal_newlines_nil (s : str) : universal_newlines s = [] -> s = [].
Proof.
  destruct s as [| c s]; [reflexivity |]. cbn [universal_newlines].
  destruct (c =? 13)%N; discriminate.
Qed.

(** A final newline is read as a final newline. *)
Lemma universal_newlines_last (s : str) :
  last s = Some 10%N -> last (universal_newlines s) = Some 10%N.
Proof.
  induction s as [s IH] using (induction_ltof1 _ (@length N)).
  unfold ltof in IH. intros H. destruct s as [| c s]; [discriminate |].
  assert (Hcons : forall (x : N) (t : str),
             t <> [] -> last t = Some 10%N -> last (x :: t) = Some 10%N).
  { intros x [| y t] Ht Hl; [congruence | exact Hl]. }
  cbn [universal_newlines]. destruct (N.eqb_spec c 13) as [-> | Hc].
  - destruct s as [| d s]; [reflexivity |].
    change (last (13%N :: d :: s)) with (last (d :: s)) in H.
    destruct (N.eqb_spec d 10) as [-> | Hd].
    + destruct s as [| e s]; [reflexivity |].
      change (last (10%N :: e :: s)) with (last (e :: s)) in H.
      apply Hcons; [| apply IH; [simpl; lia | exact H]].
      intros E. now apply universal_newlines_nil in E.
    + apply Hcons; [| apply IH; [simpl; lia | exact H]].
      intros E. now apply universal_newlines_nil in E.
  - destruct s as [| d s].
    + simpl in H |- *. exact H.
    + change (last (c :: d :: s)) with (last (d :: s)) in H.
      apply Hcons; [| apply IH; [simpl; lia | exact H]].
      intros E. now apply universal_newlines_nil in E.
Qed.

(** Reading the lines and writing them back gives the text as it was
    read. *)
Lemma writelines_readlines (raw : str) :
  writelines (readlines raw) = universal_newlines raw.
Proof. apply writelines_lines_of. Qed.

Lemma readlines_id (s : str) : 13%N ∉ s -> readlines s = lines_of s.
Proof. intros H. unfold readlines. now rewrite universal_newlines_id. Qed.

(** * Rules that only insert *)

Lemma odd_close (g : nat) : Nat.odd (2 * g + 1) = true.
Proof.
  replace (2 * g + 1)%nat with (S (2 * g)) by lia.
  rewrite Nat.odd_succ, Nat.even_mul. reflexivity.
Qed.

Lemma odd_open (g : nat) : Nat.odd (2 * g) = false.
Proof. rewrite Nat.odd_mul. reflexivity. Qed.

Lemma tiled_open_closes (code : list op) (g : nat) :
  tiled code g true = true -> (1 <= count_closes code)%nat.
Proof.
  revert g. induction code as [| o k IH]; intros g H; cbn [tiled] in H.
  - discriminate.
  - destruct o as [a | n | min a]; cbn [count_closes].
    + eapply IH. exact H.
    + apply andb_prop in H as [Hn _]. apply Nat.eqb_eq in Hn. subst n.
      rewrite odd_close. lia.
    + eapply IH. exact H.
Qed.

Lemma group_text_marks (content : str) (mk : marks_t) (g b e : nat) :
  mk !! (2 * g)%nat = Some (Some b) -> mk !! (2 * g + 1)%nat = Some (Some e) ->
  group_text content mk (S g) = take (e - b) (drop b content).
Proof.
  intros Hb He. unfold group_text.
  replace (S g - 1)%nat with g by lia. now rewrite Hb, He.
Qed.

(** In a match of a tiled pattern the groups, one after the other, spell
    the matched text. *)
Lemma tiled_match (content : str) (ma : bool) (start : nat) (code : list op) :
  forall (g : nat) (inside : bool) (pos : nat) (mk : marks_t) (e : nat)
         (mk' : marks_t) (o : nat),
  tiled code g inside = true ->
  (2 * (g + count_closes code) <= length mk)%nat ->
  sre_match code ma start pos (drop pos content) mk = Some (e, mk') ->
  (if inside then mk !! (2 * g)%nat = Some (Some o) /\ (o <= pos)%nat
   else o = pos) ->
  concat (map (group_text content mk') (seq (S g) (count_closes code)))
  = take (e - o) (drop o content)
  /\ (forall i, (i < 2 * g + (if inside then 1 else 0))%nat ->
                mk' !! i = mk !! i).
Proof.
  induction code as [| op k IH]; intros g inside pos mk e mk' o Ht Hlen Hm Ho.
  - cbn [tiled] in Ht. destruct inside; [discriminate |]. subst o.
    cbn [sre_match] in Hm. destruct (ma && (pos =? start)%nat); [discriminate |].
    injection Hm as <- <-. simpl. rewrite Nat.sub_diag. split; [reflexivity | auto].
  - pose proof (sre_match_bounds _ _ _ _ _ _ _ _ Hm) as [Hb _].
    destruct op as [a | n | min a].
    + (* one character *)
      cbn [tiled] in Ht. apply andb_prop in Ht as [Hin Ht]. subst inside.
      cbn [sre_match] in Hm. cbn [count_closes] in Hlen |- *.
      destruct (drop pos content) as [| c s'] eqn:Hd; [discriminate |].
      destruct (atom_matches a c); [| discriminate].
      apply drop_cons_inv in Hd. subst s'.
      apply (IH g true (S pos) mk e mk' o Ht Hlen Hm).
      destruct Ho as [Ho1 Ho2]. split; [exact Ho1 | lia].
    + (* a group opens or closes *)
      cbn [sre_match] in Hm. destruct inside.
      * cbn [tiled] in Ht. apply andb_prop in Ht as [Hn Ht].
        apply Nat.eqb_eq in Hn. subst n. destruct Ho as [Ho1 Ho2].
        pose proof (odd_close g) as Hodd.
        cbn [count_closes] in Hlen |- *. rewrite Hodd in Hlen |- *.
        pose proof (sre_match_bounds _ _ _ _ _ _ _ _ Hm) as [Hb' _].
        destruct (IH (S g) false pos (<[(2 * g + 1)%nat := Some pos]> mk)
                    e mk' pos Ht) as [IHc IHp];
          [rewrite length_insert; lia | exact Hm | reflexivity |].
        split.
        -- cbn [Nat.add seq map concat]. rewrite IHc.
           rewrite (group_text_marks content mk' g o pos).
           ++ symmetry. apply slice_app. lia.
           ++ rewrite IHp by lia.
              rewrite list_lookup_insert_ne by lia. exact Ho1.
           ++ rewrite IHp by lia. apply list_lookup_insert_eq. lia.
        -- intros i Hi. rewrite IHp by lia.
           apply list_lookup_insert_ne. lia.
      * cbn [tiled] in Ht. apply andb_prop in Ht as [Hn Ht].
        apply Nat.eqb_eq in Hn. subst n o.
        pose proof (odd_open g) as Hodd.
        cbn [count_closes] in Hlen |- *. rewrite Hodd in Hlen |- *.
        pose proof (tiled_open_closes _ _ Ht) as Hone.
        destruct (IH g true pos (<[(2 * g)%nat := Some pos]> mk) e mk' pos Ht)
          as [IHc IHp];
          [rewrite length_insert; lia | exact Hm | |].
        { split; [apply list_lookup_insert_eq; lia | lia]. }
        split; [exact IHc |].
        intros i Hi. rewrite IHp by lia. apply list_lookup_insert_ne. lia.
    + (* a greedy repeat *)
      cbn [tiled] in Ht. apply andb_prop in Ht as [Hin Ht]. subst inside.
      destruct Ho as [Ho1 Ho2].
      cbn [sre_match] in Hm. cbn [count_closes] in Hlen |- *.
      destruct (count_run a (drop pos content) <? min)%nat; [discriminate |].
      revert Hm. generalize (count_run a (drop pos content)) as j.
      induction j as [| j IHj]; intros Hm.
      * destruct (sre_match k ma start (pos + 0) (drop 0 (drop pos content)) mk)
          as [r |] eqn:E; [| discriminate].
        injection Hm as ->. rewrite drop_drop in E.
        apply (IH g true (pos + 0)%nat mk e mk' o Ht Hlen E).
        split; [exact Ho1 | lia].
      * destruct (sre_match k ma start (pos + S j)
                    (drop (S j) (drop pos content)) mk) as [r |] eqn:E.
        -- injection Hm as ->. rewrite drop_drop in E.
           apply (IH g true (pos + S j)%nat mk e mk' o Ht Hlen E).
           split; [exact Ho1 | lia].
        -- destruct (j <? min)%nat; [discriminate |]. apply IHj. exact Hm.
Qed.

Lemma expand_count_nl (content : str) (mk : marks_t) (tpl : list tpart) :
  count_nl (expand content mk tpl)
  = (count_nl (concat (map (group_text content mk) (template_groups tpl)))
     + template_newlines tpl)%nat.
Proof.
  induction tpl as [| [c | g] tpl IH]; cbn [expand template_groups
                                             template_newlines map concat].
  - reflexivity.
  - rewrite count_nl_cons, IH. lia.
  - rewrite !count_nl_app, IH. lia.
Qed.

Section insert_only.
Context (p : Pattern) (tpl : list tpart) (content : str).
Hypothesis Hio : inserts_only p tpl = true.

(** What such a rule puts for a match is the matched text with the
    template's own text in between: only the template's newlines are new. *)
Lemma inserts_only_expand (ma : bool) (q : nat) (m : Match) :
  attempt p content ma q = Some m ->
  count_nl (expand content (m_marks m) tpl)
  = (count_nl (take (m_end m - m_start m) (drop (m_start m) content))
     + template_newlines tpl)%nat.
Proof using Hio.
  intros Ha. pose proof Hio as H. unfold inserts_only in H.
  apply andb_prop in H as [H Hg]. apply andb_prop in H as [Ht Hc].
  apply bool_decide_eq_true in Hg, Hc.
  apply attempt_inv in Ha as [Hs Hm].
  rewrite expand_count_nl, Hg, <- Hc, Hs. f_equal.
  destruct (tiled_match content ma q (code p) 0 false q
              (replicate (2 * groups p) None) (m_end m) (m_marks m) q Ht)
    as [H _]; [rewrite length_replicate; lia | exact Hm | reflexivity |].
  now rewrite H.
Qed.

(** Replacing all matches adds one template's worth of newlines per match. *)
Lemma splice_count_nl (ms : list Match) :
  forall (ma : bool) (pos : nat),
  all_matches p content ma pos ms ->
  count_nl (splice content tpl pos ms)
  = (count_nl (drop pos content) + length ms * template_newlines tpl)%nat.
Proof using Hio.
  induction ms as [| m ms IH]; intros ma pos H; cbn [splice].
  - simpl. lia.
  - destruct H as (Hb & Ha & _ & Hrest).
    pose proof (inserts_only_expand _ _ _ Ha) as He.
    apply attempt_inv in Ha as [_ Hm].
    apply sre_match_bounds in Hm as [Hm _]. rewrite length_drop in Hm.
    rewrite !count_nl_app, He, (IH _ _ Hrest).
    rewrite (count_nl_slices content pos (m_start m) (m_end m)) by lia.
    simpl. lia.
Qed.

Lemma pattern_sub_count_nl (out : str) :
  pattern_sub p tpl content = Ok out ->
  count_nl out
  = (count_nl content
     + length (pattern_finditer p content) * template_newlines tpl)%nat.
Proof using Hio.
  intros H. destruct (pattern_sub_splice p tpl content) as [Hs _].
  rewrite Hs in H. injection H as <-.
  rewrite (splice_count_nl _ false 0 (pattern_finditer_all_matches p content)).
  now rewrite drop_0.
Qed.

End insert_only.

(** For a list of rules that only insert, the run returns, the ghost count
    is defined, and the newlines grow by the count. *)
Lemma apply_pattern_rules_count_nl (rules : list (str * str)) :
  Forall (fun rule => rule_inserts_only rule = true) rules ->
  forall content,
  exists out n,
    apply_pattern_rules rules content = Ok out
    /\ inserted_newlines rules content = Ok n
    /\ count_nl out = (count_nl content + n)%nat.
Proof.
  induction 1 as [| [pat repl] rules Hr _ IH]; intros content.
  - exists content, 0%nat. simpl. repeat split; lia.
  - unfold rule_inserts_only in Hr. simpl in Hr.
    destruct (compile pat) as [p | |] eqn:Hp; try discriminate.
    destruct (parse_template repl (groups p)) as [tpl | |] eqn:Ht;
      try discriminate.
    destruct (pattern_sub_total p tpl content) as [c' Hc'].
    destruct (IH c') as (out & n & Ho & Hn & Hcount).
    exists out, (length (pattern_finditer p content) * template_newlines tpl
                 + n)%nat.
    cbn [apply_pattern_rules inserted_newlines].
    rewrite (re_sub_compiled _ _ _ _ _ Hp Ht), (re_compile_fragment _ _ Hp).
    simpl. rewrite (re_template_fragment _ _ _ Ht). simpl.
    rewrite Hc'. simpl. rewrite Hn. simpl.
    change (compiled_finditer (Frag p) content)
      with (pattern_finditer p content).
    repeat split; [exact Ho |].
    rewrite Hcount, (pattern_sub_count_nl p tpl content Hr c' Hc'). lia.
Qed.

(** All ten rules of HUDView.swift only insert. *)
Lemma replacements_insert_only :
  Forall (fun rule => rule_inserts_only rule = true) replacements.
Proof. repeat (constructor; [vm_compute; reflexivity |]). constructor. Qed.

(** * A final newline stays final *)

(** Marks take no text. *)
Lemma marks_only_match (code : list op) (ma : bool) (start pos : nat)
  (s : str) (mk : marks_t) (e : nat) (mk' : marks_t) :
  forallb (fun o => if o is MARK _ then true else false) code = true ->
  sre_match code ma start pos s mk = Some (e, mk') -> e = pos.
Proof.
  revert mk. induction code as [| o k IH]; intros mk Hf Hm.
  - cbn [sre_match] in Hm. destruct (ma && _); [discriminate |].
    now injection Hm as <- _.
  - cbn [forallb] in Hf. apply andb_prop in Hf as [Ho Hf].
    destruct o; try discriminate. cbn [sre_match] in Hm. eauto.
Qed.

(** A match of a pattern ending in a visible literal is not empty and its
    last character is not a newline. *)
Lemma visible_end_match (content : str) (ma : bool) (start : nat)
  (code : list op) :
  forall (pos : nat) (mk : marks_t) (e : nat) (mk' : marks_t),
  ends_in_visible code = true ->
  sre_match code ma start pos (drop pos content) mk = Some (e, mk') ->
  exists c, (pos < e)%nat /\ content !! (e - 1)%nat = Some c /\ c <> 10%N.
Proof.
  induction code as [| o k IH]; intros pos mk e mk' Hv Hm; [discriminate |].
  assert (Hstep : forall pos' mk1,
             (pos <= pos')%nat -> ends_in_visible k = true ->
             sre_match k ma start pos' (drop pos' content) mk1 = Some (e, mk') ->
             exists c, (pos < e)%nat /\ content !! (e - 1)%nat = Some c
                       /\ c <> 10%N).
  { intros pos' mk1 Hle Hk Hm'.
    destruct (IH pos' mk1 e mk' Hk Hm') as (c & H1 & H2 & H3).
    exists c. repeat split; [lia | assumption | assumption]. }
  destruct o as [a | n | min a].
  - cbn [sre_match] in Hm.
    destruct (drop pos content) as [| c s'] eqn:Hd; [discriminate |].
    destruct (atom_matches a c) eqn:Ha; [| discriminate].
    pose proof (drop_cons_inv _ _ _ _ Hd) as ->.
    assert (Hc : content !! pos = Some c).
    { rewrite <- (Nat.add_0_r pos), <- lookup_drop, Hd. reflexivity. }
    destruct a as [x |].
    + cbn [ends_in_visible] in Hv. apply orb_prop in Hv as [Hk | Hlast].
      * apply (Hstep (S pos) mk); [lia | exact Hk | exact Hm].
      * apply andb_prop in Hlast as [Hx Hmarks].
        apply (marks_only_match _ _ _ _ _ _ _ _ Hmarks) in Hm. subst e.
        simpl in Ha. apply N.eqb_eq in Ha. subst x.
        exists c. replace (S pos - 1)%nat with pos by lia.
        repeat split; [lia | exact Hc |].
        intros ->. discriminate.
    + cbn [ends_in_visible] in Hv.
      apply (Hstep (S pos) mk); [lia | exact Hv | exact Hm].
  - cbn [sre_match ends_in_visible] in Hm, Hv.
    apply (Hstep pos (<[n := Some pos]> mk)); [lia | exact Hv | exact Hm].
  - cbn [sre_match ends_in_visible] in Hm, Hv.
    destruct (count_run a (drop pos content) <? min)%nat; [discriminate |].
    revert Hm. generalize (count_run a (drop pos content)) as j.
    induction j as [| j IHj]; intros Hm.
    + destruct (sre_match k ma start (pos + 0) (drop 0 (drop pos content)) mk)
        as [r |] eqn:E; [| discriminate].
      injection Hm as ->. rewrite drop_drop in E.
      apply (Hstep (pos + 0)%nat mk); [lia | exact Hv | exact E].
    + destruct (sre_match k ma start (pos + S j)
                  (drop (S j) (drop pos content)) mk) as [r |] eqn:E.
      * injection Hm as ->. rewrite drop_drop in E.
        apply (Hstep (pos + S j)%nat mk); [lia | exact Hv | exact E].
      * destruct (j <? min)%nat; [discriminate |]. apply IHj. exact Hm.
Qed.

Section final_newline.
Context (p : Pattern) (tpl : list tpart) (content : str).
Hypothesis Hv : ends_in_visible (code p) = true.
Hypothesis Hl : last content = Some 10%N.

(** A text ending in a newline still ends in one after the matches of a
    pattern with a visible end are replaced. *)
Lemma splice_last_newline (ms : list Match) :
  forall (ma : bool) (pos : nat),
  (pos < length content)%nat -> all_matches p content ma pos ms ->
  last (splice content tpl pos ms) = Some 10%N.
Proof using Hv Hl.
  induction ms as [| m ms IH]; intros ma pos Hpos H; cbn [splice].
  - now rewrite last_drop_lt.
  - destruct H as (Hb & Ha & _ & Hrest).
    apply attempt_inv in Ha as [_ Hm].
    pose proof (sre_match_bounds _ _ _ _ _ _ _ _ Hm) as [Hbd _].
    rewrite length_drop in Hbd.
    apply (visible_end_match content) in Hm as (c & Hlt & Hc & Hne);
      [| exact Hv].
    assert (Hend : (m_end m < length content)%nat).
    { destruct (decide (m_end m = length content)) as [Heq | Hneq]; [| lia].
      exfalso. apply Hne. rewrite last_lookup in Hl.
      replace (pred (length content)) with (m_end m - 1)%nat in Hl by lia.
      congruence. }
    rewrite !last_app, (IH _ _ Hend Hrest). reflexivity.
Qed.

Lemma pattern_sub_last_newline (out : str) :
  pattern_sub p tpl content = Ok out -> last out = Some 10%N.
Proof using Hv Hl.
  intros H. destruct (pattern_sub_splice p tpl content) as [Hs _].
  rewrite Hs in H. injection H as <-.
  apply (splice_last_newline _ false 0).
  - destruct content; [discriminate | simpl; lia].
  - apply pattern_finditer_all_matches.
Qed.

End final_newline.

Lemma apply_pattern_rules_last_newline (rules : list (str * str)) :
  Forall (fun rule => rule_ends_in_visible rule = true) rules ->
  forall content out,
  last content = Some 10%N -> apply_pattern_rules rules content = Ok out ->
  last out = Some 10%N.
Proof.
  induction 1 as [| [pat repl] rules Hr _ IH]; intros content out Hl H.
  - injection H as <-. exact Hl.
  - cbn [apply_pattern_rules] in H.
    destruct (re_sub pat repl content) as [c' |] eqn:E; simpl in H;
      [| discriminate].
    apply (IH c' out); [| exact H].
    unfold rule_ends_in_visible in Hr. simpl in Hr.
    destruct (compile pat) as [p | |] eqn:Hp; try discriminate.
    destruct (re_sub_fragment_inv _ _ _ _ _ Hp E) as (tpl & _ & E').
    eapply pattern_sub_last_newline; eauto.
Qed.

Lemma replacements_end_in_visible :
  Forall (fun rule => rule_ends_in_visible rule = true) replacements.
Proof. repeat (constructor; [vm_compute; reflexivity |]). constructor. Qed.

(** * The end-to-end scenario *)

(** C3 (amended): on the five-line stub with the headline marker the full
    rule list of HUDView.swift yields the stub with the expected
    accessibility-label line immediately after the marker, one rule having
    matched and the file being one line longer.  In general the list
    returns for every content and the number of newlines, which is the
    line count of a text that ends in a newline, grows by exactly the
    newlines the templates insert: for every match one line, and two for
    the audio-level-meter rule, as on its stub. *)
Theorem end_to_end_scenario :
  (apply_pattern_rules replacements headline_stub = Ok headline_patched
   /\ rules_matched replacements headline_stub = Ok 1%nat
   /\ inserted_newlines replacements headline_stub = Ok 1%nat
   /\ line_count headline_stub = 5%nat
   /\ line_count headline_patched = (line_count headline_stub + 1)%nat)
  /\ (apply_pattern_rules replacements meter_stub = Ok meter_patched
      /\ rules_matched replacements meter_stub = Ok 1%nat
      /\ inserted_newlines replacements meter_stub = Ok 2%nat
      /\ line_count meter_patched = (line_count meter_stub + 2)%nat)
  /\ (forall content : str,
      exists out n,
        apply_pattern_rules replacements content = Ok out
        /\ inserted_newlines replacements content = Ok n
        /\ count_nl out = (count_nl content + n)%nat
        /\ (last content = Some 10%N ->
            line_count out = (line_count content + n)%nat)).
Proof.
  split; [vm_compute; repeat split; reflexivity |].
  split; [vm_compute; repeat split; reflexivity |].
  intros content.
  destruct (apply_pattern_rules_count_nl replacements
              replacements_insert_only content) as (out & n & Ho & Hn & Hc).
  exists out, n. repeat split; try assumption.
  intros Hl.
  pose proof (apply_pattern_rules_last_newline replacements
                replacements_end_in_visible content out Hl Ho) as Hl'.
  rewrite !line_count_nl, Hl, Hl', Hc. simpl. lia.
Qed.

(** * The script, file by file *)

Lemma apply_main_rules (content : str) :
  apply_pattern_rules main_rules content
  = (c1 ← re_sub main_pattern_1 main_replacement_1 content;
     c2 ← re_sub main_pattern_2 main_replacement_2 c1;
     re_sub main_pattern_3 helper c2).
Proof.
  unfold main_rules. cbn [apply_pattern_rules].
  destruct (re_sub main_pattern_1 main_replacement_1 content) as [c1 |];
    simpl; [| reflexivity].
  destruct (re_sub main_pattern_2 main_replacement_2 c1) as [c2 |];
    simpl; [| reflexivity].
  destruct (re_sub main_pattern_3 helper c2); reflexivity.
Qed.

Lemma patch_hud_missing (w : World) :
  files w !! hud_path = None -> patch_hud w = (Raise (OSError hud_path), w).
Proof.
  intros H. unfold patch_hud, mbind, script_bind, open_read. now rewrite H.
Qed.

Lemma patch_hud_done (w : World) (content content' : str) :
  files w !! hud_path = Some content ->
  apply_pattern_rules replacements (universal_newlines content)
  = Ok content' ->
  patch_hud w
  = (Ok tt, {| files := <[hud_path := content']> (files w);
               stdout := stdout w ++ [check_mark ++ u " HUDView.swift updated"] |}).
Proof.
  intros H H'. unfold patch_hud, mbind, script_bind, open_read, eval.
  rewrite H, H'. reflexivity.
Qed.

Lemma patch_main_missing (w : World) :
  files w !! main_path = None -> patch_main w = (Raise (OSError main_path), w).
Proof.
  intros H. unfold patch_main, mbind, script_bind, open_read. now rewrite H.
Qed.

Lemma patch_main_done (w : World) (content content' : str) :
  files w !! main_path = Some content ->
  apply_pattern_rules main_rules (universal_newlines content) = Ok content' ->
  patch_main w
  = (Ok tt, {| files := <[main_path := content']> (files w);
               stdout := stdout w ++ [check_mark ++ u " MainView.swift updated"] |}).
Proof.
  intros H H'. rewrite apply_main_rules in H'.
  unfold patch_main, mbind at 1 2 3 4 5, script_bind, open_read, eval.
  rewrite H.
  destruct (re_sub main_pattern_1 main_replacement_1
              (universal_newlines content)) as [c1 |];
    simpl in H' |- *; [| discriminate].
  destruct (re_sub main_pattern_2 main_replacement_2 c1) as [c2 |];
    simpl in H' |- *; [| discriminate].
  rewrite H'. reflexivity.
Qed.

Lemma patch_settings_missing (w : World) :
  files w !! settings_path = None ->
  patch_settings w = (Raise (OSError settings_path), w).
Proof.
  intros H. unfold patch_settings, mbind, script_bind, open_readlines.
  now rewrite H.
Qed.

Lemma paths_distinct :
  hud_path <> main_path /\ hud_path <> settings_path
  /\ main_path <> settings_path.
Proof. repeat split; discriminate. Qed.

(** With all three files in place the script runs to its end. *)
Lemma run_succeeds (w : World) (hud main settings : str) :
  files w !! hud_path = Some hud -> files w !! main_path = Some main ->
  files w !! settings_path = Some settings ->
  exists hud' main',
    apply_pattern_rules replacements (universal_newlines hud) = Ok hud'
    /\ apply_pattern_rules main_rules (universal_newlines main) = Ok main'
    /\ (run w).1 = Ok tt
    /\ files (run w).2
       = <[settings_path :=
             writelines (apply_positional_rules (readlines settings) inserts)]>
           (<[main_path := main']> (<[hud_path := hud']> (files w))).
Proof.
  intros Hhud Hmain Hset.
  destruct paths_distinct as (Hhm & Hhs & Hms).
  destruct (apply_pattern_rules_total replacements (universal_newlines hud)
              replacements_compile)
    as [hud' Hhud'].
  destruct (apply_pattern_rules_total main_rules (universal_newlines main)
              main_rules_compile)
    as [main' Hmain'].
  exists hud', main'. split; [exact Hhud' |]. split; [exact Hmain' |].
  unfold run, mbind, script_bind.
  rewrite (patch_hud_done w hud hud' Hhud Hhud').
  rewrite (patch_main_done _ main main')
    by (simpl; rewrite ?lookup_insert_ne by exact Hhm; assumption).
  unfold patch_settings, mbind, script_bind, open_readlines. simpl.
  rewrite !lookup_insert_ne by auto. rewrite Hset. simpl. auto.
Qed.

(** C7: when a later file cannot be read, the run ends with that error;
    the files before it hold the result of their own rules, the failing
    file and those after it are as they were, nothing is rolled back, and
    only the files done so far have been announced. *)
Theorem read_failure_keeps_earlier_writes (w : World) :
  (files w !! hud_path = None ->
   run w = (Raise (OSError hud_path), w))
  /\ (forall hud,
      files w !! hud_path = Some hud -> files w !! main_path = None ->
      exists hud',
        apply_pattern_rules replacements (universal_newlines hud) = Ok hud'
        /\ (run w).1 = Raise (OSError main_path)
        /\ files (run w).2 = <[hud_path := hud']> (files w)
        /\ files (run w).2 !! hud_path = Some hud'
        /\ files (run w).2 !! main_path = None
        /\ files (run w).2 !! settings_path = files w !! settings_path
        /\ stdout (run w).2
           = stdout w ++ [check_mark ++ u " HUDView.swift updated"])
  /\ (forall hud main,
      files w !! hud_path = Some hud -> files w !! main_path = Some main ->
      files w !! settings_path = None ->
      exists hud' main',
        apply_pattern_rules replacements (universal_newlines hud) = Ok hud'
        /\ apply_pattern_rules main_rules (universal_newlines main) = Ok main'
        /\ (run w).1 = Raise (OSError settings_path)
        /\ files (run w).2
           = <[main_path := main']> (<[hud_path := hud']> (files w))
        /\ files (run w).2 !! hud_path = Some hud'
        /\ files (run w).2 !! main_path = Some main'
        /\ files (run w).2 !! settings_path = None
        /\ stdout (run w).2
           = stdout w ++ [check_mark ++ u " HUDView.swift updated";
                          check_mark ++ u " MainView.swift updated"]).
Proof.
  destruct paths_distinct as (Hhm & Hhs & Hms).
  split; [| split].
  - intros H. unfold run, mbind, script_bind. now rewrite patch_hud_missing.
  - intros hud Hhud Hmain.
    destruct (apply_pattern_rules_total replacements (universal_newlines hud)
              replacements_compile)
      as [hud' Hhud'].
    exists hud'. split; [exact Hhud' |].
    unfold run, mbind, script_bind.
    rewrite (patch_hud_done w hud hud' Hhud Hhud').
    rewrite patch_main_missing
      by (simpl; rewrite lookup_insert_ne by exact Hhm; exact Hmain).
    simpl. repeat split.
    + apply lookup_insert_eq.
    + rewrite lookup_insert_ne by exact Hhm. exact Hmain.
    + now rewrite lookup_insert_ne by exact Hhs.
  - intros hud main Hhud Hmain Hset.
    destruct (apply_pattern_rules_total replacements (universal_newlines hud)
              replacements_compile)
      as [hud' Hhud'].
    destruct (apply_pattern_rules_total main_rules (universal_newlines main)
              main_rules_compile)
      as [main' Hmain'].
    exists hud', main'. split; [exact Hhud' |]. split; [exact Hmain' |].
    unfold run, mbind, script_bind.
    rewrite (patch_hud_done w hud hud' Hhud Hhud').
    rewrite (patch_main_done _ main main')
      by (simpl; rewrite ?lookup_insert_ne by exact Hhm; assumption).
    rewrite patch_settings_missing
      by (simpl; rewrite !lookup_insert_ne by auto; exact Hset).
    simpl. repeat split.
    + rewrite lookup_insert_ne by auto. apply lookup_insert_eq.
    + apply lookup_insert_eq.
    + rewrite !lookup_insert_ne by auto. exact Hset.
    + now rewrite <- app_assoc.
Qed.

(** * Checks against the interpreter *)

Example sorted_reverse_ex :
  sorted_reverse [(1, u "a"); (1, u "b"); (0, u "z"); (2, [])]
  = [(2, []); (1, u "b"); (1, u "a"); (0, u "z")].
Proof. reflexivity. Qed.

Example list_insert_ex :
  list_insert (-1) 9%nat [1; 2; 3]%nat = [1; 2; 9; 3]%nat
  /\ list_insert (-10) 9%nat [1; 2; 3]%nat = [9; 1; 2; 3]%nat
  /\ list_insert 10 9%nat [1; 2; 3]%nat = [1; 2; 3; 9]%nat
  /\ list_insert 1 9%nat [1; 2; 3]%nat = [1; 9; 2; 3]%nat.
Proof. repeat split. Qed.

Example re_sub_empty_matches_ex :
  re_sub (u "\s*") (u "-") (u "a b") = Ok (u "-a--b-")
  /\ re_sub (u "x*") (u "-") (u "abxd") = Ok (u "-a-b--d-").
Proof. split; reflexivity. Qed.

Example re_sub_errors_ex :
  re_sub (u "a") (u "\q") (u "xyz") = Raise re_error
  /\ re_sub (u "(a") (u "b") (u "xyz") = Raise re_error
  /\ compile (u "a|b") = Outside.
Proof. repeat split. Qed.

Example readlines_ex :
  readlines (u "ab" ++ nl ++ nl ++ u "c") = [u "ab" ++ nl; nl; u "c"]
  /\ writelines (readlines (u "ab" ++ nl ++ nl ++ u "c"))
     = u "ab" ++ nl ++ nl ++ u "c"
  /\ readlines (writelines [u "a" ++ [13%N; 10%N]]) = [u "a" ++ nl]
  /\ readlines (writelines [u "x" ++ nl; u "y" ++ [13%N]])
     = [u "x" ++ nl; u "y" ++ nl]
  /\ readlines (u "a" ++ [13%N] ++ u "b" ++ [13%N; 10%N] ++ u "c")
     = [u "a" ++ nl; u "b" ++ nl; u "c"]
  /\ lines_wf [u "a" ++ [13%N; 10%N]] = false.
Proof. repeat split. Qed.

(** * The whole run *)

Lemma patch_settings_done (w : World) (content : str) :
  files w !! settings_path = Some content ->
  patch_settings w
  = (Ok tt,
     {| files := <[settings_path :=
                     writelines (apply_positional_rules (readlines content)
                                   inserts)]> (files w);
        stdout := stdout w ++ [check_mark ++ u " SettingsView.swift updated"] |}).
Proof.
  intros H. unfold patch_settings, mbind, script_bind, open_readlines.
  rewrite H. reflexivity.
Qed.

(** The state a run leaves behind, by the first file that is missing. *)
Lemma run_cases (w : World) :
  match files w !! hud_path with
  | None => run w = (Raise (OSError hud_path), w)
  | Some hud =>
      exists hud',
        apply_pattern_rules replacements (universal_newlines hud) = Ok hud'
        /\ match files w !! main_path with
           | None =>
               run w
               = (Raise (OSError main_path),
                  {| files := <[hud_path := hud']> (files w);
                     stdout := stdout w ++ take 1 confirmations |})
           | Some main =>
               exists main',
                 apply_pattern_rules main_rules (universal_newlines main) = Ok main'
                 /\ match files w !! settings_path with
                    | None =>
                        run w
                        = (Raise (OSError settings_path),
                           {| files := <[main_path := main']>
                                         (<[hud_path := hud']> (files w));
                              stdout := stdout w ++ take 2 confirmations |})
                    | Some settings =>
                        run w
                        = (Ok tt,
                           {| files :=
                                <[settings_path :=
                                    writelines
                                      (apply_positional_rules
                                         (readlines settings) inserts)]>
                                  (<[main_path := main']>
                                     (<[hud_path := hud']> (files w)));
                              stdout := stdout w ++ confirmations |})
                    end
           end
  end.
Proof.
  destruct paths_distinct as (Hhm & Hhs & Hms).
  destruct (files w !! hud_path) as [hud |] eqn:Hhud.
  2: { unfold run, mbind, script_bind. now rewrite patch_hud_missing. }
  destruct (apply_pattern_rules_total replacements (universal_newlines hud)
              replacements_compile)
    as [hud' Hhud'].
  exists hud'. split; [exact Hhud' |].
  destruct (files w !! main_path) as [main |] eqn:Hmain.
  2: { unfold run, mbind, script_bind.
       rewrite (patch_hud_done w hud hud' Hhud Hhud').
       rewrite patch_main_missing
         by (simpl; rewrite lookup_insert_ne by exact Hhm; exact Hmain).
       reflexivity. }
  destruct (apply_pattern_rules_total main_rules (universal_newlines main)
              main_rules_compile)
    as [main' Hmain'].
  exists main'. split; [exact Hmain' |].
  destruct (files w !! settings_path) as [settings |] eqn:Hset.
  - unfold run, mbind, script_bind.
    rewrite (patch_hud_done w hud hud' Hhud Hhud').
    rewrite (patch_main_done _ main main')
      by (simpl; rewrite ?lookup_insert_ne by exact Hhm; assumption).
    rewrite (patch_settings_done _ settings)
      by (simpl; rewrite !lookup_insert_ne by auto; exact Hset).
    unfold print, confirmations. simpl. rewrite <- !app_assoc. reflexivity.
  - unfold run, mbind, script_bind.
    rewrite (patch_hud_done w hud hud' Hhud Hhud').
    rewrite (patch_main_done _ main main')
      by (simpl; rewrite ?lookup_insert_ne by exact Hhm; assumption).
    rewrite patch_settings_missing
      by (simpl; rewrite !lookup_insert_ne by auto; exact Hset).
    simpl. rewrite <- !app_assoc. reflexivity.
Qed.

(** X1: the run returns exactly when the three files can be read; when it
    raises, it raises the error of opening the first of them that is
    missing, never an error of [re], and that file is not created. *)
Theorem run_outcome (w : World) :
  ((run w).1 = Ok tt
   <-> Forall (fun path => is_Some (files w !! path)) script_paths)
  /\ (forall e, (run w).1 = Raise e ->
      exists before path after,
        script_paths = before ++ path :: after
        /\ e = OSError path
        /\ Forall (fun q => is_Some (files w !! q)) before
        /\ files w !! path = None
        /\ files (run w).2 !! path = None).
Proof.
  destruct paths_distinct as (Hhm & Hhs & Hms).
  pose proof (run_cases w) as H. unfold script_paths.
  destruct (files w !! hud_path) as [hud |] eqn:Hhud.
  2: { rewrite H. simpl. split.
       - split; [discriminate |]. intros HF. apply Forall_cons in HF as [HF _].
         rewrite Hhud in HF. now destruct HF.
       - intros e [= <-]. exists [], hud_path, [main_path; settings_path].
         split; [reflexivity |]. split; [reflexivity |].
         split; [constructor |]. split; exact Hhud. }
  destruct H as (hud' & Hhud' & H).
  destruct (files w !! main_path) as [main |] eqn:Hmain.
  2: { rewrite H. simpl. split.
       - split; [discriminate |]. intros HF.
         apply Forall_cons in HF as [_ HF]. apply Forall_cons in HF as [HF _].
         rewrite Hmain in HF. now destruct HF.
       - intros e [= <-]. exists [hud_path], main_path, [settings_path].
         split; [reflexivity |]. split; [reflexivity |].
         split; [constructor; [rewrite Hhud; eauto | constructor] |].
         split; [exact Hmain |]. now rewrite lookup_insert_ne. }
  destruct H as (main' & Hmain' & H).
  destruct (files w !! settings_path) as [settings |] eqn:Hset.
  - rewrite H. simpl. split; [| discriminate].
    split; [| reflexivity]. intros _.
    repeat constructor; rewrite ?Hhud, ?Hmain, ?Hset; eauto.
  - rewrite H. simpl. split.
    + split; [discriminate |]. intros HF.
      apply Forall_cons in HF as [_ HF]. apply Forall_cons in HF as [_ HF].
      apply Forall_cons in HF as [HF _]. rewrite Hset in HF. now destruct HF.
    + intros e [= <-]. exists [hud_path; main_path], settings_path, [].
      split; [reflexivity |]. split; [reflexivity |].
      split; [repeat constructor; rewrite ?Hhud, ?Hmain; eauto |].
      split; [exact Hset |]. now rewrite !lookup_insert_ne.
Qed.

(** X2: with the three files in place the run returns; each file then
    holds the result of its own rules applied to its old content, and the
    four confirmations have been printed in order. *)
Theorem run_all_present (w : World) (hud main settings : str) :
  files w !! hud_path = Some hud -> files w !! main_path = Some main ->
  files w !! settings_path = Some settings ->
  exists hud' main',
    apply_pattern_rules replacements (universal_newlines hud) = Ok hud'
    /\ apply_pattern_rules main_rules (universal_newlines main) = Ok main'
    /\ (run w).1 = Ok tt
    /\ files (run w).2 !! hud_path = Some hud'
    /\ files (run w).2 !! main_path = Some main'
    /\ files (run w).2 !! settings_path
       = Some (writelines (apply_positional_rules (readlines settings) inserts))
    /\ stdout (run w).2 = stdout w ++ confirmations.
Proof.
  intros Hhud Hmain Hset.
  destruct paths_distinct as (Hhm & Hhs & Hms).
  pose proof (run_cases w) as H. rewrite Hhud in H.
  destruct H as (hud' & Hhud' & H). rewrite Hmain in H.
  destruct H as (main' & Hmain' & H). rewrite Hset in H.
  exists hud', main'. rewrite H. simpl. repeat split; auto.
  - rewrite !lookup_insert_ne by auto. apply lookup_insert_eq.
  - rewrite lookup_insert_ne by auto. apply lookup_insert_eq.
  - apply lookup_insert_eq.
Qed.

(** X3: whatever the outcome, the run creates no file, removes none, and
    leaves every file other than the three of the script as it was. *)
Theorem run_frame (w : World) :
  dom (files (run w).2) = dom (files w)
  /\ (forall path, path ∉ script_paths ->
                   files (run w).2 !! path = files w !! path).
Proof.
  destruct paths_distinct as (Hhm & Hhs & Hms).
  pose proof (run_cases w) as H.
  assert (Hother : forall path, path ∉ script_paths ->
             hud_path <> path /\ main_path <> path /\ settings_path <> path).
  { unfold script_paths. intros path Hp.
    rewrite !not_elem_of_cons in Hp. destruct Hp as (H1 & H2 & H3 & _).
    repeat split; congruence. }
  destruct (files w !! hud_path) as [hud |] eqn:Hhud.
  2: { rewrite H. simpl. auto. }
  destruct H as (hud' & _ & H).
  destruct (files w !! main_path) as [main |] eqn:Hmain.
  2: { rewrite H. simpl. split.
       - apply dom_insert_lookup_L. rewrite Hhud. eauto.
       - intros path Hp. destruct (Hother path Hp) as (H1 & _).
         now apply lookup_insert_ne. }
  destruct H as (main' & _ & H).
  assert (Hmain2 : is_Some (<[hud_path := hud']> (files w) !! main_path))
    by (rewrite lookup_insert_ne by exact Hhm; rewrite Hmain; eauto).
  destruct (files w !! settings_path) as [settings |] eqn:Hset;
    rewrite H; simpl; split.
  - rewrite dom_insert_lookup_L
      by (rewrite !lookup_insert_ne by auto; rewrite Hset; eauto).
    rewrite dom_insert_lookup_L by exact Hmain2.
    apply dom_insert_lookup_L. rewrite Hhud. eauto.
  - intros path Hp. destruct (Hother path Hp) as (H1 & H2 & H3).
    now rewrite !lookup_insert_ne.
  - rewrite dom_insert_lookup_L by exact Hmain2.
    apply dom_insert_lookup_L. rewrite Hhud. eauto.
  - intros path Hp. destruct (Hother path Hp) as (H1 & H2 & H3).
    now rewrite !lookup_insert_ne.
Qed.

(** * More on the positional rules *)

(** X4: the order in which the inserts are listed does not matter. *)
Theorem positional_rules_permutation (lines : list str)
  (ins1 ins2 : list (Z * str)) :
  Permutation ins1 ins2 ->
  apply_positional_rules lines ins1 = apply_positional_rules lines ins2.
Proof.
  intros Hp. unfold apply_positional_rules. f_equal.
  apply (is_sorted_reverse_unique ins1).
  - apply sorted_reverse_is_sorted_reverse.
  - destruct (sorted_reverse_is_sorted_reverse ins2) as [P S].
    split; [now rewrite Hp | exact S].
Qed.

Lemma positional_rules_permutation_witness :
  apply_positional_rules ten_lines example_inserts
  = apply_positional_rules ten_lines (reverse example_inserts).
Proof.
  apply positional_rules_permutation. symmetry. apply reverse_Permutation.
Defined.

(** An insert that passes the guard goes in front of some line. *)
Lemma list_insert_before_end {A} (i : Z) (x : A) (l : list A) :
  l <> [] -> i < len l ->
  exists k : nat, (k < length l)%nat
    /\ list_insert i x l = take k l ++ x :: drop k l.
Proof.
  intros Hne Hi.
  assert (0 < length l)%nat by (destruct l; [congruence | simpl; lia]).
  unfold list_insert. cbv zeta.
  match goal with |- context [take (Z.to_nat ?w) l] => exists (Z.to_nat w) end.
  split; [| reflexivity]. unfold len in *.
  destruct (Z.ltb_spec i 0);
    [destruct (Z.ltb_spec (i + Z.of_nat (length l)) 0) |
     destruct (Z.ltb_spec i 0)];
    match goal with
    | |- context [if ?a <? ?b then _ else _] => destruct (Z.ltb_spec a b)
    end; lia.
Qed.

Lemma insert_step_last (lines : list str) (it : Z * str) :
  lines <> [] -> last (insert_step lines it) = last lines.
Proof.
  intros Hne. destruct it as [i t]. unfold insert_step.
  destruct (i <? len lines) eqn:E; [| reflexivity].
  destruct (list_insert_before_end i t lines Hne) as (k & Hk & ->); [lia |].
  rewrite last_app, last_cons, (last_drop_lt k lines Hk).
  destruct (last lines) eqn:El; [reflexivity |].
  apply last_None in El. congruence.
Qed.

Lemma insert_step_nonempty (lines : list str) (it : Z * str) :
  lines <> [] -> insert_step lines it <> [].
Proof.
  intros Hne H. pose proof (insert_step_sublist lines it) as Hs.
  rewrite H in Hs. apply sublist_nil_r in Hs. congruence.
Qed.

Lemma insert_loop_last (todo : list (Z * str)) (lines : list str) :
  lines <> [] -> last (insert_loop lines todo) = last lines.
Proof.
  revert lines.
  induction todo as [| it todo IH]; intros lines Hne; cbn [insert_loop].
  - reflexivity.
  - rewrite IH by now apply insert_step_nonempty.
    now apply insert_step_last.
Qed.

(** X5: nothing is ever put after the last line: the file's last line
    stays its last line. *)
Theorem positional_rules_keep_last (lines : list str) (ins : list (Z * str)) :
  lines <> [] -> last (apply_positional_rules lines ins) = last lines.
Proof. apply insert_loop_last. Qed.

Lemma positional_rules_keep_last_witness :
  last (apply_positional_rules ten_lines example_inserts) = last ten_lines.
Proof. apply positional_rules_keep_last. discriminate. Defined.

Lemma insert_loop_all_skipped (lines : list str) (todo : list (Z * str)) :
  Forall (fun it => len lines <= it.1) todo -> insert_loop lines todo = lines.
Proof.
  induction 1 as [| [i t] todo Hi _ IH]; cbn [insert_loop].
  - reflexivity.
  - now rewrite insert_step_skip.
Qed.

(** Up to 254 lines none of the inserts of SettingsView.swift passes the
    guard. *)
Lemma inserts_all_skipped (lines : list str) :
  (length lines <= 254)%nat -> apply_positional_rules lines inserts = lines.
Proof.
  intros Hn. unfold apply_positional_rules.
  apply insert_loop_all_skipped.
  rewrite <- (sorted_reverse_perm inserts).
  unfold inserts, len. repeat constructor; simpl; lia.
Qed.

(** X6: a SettingsView.swift that is read as at most 254 lines is written
    back as it was read, and the confirmation is printed all the same: the
    file then holds its old text with every line end made a newline, so a
    file without carriage returns does not change at all. *)
Theorem stale_settings_unchanged (w : World) (raw : str) :
  files w !! settings_path = Some raw ->
  (length (readlines raw) <= 254)%nat ->
  patch_settings w
  = (Ok tt,
     {| files := <[settings_path := universal_newlines raw]> (files w);
        stdout := stdout w ++ [check_mark ++ u " SettingsView.swift updated"] |})
  /\ (13%N ∉ raw ->
      patch_settings w
      = (Ok tt,
         {| files := files w;
            stdout := stdout w
                      ++ [check_mark ++ u " SettingsView.swift updated"] |})).
Proof.
  intros Hc Hn. rewrite (patch_settings_done w raw Hc).
  rewrite (inserts_all_skipped _ Hn), writelines_readlines.
  split; [reflexivity |].
  intros Hcr. rewrite (universal_newlines_id raw Hcr).
  now rewrite (insert_id _ _ _ Hc).
Qed.

Lemma stale_settings_unchanged_witness :
  patch_settings short_settings_world
  = (Ok tt,
     {| files := <[settings_path := universal_newlines (writelines ten_lines)]>
                   (files short_settings_world);
        stdout := stdout short_settings_world
                  ++ [check_mark ++ u " SettingsView.swift updated"] |})
  /\ (13%N ∉ writelines ten_lines ->
      patch_settings short_settings_world
      = (Ok tt,
         {| files := files short_settings_world;
            stdout := stdout short_settings_world
                      ++ [check_mark ++ u " SettingsView.swift updated"] |})).
Proof.
  apply (stale_settings_unchanged short_settings_world (writelines ten_lines)).
  - vm_compute. reflexivity.
  - vm_compute. lia.
Defined.

(** * The positional rules as one simultaneous insertion *)

(** X7: with indices that are not negative the loop amounts to one
    simultaneous insertion: the output is the original lines, each line
    whose number is the index of an insert having the texts for that index
    in front of it, smallest text first.  Indices from the number of lines
    on contribute nothing. *)
Theorem positional_rules_simultaneous (lines : list str)
  (ins : list (Z * str)) :
  Forall (fun it => 0 <= it.1) ins ->
  apply_positional_rules lines ins
  = interleave 0 lines (reverse (sorted_reverse ins)).
Proof.
  intros H. unfold apply_positional_rules.
  apply insert_loop_interleave; [apply sorted_reverse_sorted |].
  now rewrite <- (sorted_reverse_perm ins).
Qed.

Lemma positional_rules_simultaneous_witness :
  apply_positional_rules ten_lines example_inserts
  = interleave 0 ten_lines (reverse (sorted_reverse example_inserts)).
Proof.
  apply positional_rules_simultaneous.
  unfold example_inserts. repeat (constructor; [simpl; lia |]). constructor.
Defined.

(** * SettingsView.swift with all its lines *)

Lemma inserts_labels :
  inserts
  = [ (254, label_line "Appearance theme picker");
      (274, label_line "Text output method picker");
      (353, label_line "Audio input device picker");
      (655, label_line "Transcription mode picker");
      (670, label_line "Preferred locale picker") ].
Proof. reflexivity. Qed.

Lemma sorted_reverse_inserts : sorted_reverse inserts = reverse inserts.
Proof. vm_compute. reflexivity. Qed.

Lemma interleave_ext (k : nat) (lines : list str) (ins ins' : list (Z * str)) :
  (forall j, (k <= j < k + length lines)%nat ->
             texts_at j ins = texts_at j ins') ->
  interleave k lines ins = interleave k lines ins'.
Proof.
  revert k. induction lines as [| l ls IH]; intros k H; cbn [interleave].
  - reflexivity.
  - cbn [length] in H. rewrite (H k) by lia. f_equal. f_equal.
    apply IH. intros j Hj. apply H. lia.
Qed.

(** Lines whose numbers no insert has are passed over. *)
Lemma interleave_skip (n k : nat) (lines : list str) (ins : list (Z * str)) :
  Forall (fun it => it.1 < Z.of_nat k \/ Z.of_nat (k + n) <= it.1) ins ->
  interleave k lines ins
  = take n lines ++ interleave (k + n) (drop n lines) ins.
Proof.
  revert k lines. induction n as [| n IH]; intros k lines H.
  - now rewrite Nat.add_0_r, take_0, drop_0.
  - destruct lines as [| l ls]; [reflexivity |].
    cbn [interleave take drop app].
    assert (Hnone : texts_at k ins = []).
    { apply texts_at_none.
      eapply Forall_impl; [exact H |]. simpl. intros. lia. }
    rewrite Hnone. cbn [app]. f_equal.
    rewrite (IH (S k)).
    + now replace (S k + n)%nat with (k + S n)%nat by lia.
    + eapply Forall_impl; [exact H |]. simpl. intros. lia.
Qed.

(** The first of rising inserts goes in front of the line with its number;
    the others are for the lines from there on. *)
Lemma interleave_first (n k : nat) (lines : list str) (x : Z) (t : str)
  (rest : list (Z * str)) :
  x = Z.of_nat (k + n) -> (n < length lines)%nat ->
  Forall (fun it => x < it.1) rest ->
  interleave k lines ((x, t) :: rest)
  = take n lines ++ t :: interleave (k + n) (drop n lines) rest.
Proof.
  intros Hx Hn Hrest.
  assert (Hnone : texts_at (k + n) rest = []).
  { apply texts_at_none.
    eapply Forall_impl; [exact Hrest |]. simpl. intros. lia. }
  rewrite (interleave_skip n).
  - f_equal. destruct (drop n lines) as [| l ls'] eqn:Hd.
    { apply (f_equal length) in Hd. rewrite length_drop in Hd.
      simpl in Hd. lia. }
    cbn [interleave].
    change ((x, t) :: rest) with ([(x, t)] ++ rest) at 1.
    rewrite texts_at_app, Hnone, Hx, texts_at_same. cbn [app].
    f_equal. f_equal. apply interleave_ext. intros j Hj.
    change ((Z.of_nat (k + n), t) :: rest)
      with ([(Z.of_nat (k + n), t)] ++ rest).
    rewrite texts_at_app, texts_at_other by lia. reflexivity.
  - constructor; [simpl; lia |].
    eapply Forall_impl; [exact Hrest |]. simpl. intros. lia.
Qed.

(** X8: in a SettingsView.swift of more than 670 lines all five labels are
    inserted, each directly after the line with its number counted from
    one, that is in front of the line with that index counted from zero:
    the new file is the old one cut after 254, 274, 353, 655 and 670 lines
    with the labels in the cuts. *)
Theorem settings_all_labels (lines : list str) :
  670 < len lines ->
  apply_positional_rules lines inserts
  = take 254 lines
    ++ label_line "Appearance theme picker"
    :: take 20 (drop 254 lines)
    ++ label_line "Text output method picker"
    :: take 79 (drop 274 lines)
    ++ label_line "Audio input device picker"
    :: take 302 (drop 353 lines)
    ++ label_line "Transcription mode picker"
    :: take 15 (drop 655 lines)
    ++ label_line "Preferred locale picker"
    :: drop 670 lines.
Proof.
  intros Hlen. unfold len in Hlen. unfold apply_positional_rules.
  rewrite insert_loop_interleave;
    [| apply sorted_reverse_sorted
     | rewrite <- (sorted_reverse_perm inserts); unfold inserts;
       repeat (constructor; [simpl; lia |]); constructor].
  rewrite sorted_reverse_inserts, reverse_involutive, inserts_labels.
  rewrite (interleave_first 254 0);
    [| lia | lia | repeat (constructor; [simpl; lia |]); constructor].
  rewrite (interleave_first 20 (0 + 254));
    [| lia | rewrite length_drop; lia
     | repeat (constructor; [simpl; lia |]); constructor].
  rewrite drop_drop.
  rewrite (interleave_first 79 (0 + 254 + 20));
    [| lia | rewrite length_drop; lia
     | repeat (constructor; [simpl; lia |]); constructor].
  rewrite drop_drop.
  rewrite (interleave_first 302 (0 + 254 + 20 + 79));
    [| lia | rewrite length_drop; lia
     | repeat (constructor; [simpl; lia |]); constructor].
  rewrite drop_drop.
  rewrite (interleave_first 15 (0 + 254 + 20 + 79 + 302));
    [| lia | rewrite length_drop; lia | constructor].
  rewrite drop_drop.
  rewrite interleave_below by constructor.
  reflexivity.
Qed.

Lemma settings_all_labels_witness :
  apply_positional_rules long_settings inserts
  = take 254 long_settings
    ++ label_line "Appearance theme picker"
    :: take 20 (drop 254 long_settings)
    ++ label_line "Text output method picker"
    :: take 79 (drop 274 long_settings)
    ++ label_line "Audio input device picker"
    :: take 302 (drop 353 long_settings)
    ++ label_line "Transcription mode picker"
    :: take 15 (drop 655 long_settings)
    ++ label_line "Preferred locale picker"
    :: drop 670 long_settings.
Proof. apply settings_all_labels. vm_compute. reflexivity. Defined.

(** * Reading back what was written *)

Lemma line_shape_nonempty (l : str) (b : bool) :
  line_shape l = Some b -> l <> [].
Proof. destruct l; [discriminate | discriminate]. Qed.

Lemma line_shape_no_cr (l : str) (b : bool) :
  line_shape l = Some b -> 13%N ∉ l.
Proof.
  induction l as [| c l IH]; intros H; [apply not_elem_of_nil |].
  cbn [line_shape] in H.
  destruct (N.eqb_spec c 13) as [-> | Hc]; [discriminate |].
  apply not_elem_of_cons. split; [congruence |].
  destruct (c =? 10)%N.
  - destruct l; [apply not_elem_of_nil | discriminate].
  - destruct l as [| d l]; [apply not_elem_of_nil | exact (IH H)].
Qed.

Lemma lines_wf_no_cr (ls : list str) : lines_wf ls = true -> 13%N ∉ concat ls.
Proof.
  induction ls as [| l ls IH]; intros H; [apply not_elem_of_nil |].
  cbn [lines_wf] in H. cbn [concat]. rewrite elem_of_app.
  destruct (line_shape l) as [b |] eqn:E; [| discriminate].
  intros [Hl | Hls].
  - exact (line_shape_no_cr l b E Hl).
  - destruct b; [exact (IH H Hls) |].
    destruct ls; [by apply elem_of_nil in Hls | discriminate].
Qed.

(** A line that ends in its newline is a line of its own. *)
Lemma lines_of_complete (l s : str) :
  line_shape l = Some true -> lines_of (l ++ s) = l :: lines_of s.
Proof.
  induction l as [| c l IH]; intros H; [discriminate |].
  cbn [line_shape] in H. destruct (c =? 13)%N; [discriminate |].
  cbn [app lines_of].
  destruct (c =? 10)%N eqn:E.
  - destruct l; [reflexivity | discriminate].
  - destruct l as [| d l]; [discriminate |].
    now rewrite (IH H).
Qed.

Lemma lines_of_partial (l : str) :
  line_shape l = Some false -> lines_of l = [l].
Proof.
  induction l as [| c l IH]; intros H; [discriminate |].
  cbn [line_shape] in H. destruct (c =? 13)%N; [discriminate |].
  cbn [lines_of].
  destruct (c =? 10)%N eqn:E.
  - destruct l; discriminate.
  - destruct l as [| d l]; [reflexivity |].
    now rewrite (IH H).
Qed.

Lemma lines_of_wf (s : str) : 13%N ∉ s -> lines_wf (lines_of s) = true.
Proof.
  induction s as [| c s IH]; intros Hcr; [reflexivity |].
  apply not_elem_of_cons in Hcr as [Hc Hs]. specialize (IH Hs).
  assert (E13 : (c =? 13)%N = false) by (apply N.eqb_neq; congruence).
  cbn [lines_of]. destruct (c =? 10)%N eqn:E.
  - cbn [lines_wf line_shape]. now rewrite E13, E.
  - destruct (lines_of s) as [| l ls].
    + cbn [lines_wf line_shape]. now rewrite E13, E.
    + cbn [lines_wf] in IH |- *. cbn [line_shape]. rewrite E13, E.
      destruct l as [| d l]; [discriminate | exact IH].
Qed.

Lemma lines_of_concat (ls : list str) :
  lines_wf ls = true -> lines_of (concat ls) = ls.
Proof.
  induction ls as [| l ls IH]; intros H; [reflexivity |].
  cbn [lines_wf] in H. cbn [concat].
  destruct (line_shape l) as [[|] |] eqn:E; [| | discriminate].
  - now rewrite (lines_of_complete _ _ E), (IH H).
  - destruct ls; [| discriminate]. cbn [concat]. rewrite app_nil_r.
    now apply lines_of_partial.
Qed.

(** What is read is a list of lines without carriage returns. *)
Lemma readlines_wf (raw : str) : lines_wf (readlines raw) = true.
Proof. apply lines_of_wf, universal_newlines_no_cr. Qed.

Lemma readlines_concat (ls : list str) :
  lines_wf ls = true -> readlines (concat ls) = ls.
Proof.
  intros H. rewrite readlines_id by now apply lines_wf_no_cr.
  now apply lines_of_concat.
Qed.

(** X9: [readlines] and [writelines] undo one another up to the line ends
    of the file.  The lines read from a file, written one after the other,
    give the text of the file with every line end made a newline, which is
    the text itself when it has no carriage return.  Lines without
    carriage returns that each end in their only newline, the last one
    possibly without it, are read back as they were written, and no other
    lists are: [readlines] returns no others. *)
Theorem readlines_writelines_inverse :
  (forall raw : str,
      writelines (readlines raw) = universal_newlines raw
      /\ (13%N ∉ raw -> writelines (readlines raw) = raw)
      /\ lines_wf (readlines raw) = true)
  /\ (forall ls : list str,
      lines_wf ls = true <-> readlines (writelines ls) = ls).
Proof.
  split.
  - intros raw. split; [apply writelines_readlines |].
    split; [| apply readlines_wf].
    intros H. rewrite writelines_readlines. now apply universal_newlines_id.
  - intros ls. split.
    + apply readlines_concat.
    + intros H. rewrite <- H. apply readlines_wf.
Qed.

Lemma readlines_writelines_inverse_witness :
  readlines (writelines ten_lines) = ten_lines.
Proof.
  apply (proj1 (proj2 readlines_writelines_inverse ten_lines)).
  vm_compute. reflexivity.
Defined.

(** Lines in front of other lines must all end in a newline. *)
Lemma lines_wf_app (a b : list str) :
  b <> [] ->
  lines_wf (a ++ b)
  = forallb (fun l => bool_decide (line_shape l = Some true)) a && lines_wf b.
Proof.
  intros Hb. induction a as [| l a IH]; [reflexivity |].
  cbn [app lines_wf forallb]. rewrite IH.
  destruct (line_shape l) as [[|] |]; try reflexivity.
  destruct (a ++ b) eqn:E; [| reflexivity].
  apply app_eq_nil in E as [_ E]. congruence.
Qed.

Lemma insert_step_wf (lines : list str) (it : Z * str) :
  line_shape it.2 = Some true -> lines_wf lines = true ->
  lines_wf (insert_step lines it) = true.
Proof.
  destruct it as [i t]. simpl. intros Ht Hwf. unfold insert_step.
  destruct (i <? len lines) eqn:E; [| exact Hwf].
  destruct lines as [| l ls].
  - destruct (list_insert_split i t []) as (k & _ & ->).
    rewrite take_nil, drop_nil. cbn [app lines_wf]. now rewrite Ht.
  - destruct (list_insert_before_end i t (l :: ls)) as (k & Hk & ->);
      [discriminate | lia |].
    rewrite <- (take_drop k (l :: ls)) in Hwf.
    assert (Hne : drop k (l :: ls) <> []).
    { intros Hd. apply (f_equal length) in Hd. rewrite length_drop in Hd.
      simpl in Hd, Hk. lia. }
    rewrite lines_wf_app in Hwf |- * by (exact Hne || discriminate).
    apply andb_prop in Hwf as [Ha Hb]. rewrite Ha. cbn [lines_wf andb].
    now rewrite Ht.
Qed.

Lemma insert_loop_wf (todo : list (Z * str)) (lines : list str) :
  Forall (fun it => line_shape it.2 = Some true) todo ->
  lines_wf lines = true -> lines_wf (insert_loop lines todo) = true.
Proof.
  intros H. revert lines.
  induction H as [| it todo Hit _ IH]; intros lines Hwf; cbn [insert_loop].
  - exact Hwf.
  - apply IH. now apply insert_step_wf.
Qed.

Lemma inserts_complete_lines :
  Forall (fun it => line_shape it.2 = Some true) inserts.
Proof. repeat (constructor; [vm_compute; reflexivity |]). constructor. Qed.

(** X10: the lines of the written SettingsView.swift are the lines the
    loop left in memory: no label shares a line with a neighbour, also when
    the file does not end in a newline, since the guard never lets a label
    go behind the last line. *)
Theorem settings_lines_as_inserted (w : World) (content : str) :
  files w !! settings_path = Some content ->
  exists written,
    files (patch_settings w).2 !! settings_path = Some written
    /\ readlines written = apply_positional_rules (readlines content) inserts.
Proof.
  intros Hc. rewrite (patch_settings_done w content Hc). cbn [snd files].
  eexists. split; [apply lookup_insert_eq |].
  apply readlines_concat. apply insert_loop_wf; [| apply readlines_wf].
  rewrite <- (sorted_reverse_perm inserts). apply inserts_complete_lines.
Qed.

Lemma settings_lines_as_inserted_witness :
  exists written,
    files (patch_settings short_settings_world).2 !! settings_path
    = Some written
    /\ readlines written
       = apply_positional_rules (readlines (writelines ten_lines)) inserts.
Proof.
  apply (settings_lines_as_inserted short_settings_world).
  vm_compute. reflexivity.
Defined.

(** * Errors of a rule list do not depend on the text *)

Lemma re_sub_raise_any (pattern repl c1 c2 : str) (e : exn) :
  re_sub pattern repl c1 = Raise e -> re_sub pattern repl c2 = Raise e.
Proof.
  unfold re_sub. destruct (re_compile pattern) as [c |]; simpl; [| auto].
  destruct (re_template c repl) as [tpl |]; simpl; [| auto].
  destruct (compiled_sub_total c tpl c1) as [out ->]. discriminate.
Qed.

(** X11: whether a rule list returns or raises is decided by the rules
    alone: it returns for every text when every rule compiles, and
    otherwise it raises the same error for every text, the error of the
    first rule that does not compile. *)
Theorem pattern_rules_error_independent (rules : list (str * str)) :
  ((forall content, exists out, apply_pattern_rules rules content = Ok out)
   <-> Forall (fun rule => rule_compiles rule.1 rule.2) rules)
  /\ (forall c1 c2 e,
      apply_pattern_rules rules c1 = Raise e ->
      apply_pattern_rules rules c2 = Raise e
      /\ exists before pattern repl after,
           rules = before ++ (pattern, repl) :: after
           /\ Forall (fun rule => rule_compiles rule.1 rule.2) before
           /\ forall content, re_sub pattern repl content = Raise e).
Proof.
  split.
  - split.
    + intros H. destruct (H []) as [out Hout].
      eapply apply_pattern_rules_ok_compile. exact Hout.
    + intros H content. now apply apply_pattern_rules_total.
  - induction rules as [| [pat repl] rules IH]; intros c1 c2 e H;
      cbn [apply_pattern_rules] in H |- *; [discriminate |].
    destruct (re_sub pat repl c1) as [c1' |] eqn:E1; simpl in H.
    + pose proof (re_sub_ok_compiles _ _ _ _ E1) as Hc.
      destruct (re_sub_total pat repl c2 Hc) as [c2' ->]. simpl.
      destruct (IH c1' c2' e H) as (H2 & before & p & r & after & -> & Hb & Hr).
      split; [exact H2 |].
      exists ((pat, repl) :: before), p, r, after.
      split; [reflexivity |]. split; [| exact Hr].
      constructor; [exact Hc | exact Hb].
    + injection H as ->.
      rewrite (re_sub_raise_any _ _ c1 c2 e E1). simpl.
      split; [reflexivity |].
      exists [], pat, repl, rules.
      split; [reflexivity |]. split; [constructor |].
      intros content. apply (re_sub_raise_any _ _ c1 content e E1).
Qed.

(** * Rules that only insert keep the whole text *)

Lemma drop_slices {A} (l : list A) (a b c : nat) :
  (a <= b <= c)%nat ->
  drop a l = take (b - a) (drop a l) ++ take (c - b) (drop b l) ++ drop c l.
Proof.
  intros H.
  rewrite <- (take_drop (b - a) (drop a l)) at 1. f_equal.
  rewrite drop_drop. replace (a + (b - a))%nat with b by lia.
  rewrite <- (take_drop (c - b) (drop b l)) at 1. f_equal.
  rewrite drop_drop. now replace (b + (c - b))%nat with c by lia.
Qed.

Lemma groups_sublist_expand (content : str) (mk : marks_t)
  (tpl : list tpart) :
  concat (map (group_text content mk) (template_groups tpl))
  `sublist_of` expand content mk tpl.
Proof.
  induction tpl as [| [c | g] tpl IH];
    cbn [expand template_groups map concat].
  - reflexivity.
  - now apply sublist_cons.
  - apply sublist_app; [reflexivity | exact IH].
Qed.

Section insert_only_text.
Context (p : Pattern) (tpl : list tpart) (content : str).
Hypothesis Hio : inserts_only p tpl = true.

(** The matched text stands in what replaces it. *)
Lemma inserts_only_expand_sublist (ma : bool) (q : nat) (m : Match) :
  attempt p content ma q = Some m ->
  take (m_end m - m_start m) (drop (m_start m) content)
  `sublist_of` expand content (m_marks m) tpl.
Proof using Hio.
  intros Ha. pose proof Hio as H. unfold inserts_only in H.
  apply andb_prop in H as [H Hg]. apply andb_prop in H as [Ht Hc].
  apply bool_decide_eq_true in Hg, Hc.
  apply attempt_inv in Ha as [Hs Hm].
  destruct (tiled_match content ma q (code p) 0 false q
              (replicate (2 * groups p) None) (m_end m) (m_marks m) q Ht)
    as [H _]; [rewrite length_replicate; lia | exact Hm | reflexivity |].
  rewrite Hs, <- H, Hc, <- Hg. apply groups_sublist_expand.
Qed.

Lemma splice_sublist (ms : list Match) :
  forall (ma : bool) (pos : nat),
  all_matches p content ma pos ms ->
  drop pos content `sublist_of` splice content tpl pos ms.
Proof using Hio.
  induction ms as [| m ms IH]; intros ma pos H; cbn [splice].
  - reflexivity.
  - destruct H as (Hb & Ha & _ & Hrest).
    pose proof (inserts_only_expand_sublist _ _ _ Ha) as He.
    apply attempt_inv in Ha as [_ Hm].
    apply sre_match_bounds in Hm as [Hm _]. rewrite length_drop in Hm.
    pose proof (drop_slices content pos (m_start m) (m_end m)
                  ltac:(lia)) as Hsl.
    rewrite Hsl at 1.
    apply sublist_app; [reflexivity |].
    apply sublist_app; [exact He | exact (IH _ _ Hrest)].
Qed.

Lemma pattern_sub_sublist (out : str) :
  pattern_sub p tpl content = Ok out -> content `sublist_of` out.
Proof using Hio.
  intros H. destruct (pattern_sub_splice p tpl content) as [Hs _].
  rewrite Hs in H. injection H as <-.
  rewrite <- (drop_0 content) at 1.
  apply (splice_sublist _ false 0), pattern_finditer_all_matches.
Qed.

End insert_only_text.

Lemma main_label_rules_insert_only :
  Forall (fun rule => rule_inserts_only rule = true) (take 2 main_rules).
Proof. repeat (constructor; [vm_compute; reflexivity |]). constructor. Qed.

(** X12: rules whose groups tile the pattern and whose template writes the
    groups back in order delete nothing and change nothing: the old text
    is left standing in the new one, character for character and in order,
    with the inserted text in between.  The ten rules of HUDView.swift are
    such rules. *)
Theorem pattern_rules_only_add (rules : list (str * str))
  (content out : str) :
  Forall (fun rule => rule_inserts_only rule = true) rules ->
  apply_pattern_rules rules content = Ok out ->
  content `sublist_of` out.
Proof.
  intros H. revert content.
  induction H as [| [pat repl] rules Hr _ IH]; intros content Ho;
    cbn [apply_pattern_rules] in Ho.
  - injection Ho as <-. reflexivity.
  - destruct (re_sub pat repl content) as [c' |] eqn:E; simpl in Ho;
      [| discriminate].
    etransitivity; [| exact (IH c' Ho)].
    unfold rule_inserts_only in Hr. simpl in Hr.
    destruct (compile pat) as [p | |] eqn:Hp; try discriminate.
    destruct (parse_template repl (groups p)) as [tpl | |] eqn:Ht;
      try discriminate.
    rewrite (re_sub_compiled _ _ _ _ _ Hp Ht) in E.
    exact (pattern_sub_sublist p tpl content Hr c' E).
Qed.

(** * A match can be read off the matched text *)

Lemma atoms_disjoint_sound (a b : atom) (c : N) :
  atoms_disjoint a b = true -> atom_matches a c = true ->
  atom_matches b c = false.
Proof.
  destruct a as [x |], b as [y |]; simpl; intros Hd Ha; try discriminate.
  - apply N.eqb_eq in Ha. subst c. apply negb_true_iff in Hd. exact Hd.
  - apply N.eqb_eq in Ha. subst c. now apply negb_true_iff in Hd.
  - apply negb_true_iff in Hd. apply N.eqb_neq. intros ->. congruence.
Qed.

(** The backtracking loop of a greedy repeat, over any continuation. *)
Lemma repeat_loop_none {R} (f : nat -> option R) (min n : nat) :
  (forall j, (j <= n)%nat -> f j = None) ->
  (fix try (j : nat) : option R :=
     match f j with
     | Some r => Some r
     | None =>
         match j with
         | O => None
         | S j' => if (j' <? min)%nat then None else try j'
         end
     end) n = None.
Proof.
  induction n as [| n IH]; intros H.
  - now rewrite (H 0%nat) by lia.
  - rewrite (H (S n)) by lia. destruct (n <? min)%nat; [reflexivity |].
    apply IH. intros j Hj. apply H. lia.
Qed.

(** When no shorter run can be continued, the loop is decided by the whole
    run. *)
Lemma repeat_loop_longest {R} (f : nat -> option R) (min n : nat) :
  (forall j, (j < n)%nat -> f j = None) ->
  (fix try (j : nat) : option R :=
     match f j with
     | Some r => Some r
     | None =>
         match j with
         | O => None
         | S j' => if (j' <? min)%nat then None else try j'
         end
     end) n = f n.
Proof.
  intros H. destruct n as [| n].
  - destruct (f 0%nat); reflexivity.
  - destruct (f (S n)) eqn:E; [reflexivity |].
    destruct (n <? min)%nat; [reflexivity |].
    apply repeat_loop_none. intros j Hj. apply H. lia.
Qed.

Lemma next_atom_fail (k : list op) (b : atom) (ma : bool) (start pos : nat)
  (c : N) (s : str) (mk : marks_t) :
  next_atom k = Some b -> atom_matches b c = false ->
  sre_match k ma start pos (c :: s) mk = None.
Proof.
  revert mk. induction k as [| o k IH]; intros mk Hn Hb; [discriminate |].
  destruct o as [a | n | min a]; cbn [next_atom] in Hn; [| | discriminate].
  - injection Hn as ->. cbn [sre_match]. now rewrite Hb.
  - cbn [sre_match]. now apply IH.
Qed.

Lemma next_atom_consumes (k : list op) (b : atom) (ma : bool)
  (start pos : nat) (s : str) (mk : marks_t) (e : nat) (mk' : marks_t) :
  next_atom k = Some b ->
  sre_match k ma start pos s mk = Some (e, mk') ->
  (pos < e)%nat /\ exists c s', s = c :: s' /\ atom_matches b c = true.
Proof.
  revert mk. induction k as [| o k IH]; intros mk Hn Hm; [discriminate |].
  destruct o as [a | n | min a]; cbn [next_atom] in Hn; [| | discriminate].
  - injection Hn as ->. cbn [sre_match] in Hm.
    destruct s as [| c s']; [discriminate |].
    destruct (atom_matches b c) eqn:Hb; [| discriminate].
    apply sre_match_bounds in Hm as [Hm _].
    split; [lia | eauto].
  - cbn [sre_match] in Hm. eapply IH; eauto.
Qed.

Lemma count_run_lookup (a : atom) (s : str) (j : nat) :
  (j < count_run a s)%nat ->
  exists c s', drop j s = c :: s' /\ atom_matches a c = true.
Proof.
  revert j. induction s as [| c s IH]; intros j Hj; cbn [count_run] in Hj;
    [lia |].
  destruct (atom_matches a c) eqn:Ha; [| lia].
  destruct j as [| j]; [exists c, s; auto |].
  cbn [drop]. apply IH. lia.
Qed.

(** A run that stops at a character of the text is the same run in any
    text that agrees up to that character. *)
Lemma count_run_take (a : atom) (s t : str) (m : nat) :
  (count_run a s < m)%nat -> (count_run a s < length s)%nat ->
  count_run a (take m s ++ t) = count_run a s.
Proof.
  revert m. induction s as [| c s IH]; intros m Hm Hl; cbn [count_run] in *;
    [simpl in Hl; lia |].
  destruct m as [| m]; [lia |]. cbn [take app count_run].
  destruct (atom_matches a c); [| reflexivity].
  f_equal. apply IH; [lia | simpl in Hl; lia].
Qed.

(** With delimited repeats a match is decided by the matched text alone:
    the same text matches wherever it stands and whatever follows it. *)
Lemma sre_match_delimited (code : list op) :
  repeats_delimited code = true ->
  forall (start pos : nat) (s : str) (mk : marks_t) (e : nat)
         (mk' : marks_t),
  sre_match code false start pos s mk = Some (e, mk') ->
  forall (start' pos' : nat) (t : str) (mk2 : marks_t),
  exists mk2',
    sre_match code false start' pos' (take (e - pos) s ++ t) mk2
    = Some ((pos' + (e - pos))%nat, mk2').
Proof.
  induction code as [| o k IH]; intros Hd start pos s mk e mk' Hm
    start' pos' t mk2.
  - cbn [sre_match] in Hm |- *. simpl in Hm |- *. injection Hm as <- <-.
    rewrite Nat.sub_diag, Nat.add_0_r. eauto.
  - pose proof (sre_match_bounds _ _ _ _ _ _ _ _ Hm) as [Hb _].
    destruct o as [a | n | min a].
    + cbn [repeats_delimited] in Hd. cbn [sre_match] in Hm.
      destruct s as [| c s']; [discriminate |].
      destruct (atom_matches a c) eqn:Ha; [| discriminate].
      pose proof (sre_match_bounds _ _ _ _ _ _ _ _ Hm) as [Hb' _].
      destruct (IH Hd _ _ _ _ _ _ Hm start' (S pos') t mk2) as [mk2' H2].
      exists mk2'.
      replace (e - pos)%nat with (S (e - S pos)) by lia.
      cbn [take app sre_match]. rewrite Ha, H2. f_equal. f_equal. lia.
    + cbn [repeats_delimited] in Hd. cbn [sre_match] in Hm |- *.
      apply (IH Hd _ _ _ _ _ _ Hm).
    + cbn [repeats_delimited] in Hd. apply andb_prop in Hd as [Hnext Hd].
      destruct (next_atom k) as [b |] eqn:Hn; [| discriminate].
      assert (Hfail : forall (s0 : str) start0 pos0 mk0 j,
                 (j < count_run a s0)%nat ->
                 sre_match k false start0 (pos0 + j) (drop j s0) mk0 = None).
      { intros s0 start0 pos0 mk0 j Hj.
        destruct (count_run_lookup a s0 j Hj) as (c & s' & -> & Ha).
        apply (next_atom_fail k b); [exact Hn |].
        now apply (atoms_disjoint_sound a b). }
      cbn [sre_match] in Hm. cbv zeta in Hm.
      destruct (count_run a s <? min)%nat eqn:Emin; [discriminate |].
      rewrite (repeat_loop_longest
                 (fun j => sre_match k false start (pos + j) (drop j s) mk))
        in Hm by (intros j Hj; now apply Hfail).
      destruct (next_atom_consumes _ _ _ _ _ _ _ _ _ Hn Hm)
        as (Hlt & c & s' & Hdrop & Hbc).
      assert (Hlen : (count_run a s < length s)%nat).
      { apply (f_equal length) in Hdrop. rewrite length_drop in Hdrop.
        simpl in Hdrop. lia. }
      assert (Hrun : count_run a (take (e - pos) s ++ t) = count_run a s)
        by (apply count_run_take; lia).
      destruct (IH Hd _ _ _ _ _ _ Hm start' (pos' + count_run a s)%nat t mk2)
        as [mk2' H2].
      exists mk2'. cbn [sre_match]. cbv zeta. rewrite Hrun, Emin.
      rewrite (repeat_loop_longest
                 (fun j => sre_match k false start' (pos' + j)
                             (drop j (take (e - pos) s ++ t)) mk2)).
      * rewrite drop_app_le by (rewrite length_take; lia).
        replace (e - pos)%nat
          with (count_run a s + (e - (pos + count_run a s)))%nat by lia.
        rewrite <- take_drop_commute. rewrite H2. f_equal. f_equal. lia.
      * intros j Hj. apply Hfail. now rewrite Hrun.
Qed.

(** * The label rules fire again on their own output *)

Lemma expand_no_group (tpl : list tpart) :
  template_groups tpl = [] ->
  exists text, forall content mk, expand content mk tpl = text.
Proof.
  induction tpl as [| [c | g] tpl IH]; cbn [template_groups]; intros H.
  - exists []. reflexivity.
  - destruct (IH H) as [text Ht]. exists (c :: text).
    intros content mk. cbn [expand]. now rewrite Ht.
  - discriminate.
Qed.

(** A template with one group reference writes a text, the group and
    another text. *)
Lemma expand_one_group (tpl : list tpart) (g : nat) :
  template_groups tpl = [g] ->
  exists before after, forall content mk,
    expand content mk tpl = before ++ group_text content mk g ++ after.
Proof.
  induction tpl as [| [c | g'] tpl IH]; cbn [template_groups]; intros H.
  - discriminate.
  - destruct (IH H) as (before & after & Hx). exists (c :: before), after.
    intros content mk. cbn [expand]. now rewrite Hx.
  - injection H as -> H. destruct (expand_no_group tpl H) as [after Ha].
    exists [], after. intros content mk. cbn [expand]. now rewrite Ha.
Qed.

Section reinserting.
Context (p : Pattern) (tpl : list tpart).
Hypothesis Hre : reinserts p tpl = true.

Lemma reinserts_inv :
  inserts_only p tpl = true /\ groups p = 1%nat
  /\ repeats_delimited (code p) = true /\ (0 < template_newlines tpl)%nat.
Proof using Hre.
  unfold reinserts in Hre.
  apply andb_prop in Hre as [H Hn]. apply andb_prop in H as [H Hd].
  apply andb_prop in H as [Hio Hg].
  apply Nat.eqb_eq in Hg. apply Nat.ltb_lt in Hn. auto.
Qed.

(** What replaces a match is the matched text between two fixed texts. *)
Lemma reinserts_expand :
  exists before after, forall content ma q m,
    attempt p content ma q = Some m ->
    expand content (m_marks m) tpl
    = before ++ take (m_end m - m_start m) (drop (m_start m) content)
      ++ after.
Proof using Hre.
  destruct reinserts_inv as (Hio & Hg & _ & _).
  unfold inserts_only in Hio.
  apply andb_prop in Hio as [H Htg]. apply andb_prop in H as [Ht Hc].
  apply bool_decide_eq_true in Htg, Hc. rewrite Hg in Htg, Hc.
  destruct (expand_one_group tpl 1 Htg) as (before & after & Hx).
  exists before, after. intros content ma q m Ha.
  apply attempt_inv in Ha as [Hs Hm].
  destruct (tiled_match content ma q (code p) 0 false q
              (replicate (2 * groups p) None) (m_end m) (m_marks m) q Ht)
    as [H _]; [rewrite length_replicate; lia | exact Hm | reflexivity |].
  rewrite Hc in H. cbn [seq map concat] in H. rewrite app_nil_r in H.
  now rewrite Hx, H, Hs.
Qed.

(** After a pass that changed the text, the pattern matches the new text. *)
Lemma reinserts_rematch (content out : str) :
  pattern_sub p tpl content = Ok out -> out <> content ->
  pattern_finditer p out <> [].
Proof using Hre.
  intros Hsub Hne Hnil.
  destruct reinserts_inv as (_ & _ & Hd & _).
  destruct (pattern_sub_splice p tpl content) as [Hs _].
  rewrite Hs in Hsub. injection Hsub as <-.
  pose proof (pattern_finditer_all_matches p content) as Hall.
  destruct (pattern_finditer p content) as [| m ms].
  { apply Hne. cbn [splice]. apply drop_0. }
  cbn [splice all_matches] in Hall, Hnil, Hne |- *.
  destruct Hall as (Hb & Ha & _ & _).
  destruct reinserts_expand as (before & after & Hx).
  rewrite (Hx _ _ _ _ Ha) in Hnil. clear Hne.
  apply attempt_inv in Ha as [Hst Hm].
  cbn [andb] in Hm.
  set (rest := splice content tpl (m_end m) ms) in *.
  set (x := take (m_end m - m_start m) (drop (m_start m) content)) in *.
  set (pre := take (m_start m - 0) (drop 0 content) ++ before).
  assert (Hout : take (m_start m - 0) (drop 0 content)
                 ++ (before ++ x ++ after) ++ rest
                 = pre ++ x ++ (after ++ rest)).
  { unfold pre. now rewrite <- !app_assoc. }
  rewrite Hout in Hnil.
  pose proof (pattern_finditer_all_matches p (pre ++ x ++ after ++ rest))
    as Hall2.
  rewrite Hnil in Hall2. cbn [all_matches] in Hall2.
  specialize (Hall2 (length pre)).
  rewrite length_app in Hall2. specialize (Hall2 ltac:(lia)).
  unfold attempt in Hall2. rewrite drop_app_length in Hall2.
  destruct (sre_match_delimited (code p) Hd _ _ _ _ _ _ Hm
              (length pre) (length pre) (after ++ rest)
              (replicate (2 * groups p) None)) as [mk2 H2].
  fold x in H2. cbn [andb] in Hall2. rewrite H2 in Hall2. discriminate.
Qed.

Lemma reinserts_second_pass (content out : str) :
  pattern_sub p tpl content = Ok out -> out <> content ->
  exists out2,
    pattern_sub p tpl out = Ok out2 /\ (count_nl out < count_nl out2)%nat.
Proof using Hre.
  intros Hsub Hne.
  destruct reinserts_inv as (Hio & _ & _ & Hn).
  destruct (pattern_sub_total p tpl out) as [out2 H2].
  exists out2. split; [exact H2 |].
  rewrite (pattern_sub_count_nl p tpl out Hio out2 H2).
  pose proof (reinserts_rematch content out Hsub Hne) as Hm.
  destruct (pattern_finditer p out); [congruence |]. simpl. lia.
Qed.

End reinserting.

(** X13: a rule with one group around its whole pattern, delimited
    repeats and a template that writes the group back with new lines is
    not idempotent: if applying it changed the text, the pattern matches
    its own output, so applying it again inserts the lines again.  All
    rules of the script are of this kind except the rule for the
    accessibility hint and the rule for the helper of MainView.swift. *)
Theorem label_rule_fires_again :
  (forall pattern repl content out : str,
      rule_reinserts (pattern, repl) = true ->
      re_sub pattern repl content = Ok out -> out <> content ->
      exists out2,
        re_sub pattern repl out = Ok out2
        /\ (count_nl out < count_nl out2)%nat
        /\ out2 <> out)
  /\ (forall rule, rule ∈ replacements ++ main_rules ->
      rule_reinserts rule = true
      \/ replacements !! 2%nat = Some rule
      \/ rule = (main_pattern_3, helper)).
Proof.
  split.
  - intros pattern repl content out Hr Hsub Hne.
    unfold rule_reinserts in Hr. simpl in Hr.
    destruct (compile pattern) as [p | |] eqn:Hp; try discriminate.
    destruct (parse_template repl (groups p)) as [tpl | |] eqn:Ht;
      try discriminate.
    rewrite (re_sub_compiled _ _ _ _ _ Hp Ht) in Hsub.
    destruct (reinserts_second_pass p tpl Hr content out Hsub Hne)
      as (out2 & H2 & Hlt).
    exists out2. rewrite (re_sub_compiled _ _ _ _ _ Hp Ht).
    repeat split; [exact H2 | exact Hlt |].
    intros ->. lia.
  - intros rule Hin. unfold replacements, main_rules in Hin.
    cbn [app] in Hin.
    repeat (apply elem_of_cons in Hin as [-> | Hin];
            [first [ left; vm_compute; reflexivity
                   | right; left; reflexivity
                   | right; right; reflexivity ] |]).
    by apply elem_of_nil in Hin.
Qed.

(** * The helper rule of MainView.swift fires again on its own output *)

Lemma expand_literals (content : str) (mk : marks_t) (text : str) :
  expand content mk (map TLiteral text) = text.
Proof. induction text as [| c text IH]; simpl; [| rewrite IH]; reflexivity. Qed.

Lemma Ok_inj {A} (a b : A) : Ok a = Ok b -> a = b.
Proof. congruence. Qed.

(** An attempt that succeeds somewhere is a match for [finditer]. *)
Lemma attempt_finditer (p : Pattern) (content : str) (q : nat) (m : Match) :
  (q <= length content)%nat -> attempt p content false q = Some m ->
  pattern_finditer p content <> [].
Proof.
  intros Hq Ha Hnil.
  pose proof (pattern_finditer_all_matches p content) as Hall.
  rewrite Hnil in Hall. cbn [all_matches] in Hall.
  specialize (Hall q ltac:(lia)). cbn [andb] in Hall. congruence.
Qed.

(** The helper is a plain text for [re.sub], it ends in a match of the
    pattern, and a match of the pattern begins with the closing brace. *)
Lemma helper_rule_compiled :
  exists p,
    compile main_pattern_3 = Parsed p
    /\ parse_template helper (groups p) = Parsed (map TLiteral helper)
    /\ (forall (q : nat) (rest : str),
        is_Some (sre_match (code p) false q q (helper_tail ++ rest)
                   (replicate (2 * groups p) None)))
    /\ (forall ma start pos s mk r,
        sre_match (code p) ma start pos s mk = Some r ->
        exists s', s = 125%N :: s').
Proof.
  eexists. split; [vm_compute; reflexivity |].
  split; [vm_compute; reflexivity |]. split.
  - intros q rest. vm_compute. eauto.
  - intros ma start pos s mk r H. cbn [code sre_match] in H.
    destruct s as [| c s']; [discriminate |].
    destruct (atom_matches (LITERAL 125) c) eqn:E; [| discriminate].
    simpl in E. apply N.eqb_eq in E. subst c. eauto.
Qed.

Lemma helper_ends_in_tail : exists head, helper = head ++ helper_tail.
Proof.
  exists (take (length helper - length helper_tail) helper).
  vm_compute. reflexivity.
Qed.

(** X14: the rule that adds the helper property to MainView.swift is not
    idempotent: when it has changed the text, the new text holds the
    helper, whose last lines are the brace and the marker comment the
    pattern looks for, so that the rule applies again and changes the text
    again. *)
Theorem helper_rule_fires_again (content out : str) :
  re_sub main_pattern_3 helper content = Ok out -> out <> content ->
  (exists before after, out = before ++ helper ++ after)
  /\ exists out2,
       re_sub main_pattern_3 helper out = Ok out2 /\ out2 <> out.
Proof.
  intros Hsub Hne.
  destruct helper_rule_compiled as (p & Hp & Ht & Htail & Hbrace).
  rewrite (re_sub_compiled _ _ content _ _ Hp Ht) in Hsub.
  rewrite (re_sub_compiled _ _ out _ _ Hp Ht).
  assert (Hfirst : forall text ms,
             pattern_finditer p text = ms -> ms <> [] ->
             exists s rest c tl,
               splice text (map TLiteral helper) 0 ms
               = take s text ++ helper ++ rest
               /\ drop s text = c :: tl /\ c = 125%N).
  { intros text ms Hms Hnil.
    pose proof (pattern_finditer_all_matches p text) as Hall.
    rewrite Hms in Hall. destruct ms as [| m ms]; [congruence |].
    cbn [all_matches splice] in Hall |- *.
    destruct Hall as (_ & Ha & _ & _).
    apply attempt_inv in Ha as [_ Hm].
    destruct (Hbrace _ _ _ _ _ _ Hm) as [tl Htl].
    exists (m_start m), (splice text (map TLiteral helper) (m_end m) ms),
      125%N, tl.
    rewrite expand_literals, Nat.sub_0_r, drop_0. auto. }
  destruct (pattern_sub_splice p (map TLiteral helper) content) as [Hs _].
  rewrite Hs in Hsub. apply Ok_inj in Hsub. subst out.
  assert (Hms : pattern_finditer p content <> []).
  { intros Hnil. apply Hne. rewrite Hnil. cbn [splice]. apply drop_0. }
  destruct (Hfirst content _ eq_refl Hms) as (s & rest & _ & _ & Hout & _).
  rewrite Hout. clear Hne Hs Hms Hout.
  split; [eauto |].
  destruct (pattern_sub_splice p (map TLiteral helper)
              (take s content ++ helper ++ rest)) as [Hs2 _].
  rewrite Hs2. eexists. split; [reflexivity |].
  destruct helper_ends_in_tail as [head Hhead].
  assert (Hms2 : pattern_finditer p (take s content ++ helper ++ rest) <> []).
  { destruct (Htail (length (take s content ++ head)) rest) as [[e mk] Hm].
    apply (attempt_finditer p _ (length (take s content ++ head))
             {| m_start := length (take s content ++ head);
                m_end := e; m_marks := mk |}).
    - rewrite Hhead, !length_app. lia.
    - unfold attempt.
      replace (take s content ++ helper ++ rest)
        with ((take s content ++ head) ++ helper_tail ++ rest)
        by (rewrite Hhead, <- !app_assoc; reflexivity).
      rewrite drop_app_length, Hm. reflexivity. }
  destruct (Hfirst _ _ eq_refl Hms2) as (s2 & rest2 & c & tl & -> & Hd & Hc).
  intros Heq.
  rewrite <- (take_drop s2 (take s content ++ helper ++ rest)) in Heq at 2.
  apply app_inv_head in Heq. rewrite Hd, Hc in Heq.
  discriminate.
Qed.

(** * A label rule puts its text after each match *)

Lemma expand_literal_text (content : str) (mk : marks_t) (tpl : list tpart)
  (text : str) :
  literal_text tpl = Some text -> expand content mk tpl = text.
Proof.
  revert text. induction tpl as [| [c | g] tpl IH]; intros text H;
    cbn [literal_text] in H.
  - now injection H as <-.
  - destruct (literal_text tpl) as [t |]; [| discriminate].
    injection H as <-. cbn [expand]. now rewrite (IH t).
  - discriminate.
Qed.

(** The one group of a tiled pattern is the whole match. *)
Lemma one_group_text (p : Pattern) (tpl : list tpart) (content : str)
  (ma : bool) (q : nat) (m : Match) :
  inserts_only p tpl = true -> groups p = 1%nat ->
  attempt p content ma q = Some m ->
  group_text content (m_marks m) 1
  = take (m_end m - m_start m) (drop (m_start m) content).
Proof.
  intros Hio Hg Ha. unfold inserts_only in Hio.
  apply andb_prop in Hio as [H _]. apply andb_prop in H as [Ht Hc].
  apply bool_decide_eq_true in Hc. rewrite Hg in Hc.
  apply attempt_inv in Ha as [Hs Hm].
  destruct (tiled_match content ma q (code p) 0 false q
              (replicate (2 * groups p) None) (m_end m) (m_marks m) q Ht)
    as [H _]; [rewrite length_replicate; lia | exact Hm | reflexivity |].
  rewrite Hc in H. cbn [seq map concat] in H. rewrite app_nil_r in H.
  now rewrite H, Hs.
Qed.

Lemma splice_insert_at (p : Pattern) (tpl : list tpart) (content text : str)
  (ms : list Match) :
  inserts_only p (TGroup 1 :: tpl) = true -> groups p = 1%nat ->
  literal_text tpl = Some text ->
  forall (ma : bool) (pos : nat),
  (pos <= length content)%nat ->
  all_matches p content ma pos ms ->
  splice content (TGroup 1 :: tpl) pos ms
  = insert_at content text pos (m_end <$> ms)
  /\ length (insert_at content text pos (m_end <$> ms))
     = (length content - pos + length ms * length text)%nat.
Proof.
  intros Hio Hg Ht.
  induction ms as [| m ms IH]; intros ma pos Hpos H;
    cbn [splice fmap list_fmap insert_at].
  - split; [reflexivity |]. rewrite length_drop. simpl. lia.
  - destruct H as (Hb & Ha & _ & Hrest).
    pose proof (one_group_text _ _ _ _ _ _ Hio Hg Ha) as Hx.
    apply attempt_inv in Ha as [_ Hm].
    apply sre_match_bounds in Hm as [Hm _]. rewrite length_drop in Hm.
    destruct (IH _ (m_end m) ltac:(lia) Hrest) as [IH1 IH2].
    cbn [expand]. rewrite Hx, (expand_literal_text _ _ _ _ Ht).
    split.
    + rewrite IH1, (slice_app content pos (m_start m) (m_end m)) by lia.
      now rewrite <- !app_assoc.
    + change (list_fmap Match nat m_end ms) with (m_end <$> ms).
      rewrite !length_app, IH2, length_take, length_drop.
      cbn [length]. lia.
Qed.

(** X15: a rule with one group around its whole pattern and a template of
    the form [\1text] puts [text] directly after each match and changes
    nothing else: the new text is the old one with [text] inserted at the
    offsets where the matches end, and it is longer by one [text] per
    match.  All rules of the script are of this form except the rule for
    the accessibility hint, whose text goes between its two groups, and the
    rule for the helper of MainView.swift, which replaces its match. *)
Theorem label_rule_inserts_after_match :
  (forall pattern repl text content : str,
      rule_appends (pattern, repl) = Some text ->
      re_sub pattern repl content
      = Ok (insert_at content text 0 (match_ends pattern content))
      /\ length (insert_at content text 0 (match_ends pattern content))
         = (length content
            + length (match_ends pattern content) * length text)%nat)
  /\ (forall rule, rule ∈ replacements ++ main_rules ->
      is_Some (rule_appends rule)
      \/ replacements !! 2%nat = Some rule
      \/ rule = (main_pattern_3, helper)).
Proof.
  split.
  - intros pattern repl text content Hr.
    unfold rule_appends in Hr. unfold match_ends. simpl in Hr.
    destruct (compile pattern) as [p | |] eqn:Hp; try discriminate.
    destruct (parse_template repl (groups p)) as [tpl | |] eqn:Ht;
      try discriminate.
    destruct tpl as [| [c | g] tpl]; try discriminate.
    destruct g as [| [| g]]; try discriminate.
    destruct (inserts_only p (TGroup 1 :: tpl) && (groups p =? 1)%nat) eqn:E;
      [| discriminate].
    apply andb_prop in E as [Hio Hg]. apply Nat.eqb_eq in Hg.
    rewrite (re_sub_compiled _ _ _ _ _ Hp Ht), (re_compile_fragment _ _ Hp).
    change (compiled_finditer (Frag p) content)
      with (pattern_finditer p content).
    destruct (pattern_sub_splice p (TGroup 1 :: tpl) content) as [-> _].
    destruct (splice_insert_at p tpl content text (pattern_finditer p content)
                Hio Hg Hr false 0 ltac:(lia)
                (pattern_finditer_all_matches p content)) as [H1 H2].
    rewrite H1. split; [reflexivity |].
    rewrite H2, length_fmap. lia.
  - intros rule Hin. unfold replacements, main_rules in Hin.
    cbn [app] in Hin.
    repeat (apply elem_of_cons in Hin as [-> | Hin];
            [first [ left; vm_compute; eauto; fail
                   | right; left; reflexivity
                   | right; right; reflexivity ] |]).
    by apply elem_of_nil in Hin.
Qed.

(** * Final newlines *)

Lemma main_rules_end_in_visible :
  Forall (fun rule => rule_ends_in_visible rule = true) main_rules.
Proof. repeat (constructor; [vm_compute; reflexivity |]). constructor. Qed.

Lemma last_concat {A} (ls : list (list A)) (l : list A) :
  last ls = Some l -> l <> [] -> last (concat ls) = last l.
Proof.
  induction ls as [| x ls IH]; intros H Hne; [discriminate |].
  destruct ls as [| y ls].
  - injection H as ->. simpl. now rewrite app_nil_r.
  - change (concat (x :: y :: ls)) with (x ++ concat (y :: ls)).
    rewrite last_app.
    change (last (x :: y :: ls)) with (last (y :: ls)) in H.
    rewrite (IH H Hne).
    destruct (last l) eqn:El; [reflexivity |].
    apply last_None in El. congruence.
Qed.

Lemma lines_wf_nonempty (ls : list str) (l : str) :
  lines_wf ls = true -> l ∈ ls -> l <> [].
Proof.
  induction ls as [| x ls IH]; intros Hwf Hin; [by apply elem_of_nil in Hin |].
  cbn [lines_wf] in Hwf.
  destruct (line_shape x) as [b |] eqn:E; [| discriminate].
  apply elem_of_cons in Hin as [-> | Hin].
  - eapply line_shape_nonempty. exact E.
  - destruct b; [now apply IH |].
    destruct ls; [by apply elem_of_nil in Hin | discriminate].
Qed.

(** The positional rules keep the last character of the text read. *)
Lemma positional_rules_last_char (raw : str) (ins : list (Z * str)) :
  raw <> [] ->
  last (writelines (apply_positional_rules (readlines raw) ins))
  = last (universal_newlines raw).
Proof.
  intros Hne.
  assert (Hlines : readlines raw <> []).
  { unfold readlines.
    destruct (universal_newlines raw) as [| c s] eqn:E;
      [now apply universal_newlines_nil in E | apply lines_of_nonempty]. }
  pose proof (insert_loop_last (sorted_reverse ins) _ Hlines) as Hlast.
  fold (apply_positional_rules (readlines raw) ins) in Hlast.
  destruct (last (readlines raw)) as [l |] eqn:El;
    [| apply last_None in El; congruence].
  assert (Hl : l <> []).
  { apply (lines_wf_nonempty (readlines raw)); [apply readlines_wf |].
    rewrite last_lookup in El. eapply list_elem_of_lookup_2. exact El. }
  unfold writelines.
  rewrite (last_concat _ l Hlast Hl).
  pose proof (last_concat _ l El Hl) as Hc.
  fold (writelines (readlines raw)) in Hc.
  now rewrite writelines_readlines in Hc.
Qed.

(** X16: the run takes the final newline from no file: whatever the
    outcome, a file whose text ended in a newline before the run exists
    after it with a text that ends in a newline. *)
Theorem run_keeps_final_newline (w : World) (path : string) (old : str) :
  files w !! path = Some old -> last old = Some 10%N ->
  exists new,
    files (run w).2 !! path = Some new /\ last new = Some 10%N.
Proof.
  intros Hold Hnl.
  destruct paths_distinct as (Hhm & Hhs & Hms).
  assert (Hins : forall (m : gmap string str) (q : string) (text : str),
             (q = path -> last text = Some 10%N) ->
             (exists new, m !! path = Some new /\ last new = Some 10%N) ->
             exists new,
               <[q := text]> m !! path = Some new /\ last new = Some 10%N).
  { intros m q text Hq Hm. destruct (decide (q = path)) as [-> | Hne].
    - exists text. rewrite lookup_insert_eq. auto.
    - now rewrite lookup_insert_ne by exact Hne. }
  pose proof (run_cases w) as H.
  destruct (files w !! hud_path) as [hud |] eqn:Hhud.
  2: { rewrite H. simpl. eauto. }
  destruct H as (hud' & Hhud' & H).
  assert (Hh : hud_path = path -> last hud' = Some 10%N).
  { intros <-. rewrite Hhud in Hold. injection Hold as ->.
    exact (apply_pattern_rules_last_newline replacements
             replacements_end_in_visible _ _ (universal_newlines_last _ Hnl)
             Hhud'). }
  destruct (files w !! main_path) as [main |] eqn:Hmain.
  2: { rewrite H. simpl. apply Hins; eauto. }
  destruct H as (main' & Hmain' & H).
  assert (Hm : main_path = path -> last main' = Some 10%N).
  { intros <-. rewrite Hmain in Hold. injection Hold as ->.
    exact (apply_pattern_rules_last_newline main_rules
             main_rules_end_in_visible _ _ (universal_newlines_last _ Hnl)
             Hmain'). }
  destruct (files w !! settings_path) as [settings |] eqn:Hset.
  2: { rewrite H. simpl. apply Hins; [exact Hm |]. apply Hins; eauto. }
  rewrite H. simpl. apply Hins; [| apply Hins; [exact Hm |]; apply Hins; eauto].
  intros <-. rewrite Hset in Hold. injection Hold as ->.
  rewrite positional_rules_last_char;
    [now apply universal_newlines_last | intros ->; discriminate].
Qed.

(** * Running the positional rules again *)

Lemma filter_length_mono {A} (P Q : A -> Prop) `{!forall x, Decision (P x)}
  `{!forall x, Decision (Q x)} (l : list A) :
  (forall x, P x -> Q x) ->
  (length (filter P l) <= length (filter Q l))%nat.
Proof.
  intros Himp. induction l as [| x l IH]; [reflexivity |].
  rewrite !filter_cons.
  destruct (decide (P x)) as [HP | HP].
  - rewrite decide_True by auto. simpl. lia.
  - destruct (decide (Q x)); simpl; lia.
Qed.

Lemma positional_rules_length (lines : list str) (ins : list (Z * str)) :
  length (apply_positional_rules lines ins)
  = (length lines
     + length (filter (fun it => (it.1 < len lines)%Z) (sorted_reverse ins)))%nat.
Proof.
  unfold apply_positional_rules.
  rewrite insert_loop_length. f_equal. f_equal.
  apply applied_inserts_filter.
Qed.

(** X17: the positional rules are not idempotent: a second pass over the
    output of a first one applies at least as many inserts as the first
    did, since the file has only grown; so a pass that changed the lines
    is followed by a pass that changes them again, and the labels are
    inserted once more at the same line numbers. *)
Theorem positional_rules_second_pass (lines : list str)
  (ins : list (Z * str)) :
  (length (apply_positional_rules lines ins) - length lines
   <= length (apply_positional_rules (apply_positional_rules lines ins) ins)
      - length (apply_positional_rules lines ins))%nat
  /\ (apply_positional_rules lines ins <> lines ->
      apply_positional_rules (apply_positional_rules lines ins) ins
      <> apply_positional_rules lines ins).
Proof.
  set (out := apply_positional_rules lines ins).
  pose proof (positional_rules_length lines ins) as H1. fold out in H1.
  pose proof (positional_rules_length out ins) as H2.
  assert (Hmono : (length (filter (fun it => (it.1 < len lines)%Z)
                             (sorted_reverse ins))
                   <= length (filter (fun it => (it.1 < len out)%Z)
                                (sorted_reverse ins)))%nat).
  { apply filter_length_mono. intros it Hit. unfold len in *. lia. }
  split; [lia |].
  intros Hne Heq.
  assert (Hzero : length (filter (fun it => (it.1 < len lines)%Z)
                            (sorted_reverse ins)) = 0%nat).
  { rewrite Heq in H2. lia. }
  apply Hne. unfold out, apply_positional_rules.
  rewrite insert_loop_applied.
  fold (applied_inserts lines ins). rewrite applied_inserts_filter.
  apply nil_length_inv in Hzero. now rewrite Hzero.
Qed.

Lemma positional_rules_second_pass_witness :
  apply_positional_rules (apply_positional_rules ten_lines example_inserts)
    example_inserts
  <> apply_positional_rules ten_lines example_inserts.
Proof.
  apply (proj2 (positional_rules_second_pass ten_lines example_inserts)).
  vm_compute. discriminate.
Defined.

End with_re.

(** * The statements on the stubs

    The rules of the script and of the examples are all within the
    fragment, so what follows is the same for every [Re]; it is stated for
    the one that has the fragment only. *)

#[local] Existing Instance fragment_only.

(** ** The pattern rules *)

(** On the rule [(a)], [\1b] and the text [xaya]. *)
Lemma pattern_rules_sequential_witness :
  re_sub (u "(a)") (u "\1b") (u "xaya") = Ok (u "xabyab")
  /\ leftmost_matches {| groups := 1;
                         code := [MARK 0; AT (LITERAL 97%N); MARK 1] |}
       (u "xaya") false 0
       [ {| m_start := 1; m_end := 2; m_marks := [Some 1; Some 2]%nat |};
         {| m_start := 3; m_end := 4; m_marks := [Some 3; Some 4]%nat |} ].
Proof.
  destruct (proj1 (proj2 (proj2 (pattern_rules_sequential
                                   [(u "(a)", u "\1b")] (u "xaya"))))
              (u "(a)") (u "\1b") (u "xaya")
              {| groups := 1; code := [MARK 0; AT (LITERAL 97%N); MARK 1] |}
              [TGroup 1; TLiteral 98%N] eq_refl eq_refl)
    as (Hsub & Hms & _).
  split; [exact Hsub | exact Hms].
Defined.

(** C3, as stated, fails: on the stub with the audio-level-meter marker one
    rule matches, once, and the file grows by two lines. *)
Lemma end_to_end_counterexample :
  apply_pattern_rules replacements meter_stub = Ok meter_patched
  /\ rules_matched replacements meter_stub = Ok 1%nat
  /\ line_count meter_stub = 5%nat
  /\ line_count meter_patched <> (line_count meter_stub + 1)%nat.
Proof. vm_compute. repeat split; discriminate. Qed.

(** On the stub with the retry marker. *)
Lemma end_to_end_scenario_witness :
  exists out n,
    apply_pattern_rules replacements retry_stub = Ok out
    /\ inserted_newlines replacements retry_stub = Ok n
    /\ count_nl out = (count_nl retry_stub + n)%nat
    /\ (last retry_stub = Some 10%N ->
        line_count out = (line_count retry_stub + n)%nat).
Proof. apply (proj2 (proj2 end_to_end_scenario) retry_stub). Defined.

(** C4, as stated, fails: the template is parsed before the content is
    searched, so a rule whose template is malformed raises although its
    pattern matches nowhere. *)
Lemma no_match_noop_counterexample :
  re_search (u "a") (u "xyz") = Ok None
  /\ re_sub (u "a") (u "\2") (u "xyz") = Raise re_error.
Proof. split; reflexivity. Qed.

(** On a rule with a repeat and a text without a match. *)
Lemma no_match_rule_is_noop_witness :
  re_sub (u "(a+)\s*") (u "\1\n") (u "xyz") = Ok (u "xyz").
Proof.
  apply (proj1 (no_match_rule_is_noop (u "(a+)\s*") (u "\1\n") (u "xyz")
                  (rule_compilesb_sound (u "(a+)\s*", u "\1\n") eq_refl))).
  reflexivity.
Defined.

(** On the accessibility-hint rule, which does not match its own
    output. *)
Lemma second_pass_identical_witness :
  apply_pattern_rules (take 1 (drop 2 replacements)) retry_patched
  = Ok retry_patched.
Proof.
  apply (second_pass_identical _ retry_stub).
  - vm_compute. reflexivity.
  - constructor; [vm_compute; reflexivity | constructor].
Defined.

(** ** The script *)

(** In a world that has HUDView.swift only. *)
Lemma read_failure_keeps_earlier_writes_witness :
  exists hud',
    apply_pattern_rules replacements (universal_newlines headline_stub)
    = Ok hud'
    /\ (run hud_only_world).1 = Raise (OSError main_path)
    /\ files (run hud_only_world).2
       = <[hud_path := hud']> (files hud_only_world)
    /\ files (run hud_only_world).2 !! hud_path = Some hud'
    /\ files (run hud_only_world).2 !! main_path = None
    /\ files (run hud_only_world).2 !! settings_path
       = files hud_only_world !! settings_path
    /\ stdout (run hud_only_world).2
       = stdout hud_only_world ++ [check_mark ++ u " HUDView.swift updated"].
Proof.
  apply (proj1 (proj2 (read_failure_keeps_earlier_writes hud_only_world))
           headline_stub).
  - vm_compute. reflexivity.
  - vm_compute. reflexivity.
Defined.

(** On one rule and on the inserts of the example. *)
Lemma operations_deterministic_witness :
  (([(u "a", u "b")] = [(u "a", u "b")] /\ Ok (u "xb") = Ok (u "xb")
    /\ [(u "a", u "b")] `prefix_of` [(u "a", u "b")]
    /\ (forall c, Ok (u "xb") = Ok c -> [(u "a", u "b")] = [(u "a", u "b")])
    /\ Ok (u "xb") = apply_pattern_rules [(u "a", u "b")] (u "xa"))
   /\ (apply_positional_rules ten_lines example_inserts
       = apply_positional_rules ten_lines example_inserts
       /\ apply_positional_rules ten_lines example_inserts
          = apply_positional_rules ten_lines example_inserts)).
Proof.
  apply (operations_deterministic [(u "a", u "b")] (u "xa")
           [(u "a", u "b")] [(u "a", u "b")] (Ok (u "xb")) (Ok (u "xb"))
           ten_lines example_inserts).
  - eapply exec_rule; [reflexivity | apply exec_done].
  - eapply exec_rule; [reflexivity | apply exec_done].
  - apply positional_exec_apply.
  - apply positional_exec_apply.
Defined.

(** In a world that has HUDView.swift only. *)
Lemma run_outcome_witness :
  exists before path after,
    script_paths = before ++ path :: after
    /\ OSError main_path = OSError path
    /\ Forall (fun q => is_Some (files hud_only_world !! q)) before
    /\ files hud_only_world !! path = None
    /\ files (run hud_only_world).2 !! path = None.
Proof.
  apply (proj2 (run_outcome hud_only_world)). vm_compute. reflexivity.
Defined.

(** In a world with the three files. *)
Lemma run_all_present_witness :
  exists hud' main',
    apply_pattern_rules replacements (universal_newlines headline_stub)
    = Ok hud'
    /\ apply_pattern_rules main_rules
         (universal_newlines (u "struct MainView {" ++ nl ++ u "}" ++ nl))
       = Ok main'
    /\ (run full_world).1 = Ok tt
    /\ files (run full_world).2 !! hud_path = Some hud'
    /\ files (run full_world).2 !! main_path = Some main'
    /\ files (run full_world).2 !! settings_path
       = Some (writelines (apply_positional_rules
                             (readlines (writelines ten_lines)) inserts))
    /\ stdout (run full_world).2 = stdout full_world ++ confirmations.
Proof.
  apply (run_all_present full_world); vm_compute; reflexivity.
Defined.

(** For a file the script does not name. *)
Lemma run_frame_witness :
  files (run full_world).2 !! "README.md"%string
  = files full_world !! "README.md"%string.
Proof.
  apply (proj2 (run_frame full_world)). unfold script_paths.
  rewrite !not_elem_of_cons. repeat split; try discriminate.
  apply not_elem_of_nil.
Defined.

(** ** More on the pattern rules *)

(** On a list whose second rule refers to a group its pattern lacks. *)
Lemma pattern_rules_error_independent_witness :
  apply_pattern_rules [(u "x", u "y"); (u "a", u "\2")] (u "xyz")
  = Raise re_error
  /\ apply_pattern_rules [(u "x", u "y"); (u "a", u "\2")] (u "abc")
     = Raise re_error
  /\ exists before pattern repl after,
       [(u "x", u "y"); (u "a", u "\2")] = before ++ (pattern, repl) :: after
       /\ Forall (fun rule => rule_compiles rule.1 rule.2) before
       /\ forall content, re_sub pattern repl content = Raise re_error.
Proof.
  split; [reflexivity |].
  apply (proj2 (pattern_rules_error_independent
                  [(u "x", u "y"); (u "a", u "\2")]) (u "xyz")).
  reflexivity.
Defined.

(** On the stub with the headline marker. *)
Lemma pattern_rules_only_add_witness :
  headline_stub `sublist_of` headline_patched.
Proof.
  apply (pattern_rules_only_add replacements headline_stub headline_patched).
  - apply replacements_insert_only.
  - vm_compute. reflexivity.
Defined.

(** On the headline rule and its own output. *)
Lemma label_rule_fires_again_witness :
  exists out2,
    re_sub (u "(\.foregroundStyle\(headlineColor\))")
      (u "\1\n          .accessibilityLabel(" ++ dq
       ++ u "Status: \\(manager.snapshot.headline)" ++ dq ++ u ")")
      headline_patched = Ok out2
    /\ (count_nl headline_patched < count_nl out2)%nat
    /\ out2 <> headline_patched.
Proof.
  apply (proj1 label_rule_fires_again _ _ headline_stub).
  - vm_compute. reflexivity.
  - vm_compute. reflexivity.
  - vm_compute. discriminate.
Defined.

(** On a stub of MainView.swift. *)
Lemma helper_rule_fires_again_witness :
  (exists before after, main_stub_out = before ++ helper ++ after)
  /\ exists out2,
       re_sub main_pattern_3 helper main_stub_out = Ok out2
       /\ out2 <> main_stub_out.
Proof.
  apply (helper_rule_fires_again main_stub).
  - vm_compute. reflexivity.
  - vm_compute. discriminate.
Defined.

(** On the first rule of MainView.swift. *)
Lemma label_rule_inserts_after_match_witness :
  re_sub main_pattern_1 main_replacement_1 headline_stub
  = Ok (insert_at headline_stub
          (nl ++ u "      .accessibilityLabel(accessibilityLabelForRecordButton)")
          0 (match_ends main_pattern_1 headline_stub))
  /\ length (insert_at headline_stub
               (nl ++ u "      .accessibilityLabel(accessibilityLabelForRecordButton)")
               0 (match_ends main_pattern_1 headline_stub))
     = (length headline_stub
        + length (match_ends main_pattern_1 headline_stub)
          * length (nl ++ u "      .accessibilityLabel(accessibilityLabelForRecordButton)"))%nat.
Proof.
  apply (proj1 label_rule_inserts_after_match).
  vm_compute. reflexivity.
Defined.

(** For MainView.swift in a world with the three files. *)
Lemma run_keeps_final_newline_witness :
  exists new,
    files (run stub_world).2 !! main_path = Some new
    /\ last new = Some 10%N.
Proof.
  apply (run_keeps_final_newline stub_world main_path main_stub).
  - vm_compute. reflexivity.
  - vm_compute. reflexivity.
Defined.
